(** * DuskPool: a shallow embedding of the off-chain core

    The sources embedded here are
    - [prover/src/index.ts]            (commitments, whitelist tree, proof bytes),
    - [matching-engine/src/index.ts]   (order book, matcher and settlement),
    - the order-submission route       (POST /api/orders/submit),
    - the commitment routes            (POST /api/commitment/generate, /hash-asset),
    - [matching-engine/src/websocket/index.ts] (heartbeat),
    - [circuits/merkle/merkle_proof.circom]    (inclusion-proof verifier),
    - [circuits/settlement/settlement_proof.circom] (settlement circuit).

    Conventions: a JavaScript [bigint] is a [Z]; a [number] holding an
    integer (array index, [Date.now()] milliseconds) is a [Z] or a [nat];
    a [string] is a Rocq [string], read as its UTF-8 bytes; a thrown
    exception is [None]; a [Map] is a [gmap]; a [Set<number>] is a [gset]. *)

From Stdlib Require Import ZArith Lia List String Ascii.
From Stdlib.Strings Require Import Byte.
From stdpp Require Import base option list gmap sets strings sorting.

Local Open Scope Z_scope.

(** ** JavaScript built-ins used by the sources *)

Module JS.

(** Value of a digit character in the given radix ([0-9], [a-z], [A-Z]). *)
Definition digitValue (radix : Z) (c : ascii) : option Z :=
  let n := Z.of_N (N_of_ascii c) in
  let v := if (48 <=? n) && (n <=? 57) then Some (n - 48)
           else if (97 <=? n) && (n <=? 122) then Some (n - 87)
           else if (65 <=? n) && (n <=? 90) then Some (n - 55)
           else None in
  match v with
  | Some d => if d <? radix then Some d else None
  | None => None
  end.

(** Left-to-right accumulation of a digit string; any other character
    makes the literal invalid. *)
Fixpoint parseDigits (radix : Z) (s : string) (acc : Z) : option Z :=
  match s with
  | EmptyString => Some acc
  | String c s' =>
      match digitValue radix c with
      | Some d => parseDigits radix s' (acc * radix + d)
      | None => None
      end
  end.

Definition parseNonEmpty (radix : Z) (s : string) : option Z :=
  match s with
  | EmptyString => None
  | _ => parseDigits radix s 0
  end.

(** White space as [StringToBigInt] trims it ([StrWhiteSpaceChar]: the
    [WhiteSpace] and [LineTerminator] productions), recognised on the
    UTF-8 bytes of the string. One byte: TAB, LF, VT, FF, CR, SP. *)
Definition isWhiteSpace (c : ascii) : bool :=
  let n := Z.of_N (N_of_ascii c) in
  ((9 <=? n) && (n <=? 13)) || (n =? 32).

(** Two bytes: U+00A0 (no-break space), [C2 A0]. *)
Definition isWhiteSpace2 (c1 c2 : ascii) : bool :=
  (Z.of_N (N_of_ascii c1) =? 194) && (Z.of_N (N_of_ascii c2) =? 160).

(** Three bytes: U+1680 [E1 9A 80]; U+2000 to U+200A [E2 80 80..8A];
    U+2028 and U+2029 [E2 80 A8], [E2 80 A9]; U+202F [E2 80 AF];
    U+205F [E2 81 9F]; U+3000 [E3 80 80]; U+FEFF [EF BB BF]. *)
Definition isWhiteSpace3 (c1 c2 c3 : ascii) : bool :=
  let n1 := Z.of_N (N_of_ascii c1) in
  let n2 := Z.of_N (N_of_ascii c2) in
  let n3 := Z.of_N (N_of_ascii c3) in
  ((n1 =? 225) && (n2 =? 154) && (n3 =? 128))
  || ((n1 =? 226) && (n2 =? 128)
      && (((128 <=? n3) && (n3 <=? 138)) || (n3 =? 168) || (n3 =? 169) || (n3 =? 175)))
  || ((n1 =? 226) && (n2 =? 129) && (n3 =? 159))
  || ((n1 =? 227) && (n2 =? 128) && (n3 =? 128))
  || ((n1 =? 239) && (n2 =? 187) && (n3 =? 191)).

Fixpoint trimStart (s : string) : string :=
  match s with
  | EmptyString => EmptyString
  | String c1 s1 =>
      if isWhiteSpace c1 then trimStart s1
      else
        match s1 with
        | EmptyString => s
        | String c2 s2 =>
            if isWhiteSpace2 c1 c2 then trimStart s2
            else
              match s2 with
              | EmptyString => s
              | String c3 s3 => if isWhiteSpace3 c1 c2 c3 then trimStart s3 else s
              end
        end
  end.

Fixpoint trimEnd (s : string) : string :=
  match s with
  | EmptyString => EmptyString
  | String c s' =>
      match trimEnd s' with
      | EmptyString => if isWhiteSpace c then EmptyString else String c EmptyString
      | String c2 EmptyString =>
          if isWhiteSpace2 c c2 then EmptyString else String c (String c2 EmptyString)
      | String c2 (String c3 EmptyString) =>
          if isWhiteSpace3 c c2 c3 then EmptyString
          else String c (String c2 (String c3 EmptyString))
      | t => String c t
      end
  end.

(** [BigInt(s)] for a string argument (StringToBigInt): surrounding white
    space is dropped, the empty literal is [0n], a decimal literal may
    carry a sign, [0x]/[0o]/[0b] literals may not; anything else throws
    a SyntaxError. *)
Definition BigInt (s : string) : option Z :=
  match trimEnd (trimStart s) with
  | EmptyString => Some 0
  | String "0" (String "x" r) | String "0" (String "X" r) => parseNonEmpty 16 r
  | String "0" (String "o" r) | String "0" (String "O" r) => parseNonEmpty 8 r
  | String "0" (String "b" r) | String "0" (String "B" r) => parseNonEmpty 2 r
  | String "+" r => parseNonEmpty 10 r
  | String "-" r => Z.opp <$> parseNonEmpty 10 r
  | t => parseNonEmpty 10 t
  end.

(** The character of a digit value below 36, lower case as [toString]
    prints it. *)
Definition digitChar (d : Z) : ascii :=
  ascii_of_N (Z.to_N (if d <? 10 then d + 48 else d + 87)).

Fixpoint renderDigits (fuel : nat) (radix n : Z) (acc : string) : string :=
  match fuel with
  | O => acc
  | S fuel' =>
      let acc' := String (digitChar (n mod radix)) acc in
      if n / radix =? 0 then acc' else renderDigits fuel' radix (n / radix) acc'
  end.

(** [n.toString(radix)] on a bigint. A magnitude [m] has at most
    [log2 m + 1] digits in any radix, which bounds the loop. *)
Definition toString (radix : Z) (n : Z) : string :=
  let m := Z.abs n in
  let digits := renderDigits (S (Z.to_nat (Z.log2 m))) radix m EmptyString in
  if n <? 0 then String "-" digits else digits.

Fixpoint repeatChar (n : nat) (c : ascii) : string :=
  match n with
  | O => EmptyString
  | S n' => String c (repeatChar n' c)
  end.

(** [s.padStart(width, c)] with a one-character filler. *)
Definition padStart (width : nat) (c : ascii) (s : string) : string :=
  (repeatChar (width - String.length s) c ++ s)%string.

(** [Number(b)] on a bigint rounds to the nearest double. The rounding
    keeps the sign and never sends a non-zero value to zero, and the only
    consumer here, the comparator protocol of [Array.prototype.sort],
    reads nothing but the sign; the value itself stands for its double. *)
Definition Number (b : Z) : Z := b.

(** [Array.prototype.sort(cmp)]: a stable sort that places [a] before [b]
    when [cmp a b <= 0]. For a comparator that is a total preorder the
    result of a stable sort is unique; it is computed here by insertion
    from the right. *)
Fixpoint insertBy {A} (cmp : A → A → Z) (x : A) (l : list A) : list A :=
  match l with
  | [] => [x]
  | y :: l' => if cmp x y <=? 0 then x :: y :: l' else y :: insertBy cmp x l'
  end.

Definition Array_sort {A} (cmp : A → A → Z) (l : list A) : list A :=
  foldr (insertBy cmp) [] l.

(** The order a comparator induces: [a] may come before [b]. *)
Definition before {A} (cmp : A → A → Z) (a b : A) : Prop := cmp a b ≤ 0.

(** [arr.filter((_, i) => keep(i))], the index counted from [i]. *)
Fixpoint filterIndex {A} (keep : nat → bool) (i : nat) (l : list A) : list A :=
  match l with
  | [] => []
  | x :: l' =>
      if keep i then x :: filterIndex keep (S i) l' else filterIndex keep (S i) l'
  end.

(** Two lower-case hexadecimal digits of a byte:
    [b.toString(16).padStart(2, "0")]. *)
Definition byteToHex (b : byte) : string :=
  padStart 2 "0" (toString 16 (Z.of_N (Byte.to_N b))).

(** [Array.from(bytes).map(byteToHex).join("")], which is also
    [Buffer.toString("hex")]. *)
Fixpoint bytesToHex (bs : list byte) : string :=
  match bs with
  | [] => EmptyString
  | b :: bs' => (byteToHex b ++ bytesToHex bs')%string
  end.

Definition byteOfZ (z : Z) : byte :=
  default x00 (Byte.of_N (Z.to_N (z mod 256))).

(** [Buffer.from(hex, "hex")]: pairs of hexadecimal digits become bytes;
    decoding stops at the first pair that is not hexadecimal, and a
    trailing single digit is dropped. *)
Fixpoint Buffer_from_hex (s : string) : list byte :=
  match s with
  | String hi (String lo s') =>
      match digitValue 16 hi, digitValue 16 lo with
      | Some h, Some l => byteOfZ (16 * h + l) :: Buffer_from_hex s'
      | _, _ => []
      end
  | _ => []
  end.

(** [Buffer.from(s)]: the UTF-8 bytes of the string. *)
Definition Buffer_from (s : string) : list byte :=
  map byte_of_ascii (list_ascii_of_string s).

(** Strings made of digits of a radix, and strings of ASCII characters
    none of which is white space. *)
Definition digitsOf (radix : Z) (s : string) : Prop :=
  Forall (λ c, is_Some (digitValue radix c)) (list_ascii_of_string s).

Definition noWhiteSpace (s : string) : Prop :=
  Forall (λ c, isWhiteSpace c = false ∧ Z.of_N (N_of_ascii c) < 128)
    (list_ascii_of_string s).

End JS.

(** ** Big-endian byte strings, as the specification speaks of them *)

Module Encoding.

Definition byteValue (b : byte) : Z := Z.of_N (Byte.to_N b).

(** The integer a byte string denotes, most significant byte first,
    continuing from [acc]. *)
Definition beValueFrom (acc : Z) (bs : list byte) : Z :=
  fold_left (λ a b, a * 256 + byteValue b) bs acc.

Definition beValue (bs : list byte) : Z := beValueFrom 0 bs.

(** The big-endian encoding of [v] on [n] bytes: the digits of [v] in
    base 256, the one of weight [256^(n-1)] first. *)
Fixpoint bigEndian (n : nat) (v : Z) : list byte :=
  match n with
  | O => []
  | S n' => JS.byteOfZ (v / 256 ^ Z.of_nat n') :: bigEndian n' v
  end.

End Encoding.

(** ** The scalar field of BN254 as circomlibjs exposes it ([poseidon.F])

    A field element is kept as its least residue. *)

Module F.

Definition p : Z :=
  21888242871839275222246405745257275088548364400416034343698204186575808495617.

(** [F.e(x)]: the element of the integer [x]. *)
Definition e (x : Z) : Z := x mod p.

(** [F.toObject(a)]: the least residue as a bigint. *)
Definition toObject (a : Z) : Z := a.

(** [F.toString(a)]: the least residue in decimal. *)
Definition toString (a : Z) : string := JS.toString 10 a.

(** A least residue of the field. *)
Definition canonical (x : Z) : Prop := 0 ≤ x < p.

End F.

(** ** The inclusion-proof templates of [circuits/merkle/merkle_proof.circom]

    Signals are field elements; [a === b] is a constraint, and a
    template whose constraint fails has no witness ([None]). *)

Module Circuit.

Section Poseidon.

(** circomlib's Poseidon template, the same permutation circomlibjs
    computes. *)
Variable poseidon : list Z → Z.

(** [template DualMux()]: [sel] must be binary; [sel = 0] gives [(L, R)],
    [sel = 1] gives [(R, L)]. *)
Definition DualMux (L R sel : Z) : option (Z * Z) :=
  if F.e (sel * (sel - 1)) =? 0
  then Some (F.e (L + (R - L) * sel), F.e (R + (L - R) * sel))
  else None.

(** [template MerkleLevel()]. *)
Definition MerkleLevel (left right : Z) : Z := poseidon [left; right].

(** The loop of [MerkleTreeProof]: [hashes[i + 1]] from [hashes[i]],
    [pathElements[i]] and [pathIndices[i]]. *)
Fixpoint hashPath (hash : Z) (pathElements pathIndices : list Z) : option Z :=
  match pathElements, pathIndices with
  | [], [] => Some hash
  | element :: elements, sel :: sels =>
      '(outL, outR) ← DualMux hash element sel;
      hashPath (MerkleLevel outL outR) elements sels
  | _, _ => None
  end.

(** [template MerkleTreeProof(levels)]: both arrays have [levels]
    entries. *)
Definition MerkleTreeProof (levels : nat) (leaf : Z) (pathElements pathIndices : list Z)
    : option Z :=
  if (length pathElements =? levels)%nat && (length pathIndices =? levels)%nat
  then hashPath leaf pathElements pathIndices
  else None.

(** [template MerkleTreeVerifier(levels)]: [proof.root === expectedRoot]. *)
Definition MerkleTreeVerifier (levels : nat) (leaf : Z) (pathElements pathIndices : list Z)
    (expectedRoot : Z) : bool :=
  match MerkleTreeProof levels leaf pathElements pathIndices with
  | Some root => root =? expectedRoot
  | None => false
  end.

(** How the witness calculator reads an input signal given as a string:
    the integer it denotes, reduced into the field. *)
Definition signalOfString (s : string) : option Z := F.e <$> JS.BigInt s.

End Poseidon.

End Circuit.

(** ** The proof library, [prover/src/index.ts] *)

Module Prover.

(** Circuit tree depth. *)
Definition TREE_DEPTH : nat := 20.

(** [interface OrderParams]. *)
Record OrderParams := {
  assetHash : Z;
  side : Z;
  quantity : Z;
  price : Z
}.

(** [interface OrderCommitment]. *)
Record OrderCommitment := {
  commitment : string;
  secret : Z;
  nonce : Z
}.

(** [interface MerkleProof]. *)
Record MerkleProof := {
  idHash : string;
  pathElements : list string;
  pathIndices : list Z
}.

(** The [proof] object of snarkjs, as far as the conversion reads it. *)
Record Groth16Proof := {
  pi_a : list string;
  pi_b : list (list string);
  pi_c : list string
}.

(** [randomBytes(length)]: a fresh [Uint8Array(length)] is filled by the
    system RNG and printed in hexadecimal, two digits a byte. The RNG is
    a stream of bytes; this call consumes [length] of them from position
    [pos]. *)
Definition randomBytes (rng : nat → byte) (pos length : nat) : string :=
  JS.bytesToHex (map rng (seq pos length)).

Section Poseidon.

(** [poseidon] of circomlibjs, on least residues. *)
Variable poseidon : list Z → Z.

(** [generateOrderCommitment(params)]: two draws of 32 bytes, then the
    arity-6 hash. The secret and the nonce are returned as drawn. *)
Definition generateOrderCommitment (rng : nat → byte) (params : OrderParams)
    : option OrderCommitment :=
  secret ← JS.BigInt ("0x" ++ randomBytes rng 0 32);
  nonce ← JS.BigInt ("0x" ++ randomBytes rng 32 32);
  let commitment := poseidon [F.e (assetHash params); F.e (side params);
                               F.e (quantity params); F.e (price params);
                               F.e nonce; F.e secret] in
  Some {| commitment := F.toString commitment; secret := secret; nonce := nonce |}.

(** [hashAsset(assetAddress)]. *)
Definition hashAsset (assetAddress : string) : option string :=
  x ← JS.BigInt ("0x" ++ JS.bytesToHex (JS.Buffer_from assetAddress));
  let hash := poseidon [F.e x] in
  Some (F.toString hash).

(** [F.toObject(poseidon([F.e(left), F.e(right)]))]. *)
Definition hashPair (left right : Z) : Z :=
  F.toObject (poseidon [F.e left; F.e right]).

(** The leaf loop: [poseidon([F.e(BigInt(participants[i]))])]. *)
Fixpoint leafHashes (participants : list string) : option (list Z) :=
  match participants with
  | [] => Some []
  | id :: rest =>
      x ← JS.BigInt id;
      leaves ← leafHashes rest;
      Some (F.toObject (poseidon [F.e x]) :: leaves)
  end.

(** [Math.max(1, Math.ceil(Math.log2(Math.max(2, n))))]. On the integers
    that occur the rounded-up binary logarithm is exact. *)
Definition actualDepthOf (n : nat) : nat :=
  Nat.max 1 (Nat.log2_up (Nat.max 2 n)).

(** [zeros]: [zeros[0] = 0n], [zeros[i] = hash(zeros[i-1], zeros[i-1])]
    for [i] up to the given bound. *)
Fixpoint zeroLadder (steps : nat) (zero : Z) : list Z :=
  match steps with
  | O => [zero]
  | S steps' => zero :: zeroLadder steps' (hashPair zero zero)
  end.

(** One pass of the inner building loop, [i += 2]; an element without
    a right neighbour would make [F.e] throw. *)
Fixpoint nextLevel (currentLevel : list Z) : option (list Z) :=
  match currentLevel with
  | [] => Some []
  | lhs :: rhs :: rest => (hashPair lhs rhs ::.) <$> nextLevel rest
  | [_] => None
  end.

(** [treeLevels]: the leaves and, for [depth] rounds, the level above. *)
Fixpoint buildLevels (depth : nat) (currentLevel : list Z) : option (list (list Z)) :=
  match depth with
  | O => Some [currentLevel]
  | S depth' =>
      next ← nextLevel currentLevel;
      (currentLevel ::.) <$> buildLevels depth' next
  end.

(** [for (level = from; level < TREE_DEPTH; level++)
       root = hash(root, zeros[level])]. *)
Fixpoint extendRoot (zeros : list Z) (count level : nat) (root : Z) : option Z :=
  match count with
  | O => Some root
  | S count' =>
      zero ← zeros !! level;
      extendRoot zeros count' (S level) (hashPair root zero)
  end.

(** Walking up the built tree: [count] levels from [level], at [index]. *)
Fixpoint walkUp (treeLevels : list (list Z)) (count level index : nat)
    : option (list string * list Z) :=
  match count with
  | O => Some ([], [])
  | S count' =>
      let isRight := (index mod 2 =? 1)%nat in
      let siblingIndex := if isRight then (index - 1)%nat else (index + 1)%nat in
      nodes ← treeLevels !! level;
      sibling ← nodes !! siblingIndex;
      '(elements, indices) ← walkUp treeLevels count' (S level) (index `div` 2)%nat;
      Some (JS.toString 10 sibling :: elements, (if isRight then 1 else 0) :: indices)
  end.

(** The zero siblings above the built tree, always on the right. *)
Fixpoint zeroSiblings (zeros : list Z) (count level : nat) : option (list string * list Z) :=
  match count with
  | O => Some ([], [])
  | S count' =>
      zero ← zeros !! level;
      '(elements, indices) ← zeroSiblings zeros count' (S level);
      Some (JS.toString 10 zero :: elements, 0 :: indices)
  end.

(** The body of the proof loop for participant [i]. *)
Definition proofOf (treeLevels : list (list Z)) (zeros leaves : list Z)
    (actualDepth i : nat) : option MerkleProof :=
  '(elements, indices) ← walkUp treeLevels actualDepth 0 i;
  '(zeroElements, zeroIndices) ←
      zeroSiblings zeros (TREE_DEPTH - actualDepth) actualDepth;
  leaf ← leaves !! i;
  Some {| idHash := JS.toString 10 leaf;
          pathElements := elements ++ zeroElements;
          pathIndices := indices ++ zeroIndices |}.

(** [for (i = 0; i < participants.length; i++) proofs.set(i, ...)]. *)
Fixpoint proofLoop (treeLevels : list (list Z)) (zeros leaves : list Z)
    (actualDepth count i : nat) (proofs : gmap nat MerkleProof)
    : option (gmap nat MerkleProof) :=
  match count with
  | O => Some proofs
  | S count' =>
      proof ← proofOf treeLevels zeros leaves actualDepth i;
      proofLoop treeLevels zeros leaves actualDepth count' (S i) (<[i := proof]> proofs)
  end.

(** [buildWhitelistTree(participants)]. *)
Definition buildWhitelistTree (participants : list string)
    : option (string * gmap nat MerkleProof) :=
  leaves ← leafHashes participants;
  let actualDepth := actualDepthOf (length leaves) in
  let numLeaves := (2 ^ actualDepth)%nat in
  let leaves := leaves ++ replicate (numLeaves - length leaves) 0 in
  let zeros := zeroLadder TREE_DEPTH 0 in
  treeLevels ← buildLevels actualDepth leaves;
  currentLevel ← last treeLevels;
  root ← currentLevel !! 0%nat;
  extendedRoot ← extendRoot zeros (TREE_DEPTH - actualDepth) actualDepth root;
  proofs ← proofLoop treeLevels zeros leaves actualDepth (length participants) 0 ∅;
  Some (JS.toString 10 extendedRoot, proofs).

(** [computeNullifier(...)]. *)
Definition computeNullifier (buyCommitment sellCommitment : string)
    (quantity buyerSecret sellerSecret : Z) : option string :=
  b ← JS.BigInt buyCommitment;
  s ← JS.BigInt sellCommitment;
  let nullifier := poseidon [F.e b; F.e s; F.e quantity;
                             F.e (buyerSecret + sellerSecret)] in
  Some (F.toString nullifier).

End Poseidon.

(** [toBytes32(value)]: 64 hexadecimal digits, or more when the value
    needs more. *)
Definition toBytes32 (value : string) : option string :=
  v ← JS.BigInt value;
  Some (JS.padStart 64 "0" (JS.toString 16 v)).

(** The 64 digits [toBytes32] prints for a value that fits 32 bytes. *)
Definition hex64 (v : Z) : string := JS.padStart 64 "0" (JS.toString 16 v).

(** [g1ToBytes(point)]: [x ∥ y]. A missing coordinate makes [BigInt]
    throw. *)
Definition g1ToBytes (point : list string) : option string :=
  x ← point !! 0%nat ≫= toBytes32;
  y ← point !! 1%nat ≫= toBytes32;
  Some (x ++ y)%string.

(** [g2ToBytes(point)]: [x1 ∥ x0 ∥ y1 ∥ y0] from [[x0, x1], [y0, y1]]. *)
Definition g2ToBytes (point : list (list string)) : option string :=
  x1 ← (point !! 0%nat ≫= (.!! 1%nat)) ≫= toBytes32;
  x0 ← (point !! 0%nat ≫= (.!! 0%nat)) ≫= toBytes32;
  y1 ← (point !! 1%nat ≫= (.!! 1%nat)) ≫= toBytes32;
  y0 ← (point !! 1%nat ≫= (.!! 0%nat)) ≫= toBytes32;
  Some (x1 ++ x0 ++ y1 ++ y0)%string.

(** [publicSignals.map(toBytes32).join("")]. *)
Fixpoint signalsToHex (publicSignals : list string) : option string :=
  match publicSignals with
  | [] => Some EmptyString
  | s :: rest =>
      h ← toBytes32 s;
      t ← signalsToHex rest;
      Some (h ++ t)%string
  end.

(** [convertProofForSoroban(proof, publicSignals)], giving
    [(proofBytes, signalsBytes)]. *)
Definition convertProofForSoroban (proof : Groth16Proof) (publicSignals : list string)
    : option (list byte * list byte) :=
  a ← g1ToBytes (pi_a proof);
  b ← g2ToBytes (pi_b proof);
  c ← g1ToBytes (pi_c proof);
  let proofHex := (a ++ b ++ c)%string in
  let numSignals := Z.of_nat (length publicSignals) in
  let lengthHex := JS.padStart 8 "0" (JS.toString 16 numSignals) in
  signals ← signalsToHex publicSignals;
  let signalsHex := (lengthHex ++ signals)%string in
  Some (JS.Buffer_from_hex proofHex, JS.Buffer_from_hex signalsHex).

(** The Merkle inputs as [generateSettlementProof] hands them to the
    circuit [SettlementProof(20)], whose first two components are
    [MerkleTreeVerifier(TREE_DEPTH)] on the leaf, the path and the root. *)
Definition verifiesInCircuit (poseidon : list Z → Z) (proof : MerkleProof)
    (whitelistRoot : string) : bool :=
  match Circuit.signalOfString (idHash proof),
        mapM Circuit.signalOfString (pathElements proof),
        Circuit.signalOfString whitelistRoot with
  | Some leaf, Some elements, Some root =>
      Circuit.MerkleTreeVerifier poseidon TREE_DEPTH leaf elements
        (map F.e (pathIndices proof)) root
  | _, _, _ => false
  end.

End Prover.

(** ** The matching engine, [matching-engine/src/index.ts] *)

Module Engine.

(** [enum OrderSide { Buy = 0, Sell = 1 }] of the prover package; at run
    time a side is the number the request carried. *)
Definition OrderSide_Buy : Z := 0.
Definition OrderSide_Sell : Z := 1.

(** What the [whitelistIndex] field of an order holds at run time. The
    interface says [number]; the submission route fills the field from
    a property lookup on an object literal, and for a trader named like
    a property of [Object.prototype] that lookup yields the inherited
    property, a function or an object, instead of a number. *)
Inductive WhitelistIndex :=
  | IndexNumber (index : Z)
  | IndexInherited (property : string).

Coercion IndexNumber : Z >-> WhitelistIndex.

(** [interface PrivateOrder]. The [timestamp] and [expiry] numbers are
    integer milliseconds as [Date.now()] produces them. *)
Record PrivateOrder := {
  commitment : string;
  trader : string;
  assetAddress : string;
  side : Z;
  quantity : Z;
  price : Z;
  secret : Z;
  nonce : Z;
  timestamp : Z;
  expiry : Z;
  whitelistIndex : WhitelistIndex
}.

(** [interface Match]; its [timestamp] field is [matchTimestamp] here,
    the name being taken by the order's field. *)
Record Match := {
  matchId : string;
  buyOrder : PrivateOrder;
  sellOrder : PrivateOrder;
  executionPrice : Z;
  executionQuantity : Z;
  matchTimestamp : Z
}.

(** The fields of [class DarkPoolMatchingEngine] that order submission
    and matching read or write. The RPC handle and the whitelist root and
    proofs are left out: neither [submitOrder] nor [matchOrders] touches
    them. *)
Record DarkPoolMatchingEngine := {
  buyOrders : gmap string (list PrivateOrder);
  sellOrders : gmap string (list PrivateOrder);
  matchQueue : list Match;
  completedMatches : list Match
}.

Definition newEngine : DarkPoolMatchingEngine :=
  {| buyOrders := ∅; sellOrders := ∅; matchQueue := []; completedMatches := [] |}.

(** Comparator of [buys.sort]: price descending, then time ascending. *)
Definition compareBuys (a b : PrivateOrder) : Z :=
  if negb (price a =? price b) then JS.Number (price b - price a)
  else timestamp a - timestamp b.

(** Comparator of [sells.sort]: price ascending, then time ascending. *)
Definition compareSells (a b : PrivateOrder) : Z :=
  if negb (price a =? price b) then JS.Number (price a - price b)
  else timestamp a - timestamp b.

(** What the two nested loops of [matchOrders] read and write: the two
    claimed-index sets and the two match lists of the engine. *)
Record LoopState := {
  matchedBuys : gset nat;
  matchedSells : gset nat;
  queue : list Match;
  completed : list Match
}.

(** The orders resting in a book, over all assets, and the orders bound
    in the matches emitted so far. *)
Definition bookOrders (book : gmap string (list PrivateOrder)) : list PrivateOrder :=
  concat (map snd (map_to_list book)).

Definition restingOrders (e : DarkPoolMatchingEngine) : list PrivateOrder :=
  bookOrders (buyOrders e) ++ bookOrders (sellOrders e).

Definition matchedOrders (matches : list Match) : list PrivateOrder :=
  flat_map (λ m, [buyOrder m; sellOrder m]) matches.

Section Environment.

(** The environment: the 32 random bytes, in hexadecimal, and the clock
    reading that the [k]-th match ever created by this engine receives
    from [generateMatchId()] and [Date.now()]. *)
Variable generateMatchId : nat → string.
Variable Date_now : nat → Z.

(** The inner loop [for (j = 0; j < sells.length; j++)], entered at index
    [j] with [sells] the elements from [j] on. It skips claimed sells,
    sells priced above the buy and sells of another quantity, and stops
    ([break]) at the first sell left. *)
Fixpoint findSell (buyOrder : PrivateOrder) (claimed : gset nat) (j : nat)
    (sells : list PrivateOrder) : option (nat * PrivateOrder) :=
  match sells with
  | [] => None
  | sellOrder :: rest =>
      if decide (j ∈ claimed) then findSell buyOrder claimed (S j) rest
      else if price buyOrder <? price sellOrder then findSell buyOrder claimed (S j) rest
      else if negb (quantity buyOrder =? quantity sellOrder)
           then findSell buyOrder claimed (S j) rest
      else Some (j, sellOrder)
  end.

(** The match object built when a pair is found. *)
Definition makeMatch (k : nat) (buyOrder sellOrder : PrivateOrder) : Match :=
  {| matchId := generateMatchId k;
     buyOrder := buyOrder;
     sellOrder := sellOrder;
     executionPrice := Z.quot (price buyOrder + price sellOrder) 2;
     executionQuantity := quantity buyOrder;
     matchTimestamp := Date_now k |}.

(** The outer loop [for (i = 0; i < buys.length; i++)], entered at index
    [i] with [buys] the elements from [i] on. *)
Fixpoint matchLoop (sells : list PrivateOrder) (i : nat) (buys : list PrivateOrder)
    (st : LoopState) : LoopState :=
  match buys with
  | [] => st
  | buyOrder :: rest =>
      if decide (i ∈ matchedBuys st) then matchLoop sells (S i) rest st
      else
        match findSell buyOrder (matchedSells st) 0 sells with
        | Some (j, sellOrder) =>
            let m := makeMatch (length (completed st)) buyOrder sellOrder in
            matchLoop sells (S i) rest
              {| matchedBuys := {[i]} ∪ matchedBuys st;
                 matchedSells := {[j]} ∪ matchedSells st;
                 queue := queue st ++ [m];
                 completed := completed st ++ [m] |}
        | None => matchLoop sells (S i) rest st
        end
  end.

(** The filter callback [(_, i) => !matched.has(i)]. *)
Definition notClaimed (matched : gset nat) (i : nat) : bool :=
  bool_decide (i ∉ matched).

(** [matchOrders(assetAddress)]. Both arrays are sorted in place, the
    loops run, and the map entries are replaced by the orders whose index
    was not claimed. With an empty side nothing happens at all. *)
Definition matchOrders (asset : string) (e : DarkPoolMatchingEngine)
    : DarkPoolMatchingEngine :=
  let buys := default [] (buyOrders e !! asset) in
  let sells := default [] (sellOrders e !! asset) in
  if (length buys =? 0)%nat || (length sells =? 0)%nat then e
  else
    let buys := JS.Array_sort compareBuys buys in
    let sells := JS.Array_sort compareSells sells in
    let st := matchLoop sells 0 buys
                {| matchedBuys := ∅; matchedSells := ∅;
                   queue := matchQueue e; completed := completedMatches e |} in
    {| buyOrders :=
         <[asset := JS.filterIndex (notClaimed (matchedBuys st)) 0 buys]>
           (buyOrders e);
       sellOrders :=
         <[asset := JS.filterIndex (notClaimed (matchedSells st)) 0 sells]>
           (sellOrders e);
       matchQueue := queue st;
       completedMatches := completed st |}.

(** [orders.get(a).push(order)] after the [has]/[set] that creates a
    missing entry. *)
Definition pushOrder (order : PrivateOrder)
    (orders : gmap string (list PrivateOrder)) : gmap string (list PrivateOrder) :=
  <[assetAddress order := default [] (orders !! assetAddress order) ++ [order]]> orders.

(** [submitOrder(order)]: the order joins the buy side when its side is
    [OrderSide.Buy] and the sell side otherwise, then matching runs for
    its asset. *)
Definition submitOrder (order : PrivateOrder) (e : DarkPoolMatchingEngine)
    : DarkPoolMatchingEngine :=
  let e' :=
    if side order =? OrderSide_Buy
    then {| buyOrders := pushOrder order (buyOrders e);
            sellOrders := sellOrders e;
            matchQueue := matchQueue e;
            completedMatches := completedMatches e |}
    else {| buyOrders := buyOrders e;
            sellOrders := pushOrder order (sellOrders e);
            matchQueue := matchQueue e;
            completedMatches := completedMatches e |} in
  matchOrders (assetAddress order) e'.

(** A sequence of submissions, first to last, on a fresh engine. *)
Definition submitAll (orders : list PrivateOrder) : DarkPoolMatchingEngine :=
  fold_left (λ e order, submitOrder order e) orders newEngine.

(** [getOrderBookState] reads [get(asset) || []] on both sides. *)
Definition restingBuys (asset : string) (e : DarkPoolMatchingEngine) : list PrivateOrder :=
  default [] (buyOrders e !! asset).
Definition restingSells (asset : string) (e : DarkPoolMatchingEngine) : list PrivateOrder :=
  default [] (sellOrders e !! asset).

End Environment.

(** [hashAssetAddress(assetAddress)], the engine's own copy of the
    prover's [hashAsset]; [poseidon] is the function [buildPoseidon()] of
    circomlibjs returns, here as in the prover. *)
Definition hashAssetAddress (poseidon : list Z → Z) (assetAddress : string)
    : option string :=
  x ← JS.BigInt ("0x" ++ JS.bytesToHex (JS.Buffer_from assetAddress));
  let hash := poseidon [F.e x] in
  Some (F.toString hash).

End Engine.

(** ** The order-submission route, [POST /api/orders/submit] *)

Module OrdersRoute.

Import Engine.

(** [interface SubmitOrderRequest], read from the JSON body: any field
    may be absent ([undefined]), and a field that is present has the
    type the interface declares, a string or an integer number. *)
Record SubmitOrderRequest := {
  req_commitment : option string;
  req_trader : option string;
  req_assetAddress : option string;
  req_side : option Z;
  req_quantity : option string;
  req_price : option string;
  req_secret : option string;
  req_nonce : option string;
  req_expiry : option Z;
  req_whitelistIndex : option Z
}.

(** What the handler answers. *)
Inductive Response :=
  | Status400   (* Missing required fields *)
  | Status500   (* Failed to submit order *)
  | Status200 (pendingMatches : nat).

(** The own properties of the object literal [TRADER_WHITELIST_MAP]. *)
Definition TRADER_WHITELIST_MAP : gmap string Z :=
  <["GAWA7FFL4ETAAHS65SBLK7GIJQSAYONUNQAG63USUUPYIK7EMHO7DQQ6"%string := 0]>
    (<["GCI2MA57GAKNKFL34Z6BFWHPNQ42HY4CPF3LPTPH7CCQMV7FY566M7WI"%string := 1]> ∅).

(** The properties an object literal inherits from [Object.prototype]:
    eleven functions and the accessor [__proto__], which answers the
    prototype itself. None of them is [undefined]. *)
Definition Object_prototype : list string :=
  ["constructor"; "__defineGetter__"; "__defineSetter__"; "hasOwnProperty";
   "__lookupGetter__"; "__lookupSetter__"; "isPrototypeOf"; "propertyIsEnumerable";
   "toString"; "valueOf"; "__proto__"; "toLocaleString"]%string.

(** [getWhitelistIndex(trader, providedIndex)]: what
    [TRADER_WHITELIST_MAP[trader]] finds, among the table's own
    properties and then among the inherited ones, unless it is
    [undefined]; otherwise [providedIndex || 0]. *)
Definition getWhitelistIndex (trader : string) (providedIndex : option Z)
    : WhitelistIndex :=
  match TRADER_WHITELIST_MAP !! trader with
  | Some index => IndexNumber index
  | None =>
      if bool_decide (trader ∈ Object_prototype) then IndexInherited trader
      else IndexNumber (default 0 providedIndex)
  end.

(** [!s] on an optional string: absent or empty. *)
Definition missing (s : option string) : bool :=
  match s with
  | None | Some EmptyString => true
  | Some _ => false
  end.

(** [expiry || fallback] on an optional number. *)
Definition orElse (n : option Z) (fallback : Z) : Z :=
  match n with
  | None | Some 0 => fallback
  | Some v => v
  end.

(** [matchingEngine.processMatches()], which the handler calls without
    awaiting it when matches are pending: before the handler goes on,
    the call has shifted the first pending match off [matchQueue] and
    awaits its settlement. What becomes of the call afterwards is not
    part of the handler; [EngineSettlement.react] follows it. *)
Definition autoProcess (e : DarkPoolMatchingEngine) : DarkPoolMatchingEngine :=
  match matchQueue e with
  | [] => e
  | _ :: rest =>
      {| buyOrders := buyOrders e;
         sellOrders := sellOrders e;
         matchQueue := rest;
         completedMatches := completedMatches e |}
  end.

Section Environment.

Variable generateMatchId : nat → string.
Variable Date_now : nat → Z.

(** The handler up to the response, on the engine it holds. [now] and
    [now'] are the two readings of [Date.now()] it takes. The only test
    made on the command is that the eight required fields are present
    and non-empty; a numeric field that is not an integer literal makes
    [BigInt] throw, which the [catch] turns into a 500. The count of
    pending matches is read before the processing starts. *)
Definition postSubmit (now now' : Z) (body : SubmitOrderRequest)
    (engine : DarkPoolMatchingEngine) : Response * DarkPoolMatchingEngine :=
  if missing (req_commitment body) || missing (req_trader body)
     || missing (req_assetAddress body) || bool_decide (req_side body = None)
     || missing (req_quantity body) || missing (req_price body)
     || missing (req_secret body) || missing (req_nonce body)
  then (Status400, engine)
  else
    let commitment := default EmptyString (req_commitment body) in
    let trader := default EmptyString (req_trader body) in
    let assetAddress := default EmptyString (req_assetAddress body) in
    let side := default 0 (req_side body) in
    let resolvedWhitelistIndex := getWhitelistIndex trader (req_whitelistIndex body) in
    match JS.BigInt (default EmptyString (req_quantity body)),
          JS.BigInt (default EmptyString (req_price body)),
          JS.BigInt (default EmptyString (req_secret body)),
          JS.BigInt (default EmptyString (req_nonce body)) with
    | Some quantity, Some price, Some secret, Some nonce =>
        let order :=
          {| commitment := commitment;
             trader := trader;
             assetAddress := assetAddress;
             side := side;
             quantity := quantity;
             price := price;
             secret := secret;
             nonce := nonce;
             timestamp := now;
             expiry := orElse (req_expiry body) (now' + 3600000);
             whitelistIndex := resolvedWhitelistIndex |} in
        let engine' := submitOrder generateMatchId Date_now order engine in
        (Status200 (length (matchQueue engine')), autoProcess engine')
    | _, _, _, _ => (Status500, engine)
    end.

End Environment.

End OrdersRoute.

(** ** The heartbeat of [matching-engine/src/websocket/index.ts] *)

Module WebSocketServer.

(** The period handed to [setInterval], in milliseconds. *)
Definition HEARTBEAT_INTERVAL_MS : Z := 30000.

(** A client socket is named by a number. The server keeps, for each
    socket in [wss.clients], its [isAlive] flag. *)

(** Modelled from the spec: the subscription manager of
    [websocket/handlers.ts], which is not among the sources. Section 4.7
    has it record (client, channel) pairs on [subscribe] and release all
    pairs of a client on disconnect. *)
Definition SubscriptionManager := gset (nat * string).

(** Modelled from the spec: [subscribe] of the absent manager records
    the (client, channel) pair. *)
Definition subscribe (client : nat) (channel : string) (m : SubscriptionManager)
    : SubscriptionManager :=
  {[ (client, channel) ]} ∪ m.

(** Modelled from the spec: [removeClient] of the absent manager releases
    every subscription of the client. *)
Definition removeClient (client : nat) (m : SubscriptionManager) : SubscriptionManager :=
  filter (λ sub, sub.1 ≠ client) m.

Record Server := {
  clients : gmap nat bool;
  subscriptionManager : SubscriptionManager
}.

Definition newServer : Server := {| clients := ∅; subscriptionManager := ∅ |}.

(** What reaches the server. [Tick] is one firing of the interval
    timer; [Subscribe] is a [subscribe] message, which the absent
    [handleMessage] passes to the manager. *)
Inductive Event :=
  | Connection (client : nat)
  | Pong (client : nat)
  | Subscribe (client : nat) (channel : string)
  | Close (client : nat)
  | Tick.

(** What the heartbeat does to a socket. *)
Inductive Action :=
  | Ping (client : nat)
  | Terminate (client : nat).

(** The body of the [forEach] in [startHeartbeat] for one socket and
    its flag: a socket whose flag is [false] is released and terminated,
    any other has its flag cleared and is pinged. *)
Definition beat (s : Server * list Action) (socket : nat * bool) : Server * list Action :=
  let '(server, actions) := s in
  let '(client, isAlive) := socket in
  if negb isAlive then
    ({| clients := delete client (clients server);
        subscriptionManager := removeClient client (subscriptionManager server) |},
     actions ++ [Terminate client])
  else
    ({| clients := <[client := false]> (clients server);
        subscriptionManager := subscriptionManager server |},
     actions ++ [Ping client]).

(** One firing of the timer: every socket of [wss.clients] in turn. The
    socket that [terminate()] destroys leaves [wss.clients] when it
    closes. *)
Definition heartbeat (server : Server) : Server * list Action :=
  fold_left beat (map_to_list (clients server)) (server, []).

(** The handlers of [setupConnectionHandler] and the timer. A pong from
    a socket that is gone is not delivered. *)
Definition handle (server : Server) (event : Event) : Server * list Action :=
  match event with
  | Connection client =>
      ({| clients := <[client := true]> (clients server);
          subscriptionManager := subscriptionManager server |}, [])
  | Pong client =>
      match clients server !! client with
      | Some _ =>
          ({| clients := <[client := true]> (clients server);
              subscriptionManager := subscriptionManager server |}, [])
      | None => (server, [])
      end
  | Subscribe client channel =>
      ({| clients := clients server;
          subscriptionManager := subscribe client channel (subscriptionManager server) |}, [])
  | Close client =>
      ({| clients := delete client (clients server);
          subscriptionManager := removeClient client (subscriptionManager server) |}, [])
  | Tick => heartbeat server
  end.

(** One entry of the server's history: an event that arrived or an
    action the heartbeat took. *)
Inductive Entry :=
  | Arrived (event : Event)
  | Did (action : Action).

(** Running a sequence of events from a state; the history lists every
    event followed by the actions it caused. *)
Fixpoint run (server : Server) (events : list Event) : Server * list Entry :=
  match events with
  | [] => (server, [])
  | event :: rest =>
      let '(server', actions) := handle server event in
      let '(final, history) := run server' rest in
      (final, Arrived event :: map Did actions ++ history)
  end.

(** The pings sent to [client] and still unanswered at the end of a
    history: those after its last pong or connection. *)
Fixpoint unansweredPings (client : nat) (history : list Entry) (count : nat) : nat :=
  match history with
  | [] => count
  | Arrived (Pong c) :: rest | Arrived (Connection c) :: rest =>
      unansweredPings client rest (if decide (c = client) then 0%nat else count)
  | Did (Ping c) :: rest =>
      unansweredPings client rest (if decide (c = client) then S count else count)
  | _ :: rest => unansweredPings client rest count
  end.

(** What one firing does to a socket, by its flag. *)
Definition actionOf (socket : nat * bool) : Action :=
  if socket.2 then Ping socket.1 else Terminate socket.1.

(** The flag of a connected socket tells how many pings it has left
    unanswered: none when set, one when cleared. *)
Definition flagsCount (server : Server) (history : list Entry) : Prop :=
  ∀ c, (clients server !! c = Some true → unansweredPings c history 0 = 0%nat) ∧
       (clients server !! c = Some false → unansweredPings c history 0 = 1%nat).

End WebSocketServer.

(** ** The specification's wording of two operations, for comparison *)

Module Reference.

(** Section 4.2: interpret the asset address bytes as a big-endian
    integer, reduce modulo Fr, then [Poseidon([x])], as a decimal string. *)
Definition hashAsset (poseidon : list Z → Z) (assetAddress : string) : string :=
  JS.toString 10 (poseidon [Encoding.beValue (JS.Buffer_from assetAddress) mod F.p]).

(** A string that denotes a coordinate or signal fitting 32 bytes. *)
Definition denotes32 (s : string) (v : Z) : Prop :=
  JS.BigInt s = Some v ∧ 0 ≤ v < 2 ^ 256.

End Reference.

(** ** Sample data *)

Module Examples.

Import Engine.

Definition order (side quantity price timestamp : Z) : PrivateOrder :=
  {| commitment := "1"; trader := "G"; assetAddress := "CUSD"; side := side;
     quantity := quantity; price := price; secret := 11; nonce := 12;
     timestamp := timestamp; expiry := 3600000; whitelistIndex := 0 |}.

Definition ids (k : nat) : string := "00".
Definition clock (k : nat) : Z := 1000.

Definition crossing : Match :=
  {| matchId := "00"; buyOrder := order 0 100 52 1; sellOrder := order 1 100 48 2;
     executionPrice := 50; executionQuantity := 100; matchTimestamp := 1000 |}.

Definition twoSells : DarkPoolMatchingEngine :=
  {| buyOrders := {[ "CUSD"%string := [order 0 100 55 3] ]};
     sellOrders := {[ "CUSD"%string := [order 1 100 50 1; order 1 100 48 2] ]};
     matchQueue := []; completedMatches := [] |}.

Definition betterPrice : Match :=
  {| matchId := "00"; buyOrder := order 0 100 55 3; sellOrder := order 1 100 48 2;
     executionPrice := 51; executionQuantity := 100; matchTimestamp := 1000 |}.

(** A stand-in for Poseidon with least-residue outputs. *)
Definition mix (inputs : list Z) : Z :=
  fold_left (λ acc x, acc * 31 + x + 7) inputs 1 mod F.p.

Definition params : Prover.OrderParams :=
  {| Prover.assetHash := 1; Prover.side := 0; Prover.quantity := 100; Prover.price := 50 |}.

(** All random bytes [0xff]. *)
Definition allOnes (i : nat) : byte := xff.

Definition proof : Prover.Groth16Proof :=
  {| Prover.pi_a := ["1"; "2"; "1"]%string;
     Prover.pi_b := [["3"; "4"]; ["5"; "6"]; ["1"; "0"]]%string;
     Prover.pi_c := ["7"; "8"; "1"]%string |}.

(** [2^260] in decimal. *)
Definition wideSignal : string :=
  "1852673427797059126777135760139006525652319754650249024631321344126610074238976".

(** A command with quantity 0, price 0 and an expiry long past. *)
Definition zeroCommand : OrdersRoute.SubmitOrderRequest :=
  {| OrdersRoute.req_commitment := Some "1"%string;
     OrdersRoute.req_trader := Some "G"%string;
     OrdersRoute.req_assetAddress := Some "CUSD"%string;
     OrdersRoute.req_side := Some 0;
     OrdersRoute.req_quantity := Some "0"%string;
     OrdersRoute.req_price := Some "0"%string;
     OrdersRoute.req_secret := Some "11"%string;
     OrdersRoute.req_nonce := Some "12"%string;
     OrdersRoute.req_expiry := Some 1;
     OrdersRoute.req_whitelistIndex := None |}.

Definition zeroOrder : PrivateOrder :=
  {| commitment := "1"; trader := "G"; assetAddress := "CUSD"; side := 0;
     quantity := 0; price := 0; secret := 11; nonce := 12;
     timestamp := 5000; expiry := 1; whitelistIndex := 0 |}.

End Examples.

(** ** The rest of the proof library, [prover/src/index.ts] *)

Module ProverLib.

Import Prover.

(** [getPathIndices(index, levels)]: the low bit of [k], then [k >> 1n],
    [levels] times. On a bigint [&] and [>>] act on the two's-complement
    form, as [Z.land] and [Z.shiftr] do. *)
Fixpoint getPathIndices (index : Z) (levels : nat) : list Z :=
  match levels with
  | O => []
  | S levels' =>
      JS.Number (Z.land index 1) :: getPathIndices (Z.shiftr index 1) levels'
  end.

(** [interface TradeParams]. *)
Module TradeParams.
Record t := {
  buyerIdHash : string;
  buyerMerkleProof : MerkleProof;
  sellerIdHash : string;
  sellerMerkleProof : MerkleProof;
  buyOrderSecret : Z;
  buyOrderNonce : Z;
  sellOrderSecret : Z;
  sellOrderNonce : Z;
  buyCommitment : string;
  sellCommitment : string;
  assetHash : string;
  matchedQuantity : Z;
  executionPrice : Z;
  whitelistRoot : string
}.
End TradeParams.

(** The [input] object handed to [snarkjs.groth16.fullProve]. *)
Module Input.
Record t := {
  buyerIdHash : string;
  buyerMerkleProof : list string;
  buyerMerkleIndices : list Z;
  sellerIdHash : string;
  sellerMerkleProof : list string;
  sellerMerkleIndices : list Z;
  buyOrderSecret : string;
  buyOrderNonce : string;
  sellOrderSecret : string;
  sellOrderNonce : string;
  buyCommitment : string;
  sellCommitment : string;
  assetHash : string;
  matchedQuantity : string;
  executionPrice : string;
  whitelistRoot : string
}.
End Input.

(** "Prepare circuit input": the bigints are printed in decimal, the
    rest is passed on. *)
Definition circuitInput (params : TradeParams.t) : Input.t :=
  {| Input.buyerIdHash := TradeParams.buyerIdHash params;
     Input.buyerMerkleProof := pathElements (TradeParams.buyerMerkleProof params);
     Input.buyerMerkleIndices := pathIndices (TradeParams.buyerMerkleProof params);
     Input.sellerIdHash := TradeParams.sellerIdHash params;
     Input.sellerMerkleProof := pathElements (TradeParams.sellerMerkleProof params);
     Input.sellerMerkleIndices := pathIndices (TradeParams.sellerMerkleProof params);
     Input.buyOrderSecret := JS.toString 10 (TradeParams.buyOrderSecret params);
     Input.buyOrderNonce := JS.toString 10 (TradeParams.buyOrderNonce params);
     Input.sellOrderSecret := JS.toString 10 (TradeParams.sellOrderSecret params);
     Input.sellOrderNonce := JS.toString 10 (TradeParams.sellOrderNonce params);
     Input.buyCommitment := TradeParams.buyCommitment params;
     Input.sellCommitment := TradeParams.sellCommitment params;
     Input.assetHash := TradeParams.assetHash params;
     Input.matchedQuantity := JS.toString 10 (TradeParams.matchedQuantity params);
     Input.executionPrice := JS.toString 10 (TradeParams.executionPrice params);
     Input.whitelistRoot := TradeParams.whitelistRoot params |}.

(** [interface SettlementProof]. The nullifier is read at index
    [length - 1] of the public signals, which is [undefined] when there
    are none. *)
Record SettlementProof := {
  proof : Groth16Proof;
  publicSignals : list string;
  nullifierHash : option string;
  proofBytes : list byte;
  signalsBytes : list byte
}.

Section Groth16.

(** [snarkjs.groth16.fullProve] with the circuit and key files fixed:
    it throws when the input does not satisfy the circuit. *)
Variable fullProve : Input.t → option (Groth16Proof * list string).

(** [generateSettlementProof(params, wasmPath, zkeyPath)]. *)
Definition generateSettlementProof (params : TradeParams.t) : option SettlementProof :=
  '(proof, publicSignals) ← fullProve (circuitInput params);
  '(proofBytes, signalsBytes) ← convertProofForSoroban proof publicSignals;
  Some {| proof := proof;
          publicSignals := publicSignals;
          nullifierHash := last publicSignals;
          proofBytes := proofBytes;
          signalsBytes := signalsBytes |}.

End Groth16.

End ProverLib.

(** ** The settlement circuit, [circuits/settlement/settlement_proof.circom] *)

Module SettlementCircuit.

(** The input signals of [template SettlementProof(TREE_DEPTH)], as field
    elements. *)
Record Signals := {
  buyerIdHash : Z;
  buyerMerkleProof : list Z;
  buyerMerkleIndices : list Z;
  sellerIdHash : Z;
  sellerMerkleProof : list Z;
  sellerMerkleIndices : list Z;
  buyOrderSecret : Z;
  buyOrderNonce : Z;
  sellOrderSecret : Z;
  sellOrderNonce : Z;
  buyCommitment : Z;
  sellCommitment : Z;
  assetHash : Z;
  matchedQuantity : Z;
  executionPrice : Z;
  whitelistRoot : Z
}.

Section Poseidon.

Variable poseidon : list Z → Z.

(** Step 3: [buyCommitHasher.out === buyCommitment], the hasher fed
    with the asset, side 0, the matched quantity, the execution price,
    the nonce and the secret. *)
Definition buyCommitmentHolds (s : Signals) : bool :=
  poseidon [assetHash s; 0; matchedQuantity s; executionPrice s;
            buyOrderNonce s; buyOrderSecret s] =? buyCommitment s.

(** Step 4: the same with side 1 and the seller's nonce and secret. *)
Definition sellCommitmentHolds (s : Signals) : bool :=
  poseidon [assetHash s; 1; matchedQuantity s; executionPrice s;
            sellOrderNonce s; sellOrderSecret s] =? sellCommitment s.

(** Step 5: the nullifier hasher; the two secrets enter as their sum in
    the field. *)
Definition nullifier (s : Signals) : Z :=
  poseidon [buyCommitment s; sellCommitment s; matchedQuantity s;
            F.e (buyOrderSecret s + sellOrderSecret s)].

(** [template SettlementProof(TREE_DEPTH)]: the output [nullifierHash]
    when the two whitelist verifiers and the two commitment constraints
    hold, no witness otherwise. *)
Definition SettlementProof (TREE_DEPTH : nat) (s : Signals) : option Z :=
  if Circuit.MerkleTreeVerifier poseidon TREE_DEPTH (buyerIdHash s)
       (buyerMerkleProof s) (buyerMerkleIndices s) (whitelistRoot s)
     && Circuit.MerkleTreeVerifier poseidon TREE_DEPTH (sellerIdHash s)
          (sellerMerkleProof s) (sellerMerkleIndices s) (whitelistRoot s)
     && buyCommitmentHolds s
     && sellCommitmentHolds s
  then Some (nullifier s)
  else None.

(** [component main = SettlementProof(20)]. *)
Definition main : Signals → option Z := SettlementProof 20.

End Poseidon.

(** How the witness calculator reads the [input] object: each string
    as the integer it denotes, each number as itself, reduced into the
    field. *)
Definition readInput (input : ProverLib.Input.t) : option Signals :=
  buyerIdHash ← Circuit.signalOfString (ProverLib.Input.buyerIdHash input);
  buyerMerkleProof ← mapM Circuit.signalOfString (ProverLib.Input.buyerMerkleProof input);
  sellerIdHash ← Circuit.signalOfString (ProverLib.Input.sellerIdHash input);
  sellerMerkleProof ← mapM Circuit.signalOfString (ProverLib.Input.sellerMerkleProof input);
  buyOrderSecret ← Circuit.signalOfString (ProverLib.Input.buyOrderSecret input);
  buyOrderNonce ← Circuit.signalOfString (ProverLib.Input.buyOrderNonce input);
  sellOrderSecret ← Circuit.signalOfString (ProverLib.Input.sellOrderSecret input);
  sellOrderNonce ← Circuit.signalOfString (ProverLib.Input.sellOrderNonce input);
  buyCommitment ← Circuit.signalOfString (ProverLib.Input.buyCommitment input);
  sellCommitment ← Circuit.signalOfString (ProverLib.Input.sellCommitment input);
  assetHash ← Circuit.signalOfString (ProverLib.Input.assetHash input);
  matchedQuantity ← Circuit.signalOfString (ProverLib.Input.matchedQuantity input);
  executionPrice ← Circuit.signalOfString (ProverLib.Input.executionPrice input);
  whitelistRoot ← Circuit.signalOfString (ProverLib.Input.whitelistRoot input);
  Some {| buyerIdHash := buyerIdHash;
          buyerMerkleProof := buyerMerkleProof;
          buyerMerkleIndices := map F.e (ProverLib.Input.buyerMerkleIndices input);
          sellerIdHash := sellerIdHash;
          sellerMerkleProof := sellerMerkleProof;
          sellerMerkleIndices := map F.e (ProverLib.Input.sellerMerkleIndices input);
          buyOrderSecret := buyOrderSecret;
          buyOrderNonce := buyOrderNonce;
          sellOrderSecret := sellOrderSecret;
          sellOrderNonce := sellOrderNonce;
          buyCommitment := buyCommitment;
          sellCommitment := sellCommitment;
          assetHash := assetHash;
          matchedQuantity := matchedQuantity;
          executionPrice := executionPrice;
          whitelistRoot := whitelistRoot |}.

(** The public output the circuit computes on the input the prover
    library prepares, if the input satisfies it. *)
Definition witness (poseidon : list Z → Z) (params : ProverLib.TradeParams.t) : option Z :=
  readInput (ProverLib.circuitInput params) ≫= main poseidon.

End SettlementCircuit.

(** ** Queries and settlement of the engine, [matching-engine/src/index.ts] *)

Module EngineSettlement.

Import Engine.

(** [getPendingMatchesCount()]. *)
Definition getPendingMatchesCount (e : DarkPoolMatchingEngine) : nat :=
  length (matchQueue e).

(** The object [getOrderBookState(assetAddress)] returns. *)
Record OrderBookState := {
  buys : nat;
  sells : nat;
  buyQuantities : list string;
  sellQuantities : list string;
  buyPrices : list string;
  sellPrices : list string
}.

(** [getOrderBookState(assetAddress)]. *)
Definition getOrderBookState (assetAddress : string) (e : DarkPoolMatchingEngine)
    : OrderBookState :=
  let buys := default [] (buyOrders e !! assetAddress) in
  let sells := default [] (sellOrders e !! assetAddress) in
  {| buys := length buys;
     sells := length sells;
     buyQuantities := map (λ o, JS.toString 10 (quantity o)) buys;
     sellQuantities := map (λ o, JS.toString 10 (quantity o)) sells;
     buyPrices := map (λ o, JS.toString 10 (price o)) buys;
     sellPrices := map (λ o, JS.toString 10 (price o)) sells |}.

(** [getMatches()]. *)
Definition getMatches (e : DarkPoolMatchingEngine) : list Match := completedMatches e.

(** [getMatchById(matchId)]: [Array.prototype.find], the first match
    of the log with that identifier. *)
Definition getMatchById (id : string) (e : DarkPoolMatchingEngine) : option Match :=
  snd <$> list_find (λ m, matchId m = id) (completedMatches e).

(** [getPendingMatches()]. *)
Definition getPendingMatches (e : DarkPoolMatchingEngine) : list Match := matchQueue e.

(** [interface SettlementResult], without the [error] text: a failure
    carries the message of the exception, which the model does not
    keep. *)
Module SettlementResult.
Record t := {
  matchId : string;
  proof : list byte;
  publicSignals : list byte;
  nullifierHash : string;
  success : bool
}.
End SettlementResult.

(** The two warnings [settleMatch] can print. *)
Inductive Warning :=
  | PriceMismatch
  | QuantityMismatch.

(** The tests that guard them. *)
Definition priceMismatch (m : Match) : bool :=
  negb (price (buyOrder m) =? executionPrice m)
  || negb (price (sellOrder m) =? executionPrice m).

Definition quantityMismatch (m : Match) : bool :=
  negb (quantity (buyOrder m) =? executionQuantity m)
  || negb (quantity (sellOrder m) =? executionQuantity m).

Section Settle.

Variable poseidon : list Z → Z.
Variable fullProve : ProverLib.Input.t → option (Prover.Groth16Proof * list string).

(** The fields [whitelistRoot] and [whitelistProofs] of the engine, as
    [initializeWhitelist] left them. *)
Variable whitelistRoot : string.
Variable whitelistProofs : gmap nat Prover.MerkleProof.

(** [this.whitelistProofs.get(index)]: the keys are the array indices
    [buildWhitelistTree] counted, and [Map.prototype.get] finds nothing
    under a key that is not a number. *)
Definition proofAt (index : WhitelistIndex) : option Prover.MerkleProof :=
  match index with
  | IndexNumber index => if 0 <=? index then whitelistProofs !! Z.to_nat index else None
  | IndexInherited _ => None
  end.

(** The [try] block of [settleMatch], with the warnings it prints on
    its way: a missing Merkle proof and an asset address that cannot be
    hashed throw before the two tests are reached; past them, a failing
    prover and a missing nullifier throw. *)
Definition trySettle (m : Match) : list Warning * option ProverLib.SettlementProof :=
  match proofAt (whitelistIndex (buyOrder m)), proofAt (whitelistIndex (sellOrder m)) with
  | Some buyerProof, Some sellerProof =>
      match hashAssetAddress poseidon (assetAddress (buyOrder m)) with
      | Some assetHash =>
          ((if priceMismatch m then [PriceMismatch] else [])
           ++ (if quantityMismatch m then [QuantityMismatch] else []),
           settlementProof ← ProverLib.generateSettlementProof fullProve
             {| ProverLib.TradeParams.buyerIdHash := Prover.idHash buyerProof;
                ProverLib.TradeParams.buyerMerkleProof := buyerProof;
                ProverLib.TradeParams.sellerIdHash := Prover.idHash sellerProof;
                ProverLib.TradeParams.sellerMerkleProof := sellerProof;
                ProverLib.TradeParams.buyOrderSecret := secret (buyOrder m);
                ProverLib.TradeParams.buyOrderNonce := nonce (buyOrder m);
                ProverLib.TradeParams.sellOrderSecret := secret (sellOrder m);
                ProverLib.TradeParams.sellOrderNonce := nonce (sellOrder m);
                ProverLib.TradeParams.buyCommitment := commitment (buyOrder m);
                ProverLib.TradeParams.sellCommitment := commitment (sellOrder m);
                ProverLib.TradeParams.assetHash := assetHash;
                ProverLib.TradeParams.matchedQuantity := executionQuantity m;
                ProverLib.TradeParams.executionPrice := executionPrice m;
                ProverLib.TradeParams.whitelistRoot := whitelistRoot |};
           _ ← ProverLib.nullifierHash settlementProof;
           Some settlementProof)
      | None => ([], None)
      end
  | _, _ => ([], None)
  end.

(** The warnings a call of [settleMatch(match)] prints. *)
Definition settleMatchWarnings (m : Match) : list Warning := (trySettle m).1.

(** [settleMatch(match)]: the [catch] turns every exception into a
    failed result with empty buffers. *)
Definition settleMatch (m : Match) : SettlementResult.t :=
  match (trySettle m).2 with
  | Some settlementProof =>
      {| SettlementResult.matchId := matchId m;
         SettlementResult.proof := ProverLib.proofBytes settlementProof;
         SettlementResult.publicSignals := ProverLib.signalsBytes settlementProof;
         SettlementResult.nullifierHash :=
           default EmptyString (ProverLib.nullifierHash settlementProof);
         SettlementResult.success := true |}
  | None =>
      {| SettlementResult.matchId := matchId m;
         SettlementResult.proof := [];
         SettlementResult.publicSignals := [];
         SettlementResult.nullifierHash := EmptyString;
         SettlementResult.success := false |}
  end.

(** The loop of [processMatches]: [shift] a match off the queue, settle
    it, [push] the result, until the queue is empty. *)
Fixpoint drain (queue : list Match) (results : list SettlementResult.t)
    : list SettlementResult.t :=
  match queue with
  | [] => results
  | m :: rest => drain rest (results ++ [settleMatch m])
  end.

(** [processMatches()], run to its end with no submission in between. *)
Definition processMatches (e : DarkPoolMatchingEngine)
    : list SettlementResult.t * DarkPoolMatchingEngine :=
  (drain (matchQueue e) [],
   {| buyOrders := buyOrders e;
      sellOrders := sellOrders e;
      matchQueue := [];
      completedMatches := completedMatches e |}).

End Settle.

(** The engine in use, with one call of [processMatches] at a time.
    The engine changes when [submitOrder] runs and at each [shift] of
    the loop of [processMatches], which gives way to other requests
    while a proof is being made; since a settlement does not read the
    books, a turn of the loop is taken here in one step, and the
    results are those of calls that follow one another. Calls that
    overlap keep results of their own; they are the subject of [react]
    below. *)
Inductive Step :=
  | Submitted (order : PrivateOrder)
  | Settled.

Section InUse.

Variable generateMatchId : nat → string.
Variable Date_now : nat → Z.
Variable poseidon : list Z → Z.
Variable fullProve : ProverLib.Input.t → option (Prover.Groth16Proof * list string).
Variable whitelistRoot : string.
Variable whitelistProofs : gmap nat Prover.MerkleProof.

(** One step on the engine and on the results produced so far. A turn
    of the loop on an empty queue is the loop's exit. *)
Definition turn (s : DarkPoolMatchingEngine * list SettlementResult.t) (step : Step)
    : DarkPoolMatchingEngine * list SettlementResult.t :=
  match step with
  | Submitted order => (submitOrder generateMatchId Date_now order s.1, s.2)
  | Settled =>
      match matchQueue s.1 with
      | [] => s
      | m :: rest =>
          ({| buyOrders := buyOrders s.1;
              sellOrders := sellOrders s.1;
              matchQueue := rest;
              completedMatches := completedMatches s.1 |},
           s.2 ++ [settleMatch poseidon fullProve whitelistRoot whitelistProofs m])
      end
  end.

Definition runSteps (steps : list Step)
    : DarkPoolMatchingEngine * list SettlementResult.t :=
  fold_left turn steps (newEngine, []).

(** The orders submitted in a sequence of steps. *)
Definition submitted (steps : list Step) : list PrivateOrder :=
  omap (λ step, match step with Submitted order => Some order | Settled => None end) steps.

End InUse.

(** Calls of [processMatches] that overlap. The loop gives way at
    [await this.settleMatch(match)], between the [shift] and the
    [push]; the submission route starts a call without awaiting it and
    the processing route starts others, so several calls can be in
    flight, each with a [results] array of its own. A call is
    its array and the match it has shifted and whose settlement it
    awaits; a call that awaits none has returned. *)
Record Call := {
  awaited : option Match;
  results : list SettlementResult.t
}.

Inductive Event :=
  | Submit (order : PrivateOrder)   (* [submitOrder(order)] runs *)
  | Invoke                          (* [processMatches()] is called *)
  | Resume (call : nat).            (* the settlement a call awaits resolves *)

(** The matches among [taken] that the call [k] owns, [owners] naming
    the call of each. *)
Definition ownedBy (k : nat) (taken : list Match) (owners : list nat) : list Match :=
  omap (λ p, if decide (p.2 = k) then Some p.1 else None) (zip taken owners).

Section Overlap.

Variable generateMatchId : nat → string.
Variable Date_now : nat → Z.
Variable poseidon : list Z → Z.
Variable fullProve : ProverLib.Input.t → option (Prover.Groth16Proof * list string).
Variable whitelistRoot : string.
Variable whitelistProofs : gmap nat Prover.MerkleProof.

(** The head of the loop: with the queue empty the call returns its
    results; otherwise it shifts the first match and awaits its
    settlement. *)
Definition loopHead (e : DarkPoolMatchingEngine) (results : list SettlementResult.t)
    : DarkPoolMatchingEngine * Call :=
  match matchQueue e with
  | [] => (e, {| awaited := None; results := results |})
  | m :: rest =>
      ({| buyOrders := buyOrders e;
          sellOrders := sellOrders e;
          matchQueue := rest;
          completedMatches := completedMatches e |},
       {| awaited := Some m; results := results |})
  end.

(** One event on the engine and the calls started so far. Resuming a
    call pushes the result of the settlement it awaited and takes the
    loop to its head again. *)
Definition react (s : DarkPoolMatchingEngine * list Call) (event : Event)
    : DarkPoolMatchingEngine * list Call :=
  match event with
  | Submit order => (submitOrder generateMatchId Date_now order s.1, s.2)
  | Invoke =>
      let next := loopHead s.1 [] in
      (next.1, s.2 ++ [next.2])
  | Resume k =>
      match s.2 !! k with
      | Some {| awaited := Some m; results := results |} =>
          let next :=
            loopHead s.1
              (results ++ [settleMatch poseidon fullProve whitelistRoot whitelistProofs m]) in
          (next.1, <[k := next.2]> s.2)
      | _ => s
      end
  end.

Definition runEvents (events : list Event) : DarkPoolMatchingEngine * list Call :=
  fold_left react events (newEngine, []).

End Overlap.

(** An index under which [buildWhitelistTree] stored a proof for [n]
    participants. *)
Definition listed (n : nat) (index : WhitelistIndex) : Prop :=
  match index with
  | IndexNumber index => 0 ≤ index < Z.of_nat n
  | IndexInherited _ => False
  end.

(** [generateMatchId()]: 32 bytes of the system RNG, two hexadecimal
    digits each. *)
Definition generateMatchId (rng : nat → byte) (pos : nat) : string :=
  JS.bytesToHex (map rng (seq pos 32)).

End EngineSettlement.

(** ** The commitment routes, [POST /api/commitment/generate] and
    [POST /api/commitment/hash-asset] *)

Module CommitmentRoute.

(** [interface GenerateCommitmentRequest], read from the JSON body: any
    field may be absent, and a field that is present has the type the
    interface declares, a string or an integer number. *)
Record GenerateCommitmentRequest := {
  req_assetAddress : option string;
  req_side : option Z;
  req_quantity : option string;
  req_price : option string
}.

(** [interface GenerateCommitmentResponse]. *)
Record GenerateCommitmentResponse := {
  commitment : string;
  secret : string;
  nonce : string;
  assetHash : string
}.

(** What a handler answers: a status 400 with its [error] text, a status
    500, or the response object. *)
Inductive Reply (A : Type) :=
  | Status400 (error : string)
  | Status500
  | Status200 (response : A).

Arguments Status400 {A} error.
Arguments Status500 {A}.
Arguments Status200 {A} response.

Section Poseidon.

Variable poseidon : list Z → Z.

(** The handler of [POST /generate]; [rng] is the system RNG from the
    position the two draws start at. *)
Definition postGenerate (rng : nat → byte) (body : GenerateCommitmentRequest)
    : Reply GenerateCommitmentResponse :=
  if OrdersRoute.missing (req_assetAddress body) || bool_decide (req_side body = None)
     || OrdersRoute.missing (req_quantity body) || OrdersRoute.missing (req_price body)
  then Status400 "Missing required fields: assetAddress, side, quantity, price"
  else
    let side := default 0 (req_side body) in
    if negb (side =? 0) && negb (side =? 1)
    then Status400 "Invalid side: must be 0 (Buy) or 1 (Sell)"
    else
      let result :=
        assetHash ← Prover.hashAsset poseidon (default EmptyString (req_assetAddress body));
        assetHashValue ← JS.BigInt assetHash;
        quantity ← JS.BigInt (default EmptyString (req_quantity body));
        price ← JS.BigInt (default EmptyString (req_price body));
        result ← Prover.generateOrderCommitment poseidon rng
                   {| Prover.assetHash := assetHashValue;
                      Prover.side := side;
                      Prover.quantity := quantity;
                      Prover.price := price |};
        Some {| commitment := Prover.commitment result;
                secret := JS.toString 10 (Prover.secret result);
                nonce := JS.toString 10 (Prover.nonce result);
                assetHash := assetHash |} in
      match result with
      | Some response => Status200 response
      | None => Status500
      end.

(** The handler of [POST /hash-asset], on a body whose [assetAddress]
    is absent or a string. *)
Definition postHashAsset (assetAddress : option string) : Reply string :=
  if OrdersRoute.missing assetAddress
  then Status400 "Missing required field: assetAddress"
  else
    match Prover.hashAsset poseidon (default EmptyString assetAddress) with
    | Some assetHash => Status200 assetHash
    | None => Status500
    end.

End Poseidon.

End CommitmentRoute.

(** ** The answer of the order-submission route *)

Module OrdersReply.

Import Engine EngineSettlement.

(** The fields of the 200 response of [POST /api/orders/submit] that
    are computed from the engine after [submitOrder]; of [noMatchReason]
    and [message], whether a reason is given (the text prints numbers as
    floating-point quotients). *)
Record SubmitReply := {
  pendingMatches : nat;
  matched : bool;
  orderBook_buyOrders : nat;
  orderBook_sellOrders : nat;
  noMatchReason : bool
}.

(** The handler from [getPendingMatchesCount()] to [res.json]. The
    processing it starts in between takes matches off the queue only
    after [pendingCount] is read, and [getOrderBookState] does not read
    the queue. *)
Definition submitReply (side : Z) (assetAddress : string)
    (engine : DarkPoolMatchingEngine) : SubmitReply :=
  let pendingCount := getPendingMatchesCount engine in
  let orderBookState := getOrderBookState assetAddress engine in
  let isNewOrderBuy := side =? 0 in
  {| pendingMatches := pendingCount;
     matched := (0 <? pendingCount)%nat;
     orderBook_buyOrders := buys orderBookState;
     orderBook_sellOrders := sells orderBookState;
     noMatchReason :=
       (pendingCount =? 0)%nat
       && (if isNewOrderBuy then (0 <? sells orderBookState)%nat
           else (0 <? buys orderBookState)%nat) |}.

End OrdersReply.

(** ** Engines that hold the same orders up to a rewriting *)

Module Relabel.

Import Engine.

Section Rewriting.

(** A rewriting of orders. *)
Variable g : PrivateOrder → PrivateOrder.

Definition mapMatch (m : Match) : Match :=
  {| matchId := matchId m;
     buyOrder := g (buyOrder m);
     sellOrder := g (sellOrder m);
     executionPrice := executionPrice m;
     executionQuantity := executionQuantity m;
     matchTimestamp := matchTimestamp m |}.

(** The engine with every order it holds, resting or matched,
    rewritten. *)
Definition mapEngine (e : DarkPoolMatchingEngine) : DarkPoolMatchingEngine :=
  {| buyOrders := map g <$> buyOrders e;
     sellOrders := map g <$> sellOrders e;
     matchQueue := map mapMatch (matchQueue e);
     completedMatches := map mapMatch (completedMatches e) |}.

(** The same on the state of the matching loops. *)
Definition mapState (st : LoopState) : LoopState :=
  {| matchedBuys := matchedBuys st;
     matchedSells := matchedSells st;
     queue := map mapMatch (queue st);
     completed := map mapMatch (completed st) |}.

(** The rewriting keeps the side, the asset, the price, the quantity
    and the time stamp of every order; it may change the commitment, the
    trader, the secret, the nonce, the expiry and the whitelist index. *)
Definition keepsTerms : Prop :=
  ∀ o, side (g o) = side o ∧ assetAddress (g o) = assetAddress o ∧
       price (g o) = price o ∧ quantity (g o) = quantity o ∧
       timestamp (g o) = timestamp o.

End Rewriting.

End Relabel.

(** ** More sample data *)

Module Samples.

Import Engine.

(** Two buys rest at 50 and 55; a sell at 48 takes the one at 55. *)
Definition bestBuy : Match :=
  {| matchId := "00"; buyOrder := Examples.order 0 100 55 2;
     sellOrder := Examples.order 1 100 48 3;
     executionPrice := 51; executionQuantity := 100; matchTimestamp := 1000 |}.

(** A whitelist of three participants. *)
Definition members : list string := ["0x01"; "0x02"; "3"]%string.

(** An order of a trader at whitelist index 7. *)
Definition outsider (side quantity price timestamp : Z) : PrivateOrder :=
  {| commitment := "1"; trader := "H"; assetAddress := "CUSD"; side := side;
     quantity := quantity; price := price; secret := 11; nonce := 12;
     timestamp := timestamp; expiry := 3600000; whitelistIndex := 7 |}.

Definition outsiderMatch : Match :=
  {| matchId := "00"; buyOrder := outsider 0 100 52 1;
     sellOrder := Examples.order 1 100 48 2;
     executionPrice := 50; executionQuantity := 100; matchTimestamp := 1000 |}.

(** Two sells tie at 48 and time 2, the one of trader H first in the
    book; a buy at 52 takes that one. *)
Definition firstOfTie : Match :=
  {| matchId := "00"; buyOrder := Examples.order 0 100 52 3;
     sellOrder := outsider 1 100 48 2;
     executionPrice := 50; executionQuantity := 100; matchTimestamp := 1000 |}.

(** A table of Merkle proofs with one entry, under index 0. *)
Definition oneProof : gmap nat Prover.MerkleProof :=
  {[ 0%nat := {| Prover.idHash := "1"; Prover.pathElements := [];
                 Prover.pathIndices := [] |} ]}.

(** A prover that always fails. *)
Definition noProver (input : ProverLib.Input.t)
    : option (Prover.Groth16Proof * list string) := None.

(** The order with its trader, expiry and whitelist index blanked. *)
Definition anonymous (o : PrivateOrder) : PrivateOrder :=
  {| commitment := commitment o; trader := EmptyString;
     assetAddress := assetAddress o; side := side o;
     quantity := quantity o; price := price o; secret := secret o; nonce := nonce o;
     timestamp := timestamp o; expiry := 0; whitelistIndex := 0 |}.

(** A command for a buy commitment. *)
Definition buyCommand : CommitmentRoute.GenerateCommitmentRequest :=
  {| CommitmentRoute.req_assetAddress := Some "CUSD"%string;
     CommitmentRoute.req_side := Some 0;
     CommitmentRoute.req_quantity := Some "100"%string;
     CommitmentRoute.req_price := Some "50"%string |}.

End Samples.

(** * The matcher *)

Section EngineFacts.

Import Engine Examples.

Section SortFacts.
Context {A : Type} (cmp : A → A → Z).

Lemma insertBy_perm (x : A) (l : list A) : JS.insertBy cmp x l ≡ₚ x :: l.
Proof.
  induction l as [|y l IH]; simpl; [done|].
  destruct (cmp x y <=? 0); [done|].
  rewrite IH. apply Permutation_swap.
Qed.

Lemma Array_sort_perm (l : list A) : JS.Array_sort cmp l ≡ₚ l.
Proof.
  induction l as [|x l IH]; simpl; [done|].
  rewrite insertBy_perm. by rewrite IH.
Qed.

(** A comparator that is total and transitive sorts. *)

Hypothesis cmp_total : ∀ a b, JS.before cmp a b ∨ JS.before cmp b a.
Hypothesis cmp_trans : ∀ a b c, JS.before cmp a b → JS.before cmp b c → JS.before cmp a c.

Lemma insertBy_sorted (x : A) (l : list A) :
  StronglySorted (JS.before cmp) l → StronglySorted (JS.before cmp) (JS.insertBy cmp x l).
Proof.
  induction 1 as [|y l Hs IH Hy]; simpl.
  - repeat constructor.
  - destruct (Z.leb_spec (cmp x y) 0) as [Hle|Hgt].
    + constructor; [by constructor|].
      constructor; [done|].
      eapply Forall_impl; [exact Hy|]. intros z Hz. by eapply cmp_trans.
    + constructor; [done|].
      rewrite insertBy_perm. constructor; [|done].
      destruct (cmp_total x y) as [H|H]; [unfold JS.before in H; lia|done].
Qed.

Lemma Array_sort_sorted (l : list A) :
  StronglySorted (JS.before cmp) (JS.Array_sort cmp l).
Proof.
  induction l as [|x l IH]; simpl; [constructor|]. by apply insertBy_sorted.
Qed.

(** The sort is stable: the elements that compare equal to a given one
    keep the order they had. *)
Lemma insertBy_stable (same : A → bool) (x : A) (l : list A) :
  (∀ y, same x = true → same y = true → JS.before cmp x y) →
  filter (λ y, same y = true) (JS.insertBy cmp x l)
  = filter (λ y, same y = true) (x :: l).
Proof.
  intros Hclass. induction l as [|y l IH]; simpl; [done|].
  destruct (Z.leb_spec (cmp x y) 0) as [Hle|Hgt]; [done|].
  rewrite filter_cons, IH, !filter_cons.
  destruct (decide (same y = true)) as [Hy|Hy]; [|done].
  destruct (decide (same x = true)) as [Hx|Hx]; [|done].
  specialize (Hclass y Hx Hy). unfold JS.before in Hclass. lia.
Qed.

Lemma Array_sort_stable (pivot : A) (l : list A) :
  let same y := (cmp pivot y <=? 0) && (cmp y pivot <=? 0) in
  filter (λ y, same y = true) (JS.Array_sort cmp l) = filter (λ y, same y = true) l.
Proof.
  intros same. induction l as [|x l IH]; simpl; [done|].
  rewrite insertBy_stable, !filter_cons, IH; [done|].
  intros y [Hx1 Hx2]%andb_true_iff [Hy1 Hy2]%andb_true_iff.
  apply Z.leb_le in Hx1, Hx2, Hy1, Hy2. by apply (cmp_trans x pivot y).
Qed.

End SortFacts.

(** The elements of an array whose index is not in a set. *)

Section FilterIndex.
Context {A : Type}.
Implicit Types (l : list A) (f g : nat → bool).

Lemma filterIndex_ext f g i l :
  (∀ k, (i ≤ k)%nat → f k = g k) → JS.filterIndex f i l = JS.filterIndex g i l.
Proof.
  revert i. induction l as [|x l IH]; intros i Hfg; simpl; [done|].
  rewrite (Hfg i) by lia. rewrite (IH (S i)); [done|]. intros k ?. apply Hfg. lia.
Qed.

Lemma filterIndex_all i l : JS.filterIndex (λ _, true) i l = l.
Proof. revert i. induction l as [|x l IH]; intros i; simpl; [done|]. by rewrite IH. Qed.

Lemma filterIndex_elem f i l x :
  x ∈ JS.filterIndex f i l → ∃ j, l !! j = Some x ∧ f (i + j)%nat = true.
Proof.
  revert i. induction l as [|y l IH]; intros i; simpl; [by intros ?%elem_of_nil|].
  destruct (f i) eqn:Hf.
  - intros [->|Hin]%elem_of_cons.
    + exists 0%nat. by rewrite Nat.add_0_r.
    + destruct (IH _ Hin) as (j & ? & ?). exists (S j).
      split; [done|]. by replace (i + S j)%nat with (S i + j)%nat by lia.
  - intros Hin. destruct (IH _ Hin) as (j & ? & ?). exists (S j).
    split; [done|]. by replace (i + S j)%nat with (S i + j)%nat by lia.
Qed.

Lemma filterIndex_claim (C : gset nat) i j l x :
  l !! j = Some x → (i + j)%nat ∉ C →
  JS.filterIndex (notClaimed C) i l ≡ₚ x :: JS.filterIndex (notClaimed ({[(i + j)%nat]} ∪ C)) i l.
Proof.
  revert i j. induction l as [|y l IH]; intros i j Hj Hnot; [done|].
  destruct j as [|j]; simpl in *.
  - injection Hj as ->. rewrite Nat.add_0_r in *.
    assert (notClaimed C i = true) as -> by (by apply bool_decide_eq_true_2).
    assert (notClaimed ({[i]} ∪ C) i = false) as ->.
    { apply bool_decide_eq_false_2. intros H. by apply H, elem_of_union_l, elem_of_singleton. }
    f_equiv. rewrite (filterIndex_ext (notClaimed C) (notClaimed ({[i]} ∪ C))); [done|].
    intros k Hk. apply bool_decide_ext.
    rewrite not_elem_of_union, not_elem_of_singleton. intuition lia.
  - replace (i + S j)%nat with (S i + j)%nat in * by lia.
    specialize (IH (S i) j Hj Hnot).
    assert (notClaimed ({[(S i + j)%nat]} ∪ C) i = notClaimed C i) as ->.
    { apply bool_decide_ext.
      rewrite not_elem_of_union, not_elem_of_singleton. intuition lia. }
    destruct (notClaimed C i).
    + rewrite IH. apply Permutation_swap.
    + done.
Qed.

End FilterIndex.

Section Matcher.
Variable generateMatchId : nat → string.
Variable Date_now : nat → Z.

(** What the inner loop returns: the first sell, from [j] on, that is
    unclaimed, priced at or below the buy and of the buy's quantity. *)
Lemma findSell_spec buy claimed j sells k s :
  findSell buy claimed j sells = Some (k, s) →
  ∃ n, k = (j + n)%nat ∧ sells !! n = Some s ∧ (k ∉ claimed) ∧
       price s ≤ price buy ∧ quantity buy = quantity s ∧
       ∀ n' s', (n' < n)%nat → sells !! n' = Some s' →
         (j + n')%nat ∈ claimed ∨ price buy < price s' ∨ quantity buy ≠ quantity s'.
Proof.
  revert j. induction sells as [|x sells IH]; intros j; simpl; [done|].
  assert (j ∈ claimed ∨ price buy < price x ∨ quantity buy ≠ quantity x →
          findSell buy claimed (S j) sells = Some (k, s) →
          ∃ n, k = (j + n)%nat ∧ (x :: sells) !! n = Some s ∧ (k ∉ claimed) ∧
            price s ≤ price buy ∧ quantity buy = quantity s ∧
            ∀ n' s', (n' < n)%nat → (x :: sells) !! n' = Some s' →
              (j + n')%nat ∈ claimed ∨ price buy < price s' ∨ quantity buy ≠ quantity s')
    as Hskip.
  { intros Hx Hrec. destruct (IH _ Hrec) as (n & -> & Hn & ? & ? & ? & Hbefore).
    exists (S n). split; [lia|]. split; [done|]. split; [done|].
    split; [done|]. split; [done|].
    intros [|n'] s' Hlt Hs'; simpl in Hs'.
    - injection Hs' as <-. by rewrite Nat.add_0_r.
    - replace (j + S n')%nat with (S j + n')%nat by lia. apply Hbefore; [lia|done]. }
  destruct (decide (j ∈ claimed)) as [Hin|Hnotin]; [by auto|].
  destruct (Z.ltb_spec (price buy) (price x)); [by auto|].
  destruct (Z.eqb_spec (quantity buy) (quantity x)); simpl; [|by auto].
  intros [= <- <-]. exists 0%nat. rewrite Nat.add_0_r.
  repeat split; try done. intros n' s' Hlt. lia.
Qed.

(** The outer loop, from any state in which the claimed buys lie below
    the entry index: the matches it appends, what they consume on either
    side, and how each was found. *)
Lemma matchLoop_spec sells buys : ∀ i st,
  (∀ k, k ∈ matchedBuys st → (k < i)%nat) →
  let st' := matchLoop generateMatchId Date_now sells i buys st in
  ∃ new,
    completed st' = completed st ++ new ∧
    queue st' = queue st ++ new ∧
    (∀ k, k ∈ matchedBuys st → k ∈ matchedBuys st') ∧
    (∀ k, k ∈ matchedBuys st' → k ∈ matchedBuys st ∨ (i ≤ k)%nat) ∧
    buys ≡ₚ map buyOrder new ++ JS.filterIndex (notClaimed (matchedBuys st')) i buys ∧
    JS.filterIndex (notClaimed (matchedSells st)) 0 sells
      ≡ₚ map sellOrder new ++ JS.filterIndex (notClaimed (matchedSells st')) 0 sells ∧
    ∀ pre m post, new = pre ++ m :: post →
      ∃ claimed j,
        JS.filterIndex (notClaimed (matchedSells st)) 0 sells
          ≡ₚ map sellOrder pre ++ JS.filterIndex (notClaimed claimed) 0 sells ∧
        findSell (buyOrder m) claimed 0 sells = Some (j, sellOrder m) ∧
        executionPrice m = Z.quot (price (buyOrder m) + price (sellOrder m)) 2 ∧
        executionQuantity m = quantity (buyOrder m).
Proof.
  induction buys as [|b buys IH]; intros i st Hbelow; simpl.
  { exists []. rewrite !app_nil_r. repeat split; try done; [by left|].
    intros pre m post Hnew. by destruct pre. }
  destruct (decide (i ∈ matchedBuys st)) as [Hin|Hnotin].
  { apply Hbelow in Hin. lia. }
  destruct (findSell b (matchedSells st) 0 sells) as [[j s]|] eqn:Hfind; cycle 1.
  { (* no sell for this buy: it stays *)
    destruct (IH (S i) st) as (new & Hc & Hq & Hmono & Hnew & Hb & Hs & Hfound).
    { intros k Hk. apply Hbelow in Hk. lia. }
    exists new. repeat split; try done.
    - intros k Hk. destruct (Hnew k Hk); [by left|right; lia].
    - assert (notClaimed (matchedBuys
        (matchLoop generateMatchId Date_now sells (S i) buys st)) i = true) as ->.
      { apply bool_decide_eq_true_2. intros Hk.
        destruct (Hnew i Hk) as [?|?]; [done|lia]. }
      rewrite Hb at 1. by rewrite Permutation_middle. }
  (* a sell is claimed for this buy *)
  set (m0 := makeMatch generateMatchId Date_now (length (completed st)) b s).
  set (st1 := {| matchedBuys := {[i]} ∪ matchedBuys st;
                 matchedSells := {[j]} ∪ matchedSells st;
                 queue := queue st ++ [m0];
                 completed := completed st ++ [m0] |}).
  destruct (IH (S i) st1) as (new & Hc & Hq & Hmono & Hnew & Hb & Hs & Hfound).
  { intros k [->%elem_of_singleton|Hk]%elem_of_union; [lia|].
    apply Hbelow in Hk. lia. }
  destruct (findSell_spec _ _ _ _ _ _ Hfind) as (n & -> & Hn & Hfree & _).
  exists (m0 :: new). simpl in *.
  split; [by rewrite Hc, <- app_assoc|].
  split; [by rewrite Hq, <- app_assoc|].
  split; [intros k Hk; by apply Hmono, elem_of_union_r|].
  split.
  { intros k Hk. destruct (Hnew k Hk) as [[->%elem_of_singleton|?]%elem_of_union|?];
      [right; lia|by left|right; lia]. }
  split.
  { assert (notClaimed (matchedBuys
        (matchLoop generateMatchId Date_now sells (S i) buys st1)) i = false) as ->.
    { apply bool_decide_eq_false_2. intros Hk. apply Hk, Hmono.
      by apply elem_of_union_l, elem_of_singleton. }
    by f_equiv. }
  split.
  { rewrite (filterIndex_claim _ 0 n sells s Hn Hfree). by f_equiv. }
  intros pre m post Hsplit. destruct pre as [|m1 pre]; simpl in Hsplit.
  - injection Hsplit as <- _. exists (matchedSells st), n. by simpl.
  - injection Hsplit as <- Hsplit.
    destruct (Hfound pre m post Hsplit) as (claimed & j & Hperm & ? & ? & ?).
    exists claimed, j. split; [|done]. simpl.
    rewrite (filterIndex_claim _ 0 n sells s Hn Hfree). by f_equiv.
Qed.

End Matcher.

Section Books.
Implicit Types (book : gmap string (list PrivateOrder)).

Lemma bookOrders_lookup book asset orders :
  book !! asset = Some orders →
  bookOrders book ≡ₚ orders ++ bookOrders (delete asset book).
Proof.
  intros Hlk. unfold bookOrders.
  by rewrite <- (map_to_list_delete book asset orders Hlk).
Qed.

Lemma bookOrders_insert_fresh book asset orders :
  book !! asset = None →
  bookOrders (<[asset := orders]> book) ≡ₚ orders ++ bookOrders book.
Proof.
  intros Hlk. unfold bookOrders. by rewrite (map_to_list_insert book asset orders Hlk).
Qed.

Lemma bookOrders_insert book asset orders :
  bookOrders (<[asset := orders]> book) ≡ₚ orders ++ bookOrders (delete asset book).
Proof.
  rewrite <- insert_delete_eq. apply bookOrders_insert_fresh, lookup_delete_eq.
Qed.

Lemma bookOrders_default book asset :
  bookOrders book ≡ₚ default [] (book !! asset) ++ bookOrders (delete asset book).
Proof.
  destruct (book !! asset) as [orders|] eqn:Hlk; simpl.
  - by apply bookOrders_lookup.
  - by rewrite delete_id.
Qed.

Lemma bookOrders_push order book :
  bookOrders (pushOrder order book) ≡ₚ order :: bookOrders book.
Proof.
  unfold pushOrder. rewrite bookOrders_insert.
  rewrite (bookOrders_default book (assetAddress order)).
  rewrite <- app_assoc. simpl. by rewrite <- Permutation_middle.
Qed.

Lemma matchedOrders_app ms new :
  matchedOrders (ms ++ new) = matchedOrders ms ++ matchedOrders new.
Proof. unfold matchedOrders. apply flat_map_app. Qed.

Lemma matchedOrders_sides new :
  matchedOrders new ≡ₚ map buyOrder new ++ map sellOrder new.
Proof.
  induction new as [|m new IH]; simpl; [done|].
  rewrite IH. f_equiv. by rewrite Permutation_middle.
Qed.

End Books.

Section Pass.
Variable generateMatchId : nat → string.
Variable Date_now : nat → Z.

(** One pass of [matchOrders] on any engine state. *)
Lemma matchOrders_spec asset e :
  let e' := matchOrders generateMatchId Date_now asset e in
  let sells := JS.Array_sort compareSells (restingSells asset e) in
  ∃ new,
    completedMatches e' = completedMatches e ++ new ∧
    matchQueue e' = matchQueue e ++ new ∧
    bookOrders (buyOrders e) ≡ₚ map buyOrder new ++ bookOrders (buyOrders e') ∧
    bookOrders (sellOrders e) ≡ₚ map sellOrder new ++ bookOrders (sellOrders e') ∧
    ∀ pre m post, new = pre ++ m :: post →
      ∃ claimed j,
        sells ≡ₚ map sellOrder pre ++ JS.filterIndex (notClaimed claimed) 0 sells ∧
        findSell (buyOrder m) claimed 0 sells = Some (j, sellOrder m) ∧
        executionPrice m = Z.quot (price (buyOrder m) + price (sellOrder m)) 2 ∧
        executionQuantity m = quantity (buyOrder m).
Proof.
  unfold matchOrders, restingSells.
  destruct ((length (default [] (buyOrders e !! asset)) =? 0)%nat
            || (length (default [] (sellOrders e !! asset)) =? 0)%nat) eqn:Hempty.
  { exists []. rewrite !app_nil_r. repeat split; try done.
    intros pre m post Hnew. by destruct pre. }
  set (buys := JS.Array_sort compareBuys (default [] (buyOrders e !! asset))).
  set (sells := JS.Array_sort compareSells (default [] (sellOrders e !! asset))).
  set (st0 := {| matchedBuys := ∅; matchedSells := ∅;
                 queue := matchQueue e; completed := completedMatches e |}).
  destruct (matchLoop_spec generateMatchId Date_now sells buys 0 st0)
    as (new & Hc & Hq & _ & _ & Hb & Hs & Hfound).
  { intros k Hk. by apply elem_of_empty in Hk. }
  assert (Hall : ∀ (l : list PrivateOrder),
             JS.filterIndex (notClaimed ∅) 0 l = l).
  { intros l. rewrite <- (filterIndex_all 0 l) at 2. apply filterIndex_ext.
    intros k _. apply bool_decide_eq_true_2, not_elem_of_empty. }
  simpl in Hs, Hfound. rewrite Hall in Hs.
  exists new. simpl. split; [done|]. split; [done|].
  split.
  { rewrite bookOrders_insert, (bookOrders_default (buyOrders e) asset).
    rewrite app_assoc. f_equiv.
    rewrite <- Hb. symmetry. apply Array_sort_perm. }
  split.
  { rewrite bookOrders_insert, (bookOrders_default (sellOrders e) asset).
    rewrite app_assoc. f_equiv.
    rewrite <- Hs. symmetry. apply Array_sort_perm. }
  intros pre m post Hnew.
  destruct (Hfound pre m post Hnew) as (claimed & j & Hperm & ?).
  exists claimed, j. split; [|done]. by rewrite <- Hperm, Hall.
Qed.

(** A submission: the order joins the books, then one pass runs. *)
Lemma submitOrder_spec order e :
  let e' := submitOrder generateMatchId Date_now order e in
  ∃ new,
    completedMatches e' = completedMatches e ++ new ∧
    order :: restingOrders e ≡ₚ matchedOrders new ++ restingOrders e' ∧
    ∀ m, m ∈ new →
      quantity (buyOrder m) = quantity (sellOrder m) ∧
      price (sellOrder m) ≤ price (buyOrder m) ∧
      executionPrice m = Z.quot (price (buyOrder m) + price (sellOrder m)) 2 ∧
      executionQuantity m = quantity (buyOrder m).
Proof.
  unfold submitOrder.
  set (e1 := if side order =? OrderSide_Buy then _ else _).
  destruct (matchOrders_spec (assetAddress order) e1)
    as (new & Hc & _ & Hb & Hs & Hfound).
  assert (He1 : completedMatches e1 = completedMatches e ∧
                order :: restingOrders e ≡ₚ restingOrders e1).
  { unfold e1, restingOrders. destruct (side order =? OrderSide_Buy); simpl.
    - split; [done|]. by rewrite bookOrders_push.
    - split; [done|]. rewrite bookOrders_push. by rewrite Permutation_middle. }
  destruct He1 as [He1c He1r].
  exists new. split; [by rewrite Hc, He1c|]. split.
  - rewrite He1r. unfold restingOrders. rewrite Hb, Hs, matchedOrders_sides.
    rewrite <- !app_assoc. f_equiv.
    rewrite !app_assoc. f_equiv. apply Permutation_app_comm.
  - intros m [pre [post ->]]%list_elem_of_split.
    destruct (Hfound pre m post eq_refl) as (claimed & j & _ & Hfind & Hp & Hq).
    destruct (findSell_spec _ _ _ _ _ _ Hfind) as (n & _ & _ & _ & ? & ? & _).
    done.
Qed.

Lemma submitAll_snoc orders order :
  submitAll generateMatchId Date_now (orders ++ [order])
  = submitOrder generateMatchId Date_now order (submitAll generateMatchId Date_now orders).
Proof. unfold submitAll. by rewrite fold_left_app. Qed.

End Pass.

Lemma filterIndex_elem_of {A} (f : nat → bool) i (l : list A) j x :
  l !! j = Some x → f (i + j)%nat = true → x ∈ JS.filterIndex f i l.
Proof.
  revert i j. induction l as [|y l IH]; intros i j Hj Hf; [done|].
  destruct j as [|j]; simpl in *.
  - injection Hj as ->. rewrite Nat.add_0_r in Hf. rewrite Hf. apply list_elem_of_here.
  - replace (i + S j)%nat with (S i + j)%nat in Hf by lia.
    specialize (IH (S i) j Hj Hf). destruct (f i); [by apply list_elem_of_further|done].
Qed.

Lemma StronglySorted_lookup_lt {A} (R : A → A → Prop) (l : list A) i j a b :
  StronglySorted R l → l !! i = Some a → l !! j = Some b → (i < j)%nat → R a b.
Proof.
  intros Hs. revert i j. induction Hs as [|x l Hs IH Hx]; intros i j Hi Hj Hlt; [done|].
  destruct j as [|j]; [lia|]. destruct i as [|i]; simpl in *.
  - injection Hi as ->. rewrite Forall_forall in Hx. apply Hx.
    by eapply list_elem_of_lookup_2.
  - eapply IH; [done..|lia].
Qed.

(** The sell comparator orders by price, then by time. *)
Lemma compareSells_before a b :
  JS.before compareSells a b ↔
  price a < price b ∨ (price a = price b ∧ timestamp a ≤ timestamp b).
Proof.
  unfold JS.before, compareSells, JS.Number.
  destruct (Z.eqb_spec (price a) (price b)); simpl; lia.
Qed.

Lemma compareSells_total a b : JS.before compareSells a b ∨ JS.before compareSells b a.
Proof. rewrite !compareSells_before. lia. Qed.

Lemma compareSells_trans a b c :
  JS.before compareSells a b → JS.before compareSells b c → JS.before compareSells a c.
Proof. rewrite !compareSells_before. lia. Qed.

Lemma sells_sorted (l : list PrivateOrder) :
  StronglySorted (JS.before compareSells) (JS.Array_sort compareSells l).
Proof. apply Array_sort_sorted; [apply compareSells_total|apply compareSells_trans]. Qed.

Section Claims.
Variable generateMatchId : nat → string.
Variable Date_now : nat → Z.

(** C1 (as amended). Every match in the engine's log, after any sequence
    of submissions, pairs a buy and a sell of equal quantity with the buy
    priced at or above the sell; its execution price is the quotient of
    the sum of the two prices by 2 rounded toward zero, which is the
    floor whenever that sum is not negative; its execution quantity is
    the buy's quantity. *)
Theorem matching_exactness (orders : list PrivateOrder) (m : Match) :
  m ∈ completedMatches (submitAll generateMatchId Date_now orders) →
  quantity (buyOrder m) = quantity (sellOrder m) ∧
  price (buyOrder m) >= price (sellOrder m) ∧
  executionPrice m = Z.quot (price (buyOrder m) + price (sellOrder m)) 2 ∧
  (0 ≤ price (buyOrder m) + price (sellOrder m) →
   executionPrice m = (price (buyOrder m) + price (sellOrder m)) `div` 2) ∧
  executionQuantity m = quantity (buyOrder m).
Proof.
  revert m. induction orders as [|order orders IH] using rev_ind; intros m.
  { by intros ?%elem_of_nil. }
  rewrite submitAll_snoc.
  destruct (submitOrder_spec generateMatchId Date_now order
              (submitAll generateMatchId Date_now orders)) as (new & -> & _ & Hnew).
  intros [Hold|Hin]%elem_of_app; [by apply IH|].
  destruct (Hnew m Hin) as (Hq & Hp & Hx & Hxq).
  repeat split; try done; [lia|].
  intros Hpos. rewrite Hx. by apply Z.quot_div_nonneg.
Qed.

(** C2. After any sequence of submissions the submitted orders are,
    occurrence for occurrence, the orders resting in the books together
    with the orders bound in the emitted matches: no submission is
    consumed by two matches, and none that a match consumed still rests
    in a book. When the submissions are pairwise distinct, so are the
    orders of all emitted matches. *)
Theorem no_double_spend (orders : list PrivateOrder) :
  let e := submitAll generateMatchId Date_now orders in
  orders ≡ₚ restingOrders e ++ matchedOrders (completedMatches e) ∧
  (NoDup orders →
   NoDup (matchedOrders (completedMatches e)) ∧
   ∀ o, o ∈ matchedOrders (completedMatches e) → o ∉ restingOrders e).
Proof.
  assert (Hperm : orders ≡ₚ
    restingOrders (submitAll generateMatchId Date_now orders) ++
    matchedOrders (completedMatches (submitAll generateMatchId Date_now orders))).
  { induction orders as [|order orders IH] using rev_ind; [done|].
    rewrite submitAll_snoc.
    destruct (submitOrder_spec generateMatchId Date_now order
                (submitAll generateMatchId Date_now orders)) as (new & -> & Hr & _).
    rewrite matchedOrders_app, <- Permutation_cons_append, IH at 1.
    rewrite app_comm_cons, Hr.
    rewrite <- !app_assoc. rewrite (Permutation_app_comm (matchedOrders new)).
    by rewrite <- !app_assoc. }
  simpl. split; [done|]. intros Hnd.
  rewrite Hperm in Hnd. apply NoDup_app in Hnd as (_ & Hdisj & Hm).
  split; [done|]. intros o Ho Hrest. by eapply Hdisj.
Qed.

(** C3. In any pass of [matchOrders], take a match it emits and the
    sells of the asset left unclaimed by the matches emitted before it
    in the pass. The sell of the match is one of them and is eligible
    for the buy: priced at or below the buy, with the buy's quantity.
    Every one of them that is eligible for the buy has a price at least
    that of the chosen sell and, at the same price, a time stamp at
    least that of the chosen sell. *)
Theorem matching_priority (asset : string) (e : DarkPoolMatchingEngine)
    (pre post : list Match) (m : Match) (rest : list PrivateOrder) :
  completedMatches (matchOrders generateMatchId Date_now asset e)
    = completedMatches e ++ pre ++ m :: post →
  restingSells asset e ≡ₚ map sellOrder pre ++ rest →
  sellOrder m ∈ rest ∧
  price (sellOrder m) ≤ price (buyOrder m) ∧
  quantity (sellOrder m) = quantity (buyOrder m) ∧
  ∀ s, s ∈ rest →
    price s ≤ price (buyOrder m) → quantity s = quantity (buyOrder m) →
    price (sellOrder m) ≤ price s ∧
    (price (sellOrder m) = price s → timestamp (sellOrder m) ≤ timestamp s).
Proof.
  intros Hlog Hrest.
  destruct (matchOrders_spec generateMatchId Date_now asset e)
    as (new & Hc & _ & _ & _ & Hfound).
  rewrite Hc in Hlog. apply app_inv_head in Hlog.
  destruct (Hfound pre m post Hlog) as (claimed & j & Hperm & Hfind & _).
  set (sells := JS.Array_sort compareSells (restingSells asset e)) in *.
  assert (Hunclaimed : rest ≡ₚ JS.filterIndex (notClaimed claimed) 0 sells).
  { apply (Permutation_app_inv_l (map sellOrder pre)).
    rewrite <- Hrest, <- Hperm. symmetry. apply Array_sort_perm. }
  destruct (findSell_spec _ _ _ _ _ _ Hfind) as (n & -> & Hn & Hfree & Hfits & Hsame & Hfirst).
  simpl in *. split.
  { rewrite Hunclaimed. eapply filterIndex_elem_of; [done|].
    by apply bool_decide_eq_true_2. }
  split; [exact Hfits|]. split; [by symmetry|].
  intros s Hs Hprice Hqty. rewrite Hunclaimed in Hs.
  apply filterIndex_elem in Hs as (k & Hk & Hkfree). simpl in Hkfree.
  apply bool_decide_eq_true_1 in Hkfree.
  assert (Hle : JS.before compareSells (sellOrder m) s).
  { destruct (Nat.lt_trichotomy k n) as [Hlt|[->|Hgt]].
    - destruct (Hfirst k s Hlt Hk) as [?|[?|?]]; [done|lia|congruence].
    - rewrite Hn in Hk. injection Hk as <-. apply compareSells_before. lia.
    - eapply StronglySorted_lookup_lt; [apply sells_sorted|done..]. }
  apply compareSells_before in Hle. lia.
Qed.

End Claims.

Lemma matching_exactness_witness :
  crossing ∈ completedMatches (submitAll ids clock [order 0 100 52 1; order 1 100 48 2]) ∧
  executionPrice crossing = 50.
Proof.
  assert (Hin : crossing ∈ completedMatches
                  (submitAll ids clock [order 0 100 52 1; order 1 100 48 2])).
  { vm_compute. apply list_elem_of_here. }
  split; [exact Hin|].
  destruct (matching_exactness ids clock _ _ Hin) as (_ & _ & _ & Hfloor & _).
  rewrite Hfloor; [reflexivity|vm_compute; discriminate].
Defined.

(** At negative prices the execution price is not the floor of the
    midpoint: a buy at -1 and a sell at -2 execute at -1, the floor of
    -3/2 being -2. *)
Lemma matching_exactness_floor_counterexample :
  ∃ m, m ∈ completedMatches (submitAll ids clock [order 0 5 (-1) 1; order 1 5 (-2) 2]) ∧
       price (buyOrder m) = -1 ∧ price (sellOrder m) = -2 ∧
       executionPrice m = -1 ∧
       executionPrice m ≠ (price (buyOrder m) + price (sellOrder m)) `div` 2.
Proof.
  eexists. split; [vm_compute; apply list_elem_of_here|]. by vm_compute.
Qed.

Lemma no_double_spend_witness :
  NoDup [order 0 100 52 1; order 1 100 48 2; order 1 100 47 3] ∧
  NoDup (matchedOrders (completedMatches
    (submitAll ids clock [order 0 100 52 1; order 1 100 48 2; order 1 100 47 3]))).
Proof.
  assert (Hnd : NoDup [order 0 100 52 1; order 1 100 48 2; order 1 100 47 3]).
  { repeat constructor; rewrite ?elem_of_cons, ?elem_of_nil; intuition discriminate. }
  split; [exact Hnd|].
  exact (proj1 (proj2 (no_double_spend ids clock _) Hnd)).
Defined.

Lemma matching_priority_witness :
  completedMatches (matchOrders ids clock "CUSD" twoSells)
    = completedMatches twoSells ++ [] ++ betterPrice :: [] ∧
  restingSells "CUSD" twoSells ≡ₚ map sellOrder [] ++ [order 1 100 50 1; order 1 100 48 2] ∧
  price (sellOrder betterPrice) ≤ price (order 1 100 50 1).
Proof.
  assert (H1 : completedMatches (matchOrders ids clock "CUSD" twoSells)
                = completedMatches twoSells ++ [] ++ betterPrice :: []).
  { vm_compute. reflexivity. }
  assert (H2 : restingSells "CUSD" twoSells
                 ≡ₚ map sellOrder [] ++ [order 1 100 50 1; order 1 100 48 2]).
  { vm_compute. reflexivity. }
  split; [exact H1|]. split; [exact H2|].
  destruct (matching_priority ids clock _ _ _ _ _ _ H1 H2) as (_ & _ & _ & Hmin).
  apply (Hmin (order 1 100 50 1)).
  - apply list_elem_of_here.
  - vm_compute. discriminate.
  - reflexivity.
Defined.

(** The scenarios of the specification, section 8, run on the model. *)

Example scenario_exact_match :
  let e := submitAll ids clock [order 0 1000000000 500000000 1; order 1 1000000000 500000000 2] in
  map executionPrice (completedMatches e) = [500000000] ∧
  map executionQuantity (completedMatches e) = [1000000000] ∧
  restingBuys "CUSD" e = [] ∧ restingSells "CUSD" e = [].
Proof. by vm_compute. Qed.

Example scenario_quantity_mismatch :
  let e := submitAll ids clock [order 0 100 50 1; order 1 90 50 2] in
  completedMatches e = [] ∧
  restingBuys "CUSD" e = [order 0 100 50 1] ∧ restingSells "CUSD" e = [order 1 90 50 2].
Proof. by vm_compute. Qed.

Example scenario_price_time_priority :
  let e := submitAll ids clock [order 1 100 50 1; order 1 100 48 2; order 0 100 55 3] in
  map sellOrder (completedMatches e) = [order 1 100 48 2] ∧
  restingSells "CUSD" e = [order 1 100 50 1].
Proof. by vm_compute. Qed.

End EngineFacts.

(** * Numbers as text and as bytes *)

Section TextFacts.

Import Encoding.

(** * Digits, rendering and parsing *)

Lemma N_of_digitChar d :
  0 ≤ d < 36 → Z.of_N (N_of_ascii (JS.digitChar d)) = if d <? 10 then d + 48 else d + 87.
Proof.
  intros Hd. unfold JS.digitChar.
  rewrite N_ascii_embedding; [apply Z2N.id|]; destruct (d <? 10); lia.
Qed.

Lemma digitValue_digitChar radix d :
  radix ≤ 36 → 0 ≤ d < radix → JS.digitValue radix (JS.digitChar d) = Some d.
Proof.
  intros Hr Hd. unfold JS.digitValue. rewrite N_of_digitChar by lia.
  destruct (Z.ltb_spec d 10).
  - replace ((48 <=? d + 48) && (d + 48 <=? 57)) with true
      by (symmetry; apply andb_true_iff; split; apply Z.leb_le; lia).
    replace (d + 48 - 48) with d by lia.
    by rewrite (proj2 (Z.ltb_lt d radix)) by lia.
  - replace ((48 <=? d + 87) && (d + 87 <=? 57)) with false
      by (symmetry; apply andb_false_iff; right; apply Z.leb_gt; lia).
    replace ((97 <=? d + 87) && (d + 87 <=? 122)) with true
      by (symmetry; apply andb_true_iff; split; apply Z.leb_le; lia).
    replace (d + 87 - 87) with d by lia.
    by rewrite (proj2 (Z.ltb_lt d radix)) by lia.
Qed.

Lemma digitValue_range radix c d : JS.digitValue radix c = Some d → 0 ≤ d < radix.
Proof.
  unfold JS.digitValue. set (n := Z.of_N (N_of_ascii c)).
  destruct ((48 <=? n) && (n <=? 57)) eqn:H1.
  { apply andb_true_iff in H1 as [?%Z.leb_le ?%Z.leb_le].
    destruct (Z.ltb_spec (n - 48) radix); [|done]. intros [= <-]. lia. }
  destruct ((97 <=? n) && (n <=? 122)) eqn:H2.
  { apply andb_true_iff in H2 as [?%Z.leb_le ?%Z.leb_le].
    destruct (Z.ltb_spec (n - 87) radix); [|done]. intros [= <-]. lia. }
  destruct ((65 <=? n) && (n <=? 90)) eqn:H3; [|done].
  apply andb_true_iff in H3 as [?%Z.leb_le ?%Z.leb_le].
  destruct (Z.ltb_spec (n - 55) radix); [|done]. intros [= <-]. lia.
Qed.

Lemma parseDigits_app radix s t acc :
  JS.parseDigits radix (s ++ t) acc = JS.parseDigits radix s acc ≫= JS.parseDigits radix t.
Proof.
  revert acc. induction s as [|c s IH]; intros acc; simpl; [done|].
  destruct (JS.digitValue radix c); [apply IH|done].
Qed.

(** Parsing what [renderDigits] printed gives the number back. *)
Lemma parseDigits_renderDigits radix fuel : ∀ n acc,
  2 ≤ radix ≤ 36 → 0 ≤ n < 2 ^ Z.of_nat fuel →
  JS.parseDigits radix (JS.renderDigits fuel radix n acc) 0 = JS.parseDigits radix acc n.
Proof.
  induction fuel as [|fuel IH]; intros n acc Hr Hn.
  { simpl in *. by replace n with 0 by lia. }
  simpl JS.renderDigits.
  assert (Hmod : 0 ≤ n mod radix < radix) by (apply Z.mod_pos_bound; lia).
  assert (Hdiv : n = radix * (n / radix) + n mod radix) by (apply Z.div_mod; lia).
  assert (Hq : 0 ≤ n / radix) by (apply Z.div_pos; lia).
  destruct (Z.eqb_spec (n / radix) 0) as [H0|Hne].
  - simpl. rewrite digitValue_digitChar by lia. f_equal. lia.
  - rewrite IH; [|done|].
    + simpl. rewrite digitValue_digitChar by lia. f_equal. lia.
    + split; [done|]. rewrite Nat2Z.inj_succ, Z.pow_succ_r in Hn by lia.
      apply Z.div_lt_upper_bound; [lia|]. nia.
Qed.

Lemma renderDigits_length radix fuel : ∀ n acc k,
  2 ≤ radix → 0 ≤ n < radix ^ Z.of_nat (S k) →
  (String.length (JS.renderDigits fuel radix n acc) ≤ S k + String.length acc)%nat.
Proof.
  induction fuel as [|fuel IH]; intros n acc k Hr Hn; simpl; [lia|].
  destruct (Z.eqb_spec (n / radix) 0) as [H0|Hne]; simpl; [lia|].
  destruct k as [|k].
  { exfalso. apply Hne. apply Z.div_small. simpl in Hn. lia. }
  etrans; [apply (IH _ _ k); [done|]|simpl; lia].
  split; [apply Z.div_pos; lia|].
  rewrite (Nat2Z.inj_succ (S k)), Z.pow_succ_r in Hn by lia.
  apply Z.div_lt_upper_bound; lia.
Qed.

(** Every character [renderDigits] adds is a digit of the radix. *)
Lemma renderDigits_digits radix fuel : ∀ n acc,
  2 ≤ radix ≤ 36 → 0 ≤ n → JS.digitsOf radix acc →
  JS.digitsOf radix (JS.renderDigits fuel radix n acc).
Proof.
  induction fuel as [|fuel IH]; intros n acc Hr Hn Hacc; simpl; [done|].
  assert (Hmod : 0 ≤ n mod radix < radix) by (apply Z.mod_pos_bound; lia).
  assert (JS.digitsOf radix (String (JS.digitChar (n mod radix)) acc)).
  { constructor; [|done]. rewrite digitValue_digitChar by lia. by eexists. }
  destruct (n / radix =? 0); [done|]. apply IH; [done| |done]. apply Z.div_pos; lia.
Qed.

Lemma log2_fuel n : 0 ≤ n → n < 2 ^ Z.of_nat (S (Z.to_nat (Z.log2 n))).
Proof.
  intros Hn. rewrite Nat2Z.inj_succ, Z2Nat.id by apply Z.log2_nonneg.
  destruct (Z.eq_dec n 0) as [->|]; [done|]. apply Z.log2_spec. lia.
Qed.

Lemma toString_nonneg radix n :
  0 ≤ n → JS.toString radix n
          = JS.renderDigits (S (Z.to_nat (Z.log2 n))) radix n EmptyString.
Proof.
  intros Hn. unfold JS.toString. rewrite Z.abs_eq by done.
  by rewrite (proj2 (Z.ltb_ge n 0)) by done.
Qed.

Lemma parseDigits_toString radix n :
  2 ≤ radix ≤ 36 → 0 ≤ n → JS.parseDigits radix (JS.toString radix n) 0 = Some n.
Proof.
  intros Hr Hn. rewrite toString_nonneg by done.
  rewrite parseDigits_renderDigits; [done..|]. split; [done|]. by apply log2_fuel.
Qed.

Lemma toString_digits radix n : 2 ≤ radix ≤ 36 → 0 ≤ n → JS.digitsOf radix (JS.toString radix n).
Proof.
  intros Hr Hn. rewrite toString_nonneg by done. apply renderDigits_digits; [done..|].
  constructor.
Qed.

Lemma toString_nonempty radix n : 0 ≤ n → JS.toString radix n ≠ EmptyString.
Proof.
  intros Hn. rewrite toString_nonneg by done. simpl.
  destruct (n / radix =? 0); [done|].
  generalize (Z.to_nat (Z.log2 n)) (n / radix).
  assert (∀ fuel m acc, acc ≠ EmptyString → JS.renderDigits fuel radix m acc ≠ EmptyString)
    as Hne; [|intros; by apply Hne].
  induction fuel as [|fuel IH]; intros m acc Hacc; simpl; [done|].
  destruct (m / radix =? 0); [done|]. by apply IH.
Qed.

(** * [BigInt] on digit strings *)

Lemma digit_not_space radix c :
  is_Some (JS.digitValue radix c) →
  JS.isWhiteSpace c = false ∧ Z.of_N (N_of_ascii c) < 128.
Proof.
  unfold JS.digitValue, JS.isWhiteSpace. set (n := Z.of_N (N_of_ascii c)).
  intros [d Hd].
  destruct ((48 <=? n) && (n <=? 57)) eqn:H1.
  { apply andb_true_iff in H1 as [?%Z.leb_le ?%Z.leb_le]. split; [|lia].
    apply orb_false_iff. split; [apply andb_false_iff; right; apply Z.leb_gt|apply Z.eqb_neq]; lia. }
  destruct ((97 <=? n) && (n <=? 122)) eqn:H2.
  { apply andb_true_iff in H2 as [?%Z.leb_le ?%Z.leb_le]. split; [|lia].
    apply orb_false_iff. split; [apply andb_false_iff; right; apply Z.leb_gt|apply Z.eqb_neq]; lia. }
  destruct ((65 <=? n) && (n <=? 90)) eqn:H3; [|done].
  apply andb_true_iff in H3 as [?%Z.leb_le ?%Z.leb_le]. split; [|lia].
  apply orb_false_iff. split; [apply andb_false_iff; right; apply Z.leb_gt|apply Z.eqb_neq]; lia.
Qed.

Lemma digitsOf_noWhiteSpace radix s : JS.digitsOf radix s → JS.noWhiteSpace s.
Proof. intros H. eapply Forall_impl; [exact H|]. intros c. apply digit_not_space. Qed.

(** No white space of two or three bytes starts with an ASCII byte. *)
Lemma isWhiteSpace2_ascii c1 c2 : Z.of_N (N_of_ascii c1) < 128 → JS.isWhiteSpace2 c1 c2 = false.
Proof.
  intros Hc. unfold JS.isWhiteSpace2. apply andb_false_iff. left. apply Z.eqb_neq. lia.
Qed.

Lemma isWhiteSpace3_ascii c1 c2 c3 :
  Z.of_N (N_of_ascii c1) < 128 → JS.isWhiteSpace3 c1 c2 c3 = false.
Proof.
  intros Hc. unfold JS.isWhiteSpace3. cbv zeta.
  assert ((Z.of_N (N_of_ascii c1) =? 225) = false) as -> by (apply Z.eqb_neq; lia).
  assert ((Z.of_N (N_of_ascii c1) =? 226) = false) as -> by (apply Z.eqb_neq; lia).
  assert ((Z.of_N (N_of_ascii c1) =? 227) = false) as -> by (apply Z.eqb_neq; lia).
  assert ((Z.of_N (N_of_ascii c1) =? 239) = false) as -> by (apply Z.eqb_neq; lia).
  reflexivity.
Qed.

Lemma trimStart_id s : JS.noWhiteSpace s → JS.trimStart s = s.
Proof.
  destruct s as [|c1 s1]; [done|]. intros Hs. inversion_clear Hs as [|?? [Hc Ha] _].
  simpl. rewrite Hc. destruct s1 as [|c2 s2]; [done|].
  rewrite isWhiteSpace2_ascii by done. destruct s2 as [|c3 s3]; [done|].
  by rewrite isWhiteSpace3_ascii.
Qed.

Lemma trimEnd_id s : JS.noWhiteSpace s → JS.trimEnd s = s.
Proof.
  induction s as [|c s IH]; [done|]. intros Hs. inversion_clear Hs as [|?? [Hc Ha] Hs'].
  simpl. rewrite (IH Hs'). destruct s as [|c2 [|c3 [|c4 s]]].
  - by rewrite Hc.
  - by rewrite isWhiteSpace2_ascii.
  - by rewrite isWhiteSpace3_ascii.
  - done.
Qed.

Lemma trim_id s : JS.noWhiteSpace s → JS.trimEnd (JS.trimStart s) = s.
Proof. intros Hs. by rewrite trimStart_id, trimEnd_id. Qed.

(** [BigInt] trims the Unicode spaces too: U+00A0 before the digits,
    U+2028 after them, U+FEFF and U+3000 around them; a space between
    digits, or a character that only resembles a space (U+200B), is not
    trimmed. *)
Example BigInt_trims_unicode :
  JS.BigInt (String "194" (String "160" "5")) = Some 5 ∧
  JS.BigInt ("5" ++ String "226" (String "128" (String "168" ""))) = Some 5 ∧
  JS.BigInt (String "239" (String "187" (String "191" "0x1f"))
             ++ String "227" (String "128" (String "128" ""))) = Some 31 ∧
  JS.BigInt (String "194" (String "160" "")) = Some 0 ∧
  JS.BigInt ("1" ++ String "194" (String "160" "2")) = None ∧
  JS.BigInt (String "226" (String "128" (String "139" "5"))) = None.
Proof. by vm_compute. Qed.

Lemma decimal_digit_cases c :
  is_Some (JS.digitValue 10 c) →
  c ∈ ["0"; "1"; "2"; "3"; "4"; "5"; "6"; "7"; "8"; "9"]%char.
Proof.
  destruct c as [[] [] [] [] [] [] [] []]; vm_compute; intros [d Hd];
    try discriminate Hd; repeat first [apply list_elem_of_here|apply list_elem_of_further].
Qed.

(** A non-empty string of decimal digits is read as a decimal literal. *)
Lemma BigInt_decimal s :
  s ≠ EmptyString → JS.digitsOf 10 s → JS.BigInt s = JS.parseDigits 10 s 0.
Proof.
  intros Hne Hd. unfold JS.BigInt.
  rewrite trim_id by by eapply digitsOf_noWhiteSpace.
  destruct s as [|c1 s]; [done|].
  inversion_clear Hd as [|?? Hc1 Hs].
  apply decimal_digit_cases in Hc1.
  repeat (apply elem_of_cons in Hc1 as [->|Hc1]); try done.
  { destruct s as [|c2 s]; [done|].
    inversion_clear Hs as [|?? Hc2 _].
    apply decimal_digit_cases in Hc2.
    repeat (apply elem_of_cons in Hc2 as [->|Hc2]); try done.
    by apply elem_of_nil in Hc2. }
  by apply elem_of_nil in Hc1.
Qed.

(** [BigInt] inverts the decimal printing of a natural number. *)
Lemma BigInt_toString n : 0 ≤ n → JS.BigInt (JS.toString 10 n) = Some n.
Proof.
  intros Hn. rewrite BigInt_decimal.
  - by apply parseDigits_toString.
  - by apply toString_nonempty.
  - by apply toString_digits.
Qed.

(** A [0x] literal is read in base 16. *)
Lemma BigInt_hex h : JS.digitsOf 16 h → JS.BigInt ("0x" ++ h) = JS.parseNonEmpty 16 h.
Proof.
  intros Hd. unfold JS.BigInt. rewrite trim_id; [done|].
  repeat constructor. by eapply digitsOf_noWhiteSpace.
Qed.

(** * Bytes and their two hexadecimal digits *)

Import Encoding.

Lemma byteValue_range b : 0 ≤ byteValue b < 256.
Proof.
  unfold byteValue. pose proof (Byte.to_N_bounded b). lia.
Qed.

Lemma byteOfZ_byteValue b : JS.byteOfZ (byteValue b) = b.
Proof.
  unfold JS.byteOfZ. rewrite Z.mod_small by apply byteValue_range.
  unfold byteValue. by rewrite N2Z.id, Byte.of_to_N.
Qed.

Lemma byteValue_byteOfZ z : byteValue (JS.byteOfZ z) = z mod 256.
Proof.
  unfold JS.byteOfZ, byteValue.
  assert (Hm : 0 ≤ z mod 256 < 256) by (by apply Z.mod_pos_bound).
  destruct (Byte.of_N (Z.to_N (z mod 256))) as [b|] eqn:Hb; simpl.
  - apply Byte.to_of_N in Hb. rewrite Hb. lia.
  - apply Byte.of_N_None_iff in Hb. lia.
Qed.

Lemma byteToHex_digits b :
  JS.byteToHex b = String (JS.digitChar (byteValue b / 16))
                     (String (JS.digitChar (byteValue b mod 16)) EmptyString).
Proof. by destruct b. Qed.

(** * Strings as lists of characters *)

Lemma string_length_app (s t : string) :
  String.length (s ++ t) = (String.length s + String.length t)%nat.
Proof. induction s as [|c s IH]; simpl; [done|]. by rewrite IH. Qed.

Lemma string_app_cons c (s t : string) : (String c s ++ t = String c (s ++ t))%string.
Proof. reflexivity. Qed.

Lemma string_app_assoc (s t u : string) : ((s ++ t) ++ u = s ++ (t ++ u))%string.
Proof. induction s as [|c s IH]; [done|]. rewrite !string_app_cons. by f_equal. Qed.

Lemma digitsOf_app radix (s t : string) :
  JS.digitsOf radix s → JS.digitsOf radix t → JS.digitsOf radix (s ++ t).
Proof.
  unfold JS.digitsOf. induction s as [|c s IH]; simpl; [done|].
  intros Hs Ht. inversion_clear Hs. constructor; [done|]. by apply IH.
Qed.

Lemma repeatChar_length n c : String.length (JS.repeatChar n c) = n.
Proof. induction n as [|n IH]; simpl; [done|]. by rewrite IH. Qed.

(** * Big-endian values *)

Lemma beValueFrom_shift acc bs :
  beValueFrom acc bs = acc * 256 ^ Z.of_nat (length bs) + beValue bs.
Proof.
  unfold beValue. revert acc. induction bs as [|b bs IH]; intros acc.
  { simpl. lia. }
  change (beValueFrom acc (b :: bs)) with (beValueFrom (acc * 256 + byteValue b) bs).
  change (beValueFrom 0 (b :: bs)) with (beValueFrom (0 * 256 + byteValue b) bs).
  rewrite IH, (IH (0 * 256 + byteValue b)).
  simpl length. rewrite Nat2Z.inj_succ, Z.pow_succ_r by lia. lia.
Qed.

Lemma beValue_cons b bs :
  beValue (b :: bs) = byteValue b * 256 ^ Z.of_nat (length bs) + beValue bs.
Proof.
  unfold beValue at 1.
  change (beValueFrom 0 (b :: bs)) with (beValueFrom (0 * 256 + byteValue b) bs).
  rewrite beValueFrom_shift. lia.
Qed.

Lemma beValue_range bs : 0 ≤ beValue bs < 256 ^ Z.of_nat (length bs).
Proof.
  induction bs as [|b bs IH]; [done|].
  rewrite beValue_cons. simpl length. rewrite Nat2Z.inj_succ, Z.pow_succ_r by lia.
  pose proof (byteValue_range b). nia.
Qed.

Lemma bigEndian_length n v : length (bigEndian n v) = n.
Proof. induction n as [|n IH]; simpl; [done|]. by rewrite IH. Qed.

Lemma digit_mod v a c :
  0 < a → 0 < c → (v mod (a * (256 * c)) / a) mod 256 = (v / a) mod 256.
Proof.
  intros Ha Hc.
  rewrite Z.rem_mul_r by lia.
  rewrite (Z.mul_comm a (_ mod _)), Z.div_add by lia.
  rewrite (Z.div_small (v mod a) a) by (apply Z.mod_pos_bound; lia).
  rewrite Z.add_0_l, Z.rem_mul_r by lia.
  rewrite (Z.mul_comm 256 (_ mod c)), Z.mod_add by lia.
  apply Z.mod_mod. lia.
Qed.

(** The encoding depends on the value modulo [256^n] only. *)
Lemma bigEndian_mod n : ∀ v k, (n ≤ k)%nat →
  bigEndian n (v mod 256 ^ Z.of_nat k) = bigEndian n v.
Proof.
  induction n as [|n IH]; intros v k Hk; simpl; [done|].
  rewrite IH by lia. f_equal. unfold JS.byteOfZ. do 3 f_equal.
  replace (Z.of_nat k) with (Z.of_nat n + (1 + Z.of_nat (k - S n))) by lia.
  rewrite !Z.pow_add_r, Z.pow_1_r by lia.
  apply digit_mod; apply Z.pow_pos_nonneg; lia.
Qed.

(** A byte string is the big-endian encoding of the integer it denotes. *)
Lemma bigEndian_beValue bs : bigEndian (length bs) (beValue bs) = bs.
Proof.
  induction bs as [|b bs IH]; [done|].
  simpl length. simpl bigEndian. rewrite beValue_cons.
  pose proof (beValue_range bs) as Hr. pose proof (byteValue_range b) as Hb.
  set (w := 256 ^ Z.of_nat (length bs)) in *.
  f_equal.
  - rewrite Z.div_add_l by lia. rewrite Z.div_small by lia.
    rewrite Z.add_0_r. apply byteOfZ_byteValue.
  - rewrite <- (bigEndian_mod _ _ (length bs)) by lia. fold w.
    rewrite Z.add_comm, Z.mod_add by lia. by rewrite Z.mod_small.
Qed.

Lemma bigEndian_unique n bs v : length bs = n → beValue bs = v → bs = bigEndian n v.
Proof. intros <- <-. symmetry. apply bigEndian_beValue. Qed.

(** * Hexadecimal text and the bytes it decodes to *)

Lemma parseDigits_bytesToHex bs : ∀ acc,
  JS.parseDigits 16 (JS.bytesToHex bs) acc = Some (beValueFrom acc bs).
Proof.
  induction bs as [|b bs IH]; intros acc; [done|].
  simpl JS.bytesToHex. rewrite parseDigits_app, byteToHex_digits.
  pose proof (byteValue_range b) as Hb.
  assert (0 ≤ byteValue b / 16 < 16).
  { split; [apply Z.div_pos; lia|apply Z.div_lt_upper_bound; lia]. }
  assert (0 ≤ byteValue b mod 16 < 16) by (apply Z.mod_pos_bound; lia).
  simpl. rewrite !digitValue_digitChar by lia. simpl. rewrite IH. f_equal.
  change (beValueFrom acc (b :: bs)) with (beValueFrom (acc * 256 + byteValue b) bs).
  f_equal. pose proof (Z.div_mod (byteValue b) 16). lia.
Qed.

Lemma bytesToHex_digits bs : JS.digitsOf 16 (JS.bytesToHex bs).
Proof.
  induction bs as [|b bs IH]; [constructor|].
  simpl. apply digitsOf_app; [|done]. rewrite byteToHex_digits.
  pose proof (byteValue_range b) as Hb.
  repeat constructor; rewrite digitValue_digitChar; try by eexists.
  all: try lia.
  - split; [apply Z.div_pos; lia|apply Z.div_lt_upper_bound; lia].
  - apply Z.mod_pos_bound; lia.
Qed.

Lemma bytesToHex_length bs : String.length (JS.bytesToHex bs) = (2 * length bs)%nat.
Proof.
  induction bs as [|b bs IH]; [done|].
  simpl JS.bytesToHex. rewrite string_length_app, IH, byteToHex_digits. simpl. lia.
Qed.

(** [BigInt("0x" + hex(bytes))] is the big-endian integer of the bytes;
    without bytes the literal is just [0x], which is not one. *)
Lemma BigInt_bytesToHex bs :
  JS.BigInt ("0x" ++ JS.bytesToHex bs) = if bs is [] then None else Some (beValue bs).
Proof.
  rewrite BigInt_hex by apply bytesToHex_digits.
  destruct bs as [|b bs]; [done|].
  unfold JS.parseNonEmpty.
  destruct (JS.bytesToHex (b :: bs)) eqn:Hs.
  { pose proof (bytesToHex_length (b :: bs)) as Hl. rewrite Hs in Hl. simpl in Hl. lia. }
  rewrite <- Hs. apply parseDigits_bytesToHex.
Qed.

(** Decoding an even number of hexadecimal digits: as many bytes as
    pairs, denoting the number the digits denote. *)
Lemma Buffer_from_hex_spec n : ∀ s acc,
  String.length s = (2 * n)%nat → JS.digitsOf 16 s →
  length (JS.Buffer_from_hex s) = n ∧
  JS.parseDigits 16 s acc = Some (beValueFrom acc (JS.Buffer_from_hex s)).
Proof.
  induction n as [|n IH]; intros s acc Hlen Hd.
  { destruct s; [done|simpl in Hlen; lia]. }
  destruct s as [|hi [|lo s]]; simpl in Hlen; try lia.
  inversion_clear Hd as [|?? [h Hh] Hd']. inversion_clear Hd' as [|?? [l Hl] Hs].
  simpl. rewrite Hh, Hl. simpl.
  destruct (IH s (acc * 256 + byteValue (JS.byteOfZ (16 * h + l)))) as [IHlen IHval];
    [lia|done|].
  split; [by rewrite IHlen|].
  change (beValueFrom acc (?b :: ?bs)) with (beValueFrom (acc * 256 + byteValue b) bs).
  rewrite <- IHval. f_equal.
  apply digitValue_range in Hh, Hl. rewrite byteValue_byteOfZ, Z.mod_small by lia. lia.
Qed.

Lemma Buffer_from_hex_app n s t :
  String.length s = (2 * n)%nat → JS.digitsOf 16 s →
  JS.Buffer_from_hex (s ++ t) = JS.Buffer_from_hex s ++ JS.Buffer_from_hex t.
Proof.
  revert s. induction n as [|n IH]; intros s Hlen Hd.
  { destruct s; [done|simpl in Hlen; lia]. }
  destruct s as [|hi [|lo s]]; simpl in Hlen; try lia.
  inversion_clear Hd as [|?? [h Hh] Hd']. inversion_clear Hd' as [|?? [l Hl] Hs].
  simpl. rewrite Hh, Hl. simpl. f_equal. apply IH; [lia|done].
Qed.

(** [padStart(w, "0")] of the hexadecimal digits of a number below
    [16^w]: exactly [w] digits. *)
Lemma padStart_hex (w : nat) v :
  0 ≤ v < 16 ^ Z.of_nat w → (0 < w)%nat →
  let s := JS.padStart w "0" (JS.toString 16 v) in
  String.length s = w ∧ JS.digitsOf 16 s ∧ JS.parseDigits 16 s 0 = Some v.
Proof.
  intros Hv Hw s. subst s. unfold JS.padStart.
  assert (Hlen : (String.length (JS.toString 16 v) ≤ w)%nat).
  { rewrite toString_nonneg by lia. destruct w as [|w]; [lia|].
    etrans; [apply (renderDigits_length 16 _ _ _ w); lia|simpl; lia]. }
  split; [rewrite string_length_app, repeatChar_length; lia|].
  generalize (w - String.length (JS.toString 16 v))%nat as k. intros k. split.
  - apply digitsOf_app; [|apply toString_digits; lia].
    induction k as [|k IH]; [constructor|]. constructor; [by eexists|done].
  - induction k as [|k IH]; simpl; [apply parseDigits_toString; lia|done].
Qed.

(** The 32 bytes of a value below [2^256], as [toBytes32] prints them and
    [Buffer.from] decodes them. *)
Lemma Buffer_from_hex_padStart (n : nat) v :
  0 ≤ v < 256 ^ Z.of_nat n → (0 < n)%nat →
  JS.Buffer_from_hex (JS.padStart (2 * n) "0" (JS.toString 16 v)) = bigEndian n v.
Proof.
  intros Hv Hn.
  destruct (padStart_hex (2 * n) v) as (Hlen & Hd & Hval); [|lia|].
  { replace (Z.of_nat (2 * n)) with (2 * Z.of_nat n) by lia.
    rewrite Z.pow_mul_r by lia. exact Hv. }
  destruct (Buffer_from_hex_spec n _ 0 Hlen Hd) as [Hl Hp].
  apply bigEndian_unique; [done|].
  rewrite Hval in Hp. by injection Hp.
Qed.

End TextFacts.

(** * Commitments, nullifiers and proof bytes *)

Section ProverFacts.

Import Encoding.

Section ProverClaims.
Variable poseidon : list Z → Z.

(** C5. Exchanging the two secrets leaves the nullifier unchanged: they
    reach the hash as their sum. *)
Theorem nullifier_symmetry (buyCommitment sellCommitment : string) (quantity s1 s2 : Z) :
  Prover.computeNullifier poseidon buyCommitment sellCommitment quantity s1 s2
  = Prover.computeNullifier poseidon buyCommitment sellCommitment quantity s2 s1.
Proof. unfold Prover.computeNullifier. by rewrite (Z.add_comm s1 s2). Qed.

(** C10. On every address the prover's [hashAsset] and the engine's
    [hashAssetAddress] have the same outcome. On the empty address both
    throw, the literal [0x] not being a number; on any other the common
    value is the decimal string of Poseidon, arity 1, on the big-endian
    integer of the address bytes reduced into the field. *)
Theorem hashAsset_agrees (assetAddress : string) :
  Prover.hashAsset poseidon assetAddress = Engine.hashAssetAddress poseidon assetAddress ∧
  Prover.hashAsset poseidon assetAddress
  = if assetAddress is EmptyString then None
    else Some (Reference.hashAsset poseidon assetAddress).
Proof.
  split; [done|]. unfold Prover.hashAsset, Reference.hashAsset.
  rewrite BigInt_bytesToHex.
  destruct assetAddress as [|c s]; [done|]. done.
Qed.

(** C8 (as amended). The secret and the nonce returned by
    [generateOrderCommitment] are the big-endian integers of the two
    draws of 32 bytes, anywhere in [0, 2^256); the commitment hashes
    their residues modulo the field prime. *)
Theorem order_secrets_range (rng : nat → byte) (params : Prover.OrderParams) :
  ∃ c, Prover.generateOrderCommitment poseidon rng params = Some c ∧
       Prover.secret c = beValue (map rng (seq 0 32)) ∧
       Prover.nonce c = beValue (map rng (seq 32 32)) ∧
       0 ≤ Prover.secret c < 2 ^ 256 ∧
       0 ≤ Prover.nonce c < 2 ^ 256 ∧
       Prover.commitment c
       = F.toString (poseidon [F.e (Prover.assetHash params); F.e (Prover.side params);
                               F.e (Prover.quantity params); F.e (Prover.price params);
                               Prover.nonce c mod F.p; Prover.secret c mod F.p]).
Proof.
  unfold Prover.generateOrderCommitment, Prover.randomBytes.
  rewrite !BigInt_bytesToHex.
  eexists. split; [reflexivity|]. simpl Prover.secret. simpl Prover.nonce.
  split; [done|]. split; [done|].
  split; [|split; [|done]].
  - pose proof (beValue_range (map rng (seq 0 32))) as H.
    rewrite length_map, length_seq in H. exact H.
  - pose proof (beValue_range (map rng (seq 32 32))) as H.
    rewrite length_map, length_seq in H. exact H.
Qed.

End ProverClaims.

(** With every random byte [0xff] the secret and the nonce are
    [2^256 - 1], above the field prime. *)
Lemma order_secrets_counterexample :
  ∃ c, Prover.generateOrderCommitment Examples.mix Examples.allOnes Examples.params = Some c ∧
       F.p ≤ Prover.secret c ∧ F.p ≤ Prover.nonce c.
Proof. eexists. split; [reflexivity|]. by vm_compute. Qed.

(** * The byte layout of [convertProofForSoroban] *)

Lemma toBytes32_denotes s v : Reference.denotes32 s v → Prover.toBytes32 s = Some (Prover.hex64 v).
Proof. intros [Hs _]. unfold Prover.toBytes32. by rewrite Hs. Qed.

Lemma hex64_spec v :
  0 ≤ v < 2 ^ 256 → String.length (Prover.hex64 v) = (2 * 32)%nat ∧ JS.digitsOf 16 (Prover.hex64 v).
Proof.
  intros Hv. destruct (padStart_hex 64 v) as (? & ? & _); [|lia|done].
  by change (16 ^ Z.of_nat 64) with (2 ^ 256).
Qed.

Lemma Buffer_from_hex64 v :
  0 ≤ v < 2 ^ 256 → JS.Buffer_from_hex (Prover.hex64 v) = bigEndian 32 v.
Proof.
  intros Hv. apply (Buffer_from_hex_padStart 32); [|lia].
  by change (256 ^ Z.of_nat 32) with (2 ^ 256).
Qed.

(** Decoding a text that starts with the 64 digits of a value. *)
Lemma Buffer_from_hex64_app v (t : string) :
  0 ≤ v < 2 ^ 256 →
  JS.Buffer_from_hex (Prover.hex64 v ++ t) = bigEndian 32 v ++ JS.Buffer_from_hex t.
Proof.
  intros Hv. destruct (hex64_spec v Hv) as [Hlen Hd].
  by rewrite (Buffer_from_hex_app 32), Buffer_from_hex64.
Qed.

Lemma signalsToHex_spec signals values :
  Forall2 Reference.denotes32 signals values →
  ∃ h, Prover.signalsToHex signals = Some h ∧
       JS.Buffer_from_hex h = concat (map (bigEndian 32) values).
Proof.
  induction 1 as [|s v signals values Hsv _ (h & Hh & Hb)]; simpl.
  { by exists EmptyString. }
  rewrite (toBytes32_denotes s v Hsv), Hh. simpl.
  eexists. split; [done|]. rewrite Buffer_from_hex64_app by apply Hsv. by rewrite Hb.
Qed.

Lemma concat_bigEndian_length n values :
  length (concat (map (bigEndian n) values)) = (n * length values)%nat.
Proof.
  induction values as [|v values IH]; simpl; [lia|].
  rewrite length_app, bigEndian_length, IH. lia.
Qed.

(** C6 (as amended). For a proof whose eight coordinates denote
    integers in [0, 2^256) and a list of fewer than [2^32] public
    signals that each denote an integer in [0, 2^256),
    [convertProofForSoroban] returns 256 proof bytes laid out as
    [A.x A.y B.x1 B.x0 B.y1 B.y0 C.x C.y], 32 big-endian bytes each, and
    [4 + 32 n] signal bytes: the count on 4 big-endian bytes, then 32
    big-endian bytes a signal. *)
Theorem convertProofForSoroban_layout
    (sAx sAy sBx0 sBx1 sBy0 sBy1 sCx sCy : string)
    (restA restBx restBy restC : list string) (restB : list (list string))
    (Ax Ay Bx0 Bx1 By0 By1 Cx Cy : Z) (signals : list string) (values : list Z) :
  Reference.denotes32 sAx Ax → Reference.denotes32 sAy Ay →
  Reference.denotes32 sBx0 Bx0 → Reference.denotes32 sBx1 Bx1 →
  Reference.denotes32 sBy0 By0 → Reference.denotes32 sBy1 By1 →
  Reference.denotes32 sCx Cx → Reference.denotes32 sCy Cy →
  Forall2 Reference.denotes32 signals values →
  Z.of_nat (length signals) < 2 ^ 32 →
  let proof := {| Prover.pi_a := sAx :: sAy :: restA;
                  Prover.pi_b := (sBx0 :: sBx1 :: restBx) :: (sBy0 :: sBy1 :: restBy) :: restB;
                  Prover.pi_c := sCx :: sCy :: restC |} in
  ∃ proofBytes signalsBytes,
    Prover.convertProofForSoroban proof signals = Some (proofBytes, signalsBytes) ∧
    proofBytes = bigEndian 32 Ax ++ bigEndian 32 Ay ++
                 bigEndian 32 Bx1 ++ bigEndian 32 Bx0 ++
                 bigEndian 32 By1 ++ bigEndian 32 By0 ++
                 bigEndian 32 Cx ++ bigEndian 32 Cy ∧
    length proofBytes = 256%nat ∧
    signalsBytes = bigEndian 4 (Z.of_nat (length signals)) ++
                   concat (map (bigEndian 32) values) ∧
    length signalsBytes = (4 + 32 * length signals)%nat.
Proof.
  intros HAx HAy HBx0 HBx1 HBy0 HBy1 HCx HCy Hsig Hn proof.
  destruct (signalsToHex_spec signals values Hsig) as (h & Hh & Hb).
  unfold Prover.convertProofForSoroban, Prover.g1ToBytes, Prover.g2ToBytes. simpl.
  rewrite (toBytes32_denotes _ _ HAx), (toBytes32_denotes _ _ HAy),
    (toBytes32_denotes _ _ HBx0), (toBytes32_denotes _ _ HBx1),
    (toBytes32_denotes _ _ HBy0), (toBytes32_denotes _ _ HBy1),
    (toBytes32_denotes _ _ HCx), (toBytes32_denotes _ _ HCy), Hh. simpl.
  eexists _, _. split; [reflexivity|].
  assert (Hproof : JS.Buffer_from_hex
            ((Prover.hex64 Ax ++ Prover.hex64 Ay) ++
             (Prover.hex64 Bx1 ++ Prover.hex64 Bx0 ++ Prover.hex64 By1 ++ Prover.hex64 By0) ++ Prover.hex64 Cx ++ Prover.hex64 Cy)
          = bigEndian 32 Ax ++ bigEndian 32 Ay ++ bigEndian 32 Bx1 ++ bigEndian 32 Bx0 ++
            bigEndian 32 By1 ++ bigEndian 32 By0 ++ bigEndian 32 Cx ++ bigEndian 32 Cy).
  { rewrite !string_app_assoc.
    rewrite !Buffer_from_hex64_app by
      first [apply HAx|apply HAy|apply HBx0|apply HBx1|apply HBy0|apply HBy1|apply HCx].
    by rewrite Buffer_from_hex64 by apply HCy. }
  assert (Hsignals : JS.Buffer_from_hex
            (JS.padStart 8 "0" (JS.toString 16 (Z.of_nat (length signals))) ++ h)
          = bigEndian 4 (Z.of_nat (length signals)) ++ concat (map (bigEndian 32) values)).
  { destruct (padStart_hex 8 (Z.of_nat (length signals))) as (Hlen & Hd & _); [|lia|].
    { change (16 ^ Z.of_nat 8) with (2 ^ 32). lia. }
    rewrite (Buffer_from_hex_app 4) by done. rewrite Hb. f_equal.
    apply (Buffer_from_hex_padStart 4); [|lia].
    change (256 ^ Z.of_nat 4) with (2 ^ 32). lia. }
  rewrite Hproof, Hsignals. split; [done|]. split.
  { by rewrite !length_app, !bigEndian_length. }
  split; [done|].
  rewrite length_app, bigEndian_length, concat_bigEndian_length.
  by rewrite <- (Forall2_length _ _ _ Hsig).
Qed.

Lemma denotes32_small (s : string) (v : Z) :
  JS.BigInt s = Some v → 0 ≤ v < 2 ^ 256 → Reference.denotes32 s v.
Proof. by split. Qed.

Lemma convertProofForSoroban_layout_witness :
  ∃ proofBytes signalsBytes,
    Prover.convertProofForSoroban Examples.proof ["9"; "10"]%string
    = Some (proofBytes, signalsBytes) ∧
    length proofBytes = 256%nat ∧ length signalsBytes = 68%nat.
Proof.
  destruct (convertProofForSoroban_layout
              "1" "2" "3" "4" "5" "6" "7" "8" ["1"%string] [] [] ["1"%string]
              [["1"; "0"]%string] 1 2 3 4 5 6 7 8 ["9"; "10"]%string [9; 10])
    as (pb & sb & Hrun & _ & Hpl & _ & Hsl);
    try (apply denotes32_small; [reflexivity|vm_compute; split; congruence]).
  - repeat constructor; try reflexivity; vm_compute; congruence.
  - vm_compute. reflexivity.
  - exists pb, sb. split; [exact Hrun|]. split; [exact Hpl|exact Hsl].
Defined.

(** A signal of [2^260] takes 33 bytes: the signal bytes are then not
    [4 + 32 n] long. *)
Lemma convertProofForSoroban_counterexample :
  ∃ proofBytes signalsBytes,
    Prover.convertProofForSoroban Examples.proof [Examples.wideSignal]
    = Some (proofBytes, signalsBytes) ∧
    JS.BigInt Examples.wideSignal = Some (2 ^ 260) ∧
    length signalsBytes = 37%nat ∧
    length signalsBytes ≠ (4 + 32 * length [Examples.wideSignal])%nat.
Proof.
  eexists _, _. split; [vm_compute; reflexivity|]. split; [by vm_compute|].
  split; [by vm_compute|]. by vm_compute.
Qed.

End ProverFacts.

(** * The whitelist tree against the circuit *)

Section TreeFacts.

Import Prover.

(** * The whitelist tree *)

Lemma F_e_canonical x : F.canonical x → F.e x = x.
Proof. intros Hx. unfold F.e. by apply Z.mod_small. Qed.

Lemma canonical_0 : F.canonical 0.
Proof. by vm_compute. Qed.

Lemma signalOfString_toString x :
  F.canonical x → Circuit.signalOfString (JS.toString 10 x) = Some x.
Proof.
  intros Hx. unfold Circuit.signalOfString.
  rewrite BigInt_toString by apply Hx. simpl. by rewrite F_e_canonical.
Qed.

Section Levels.
Variable poseidon : list Z → Z.
Hypothesis poseidon_canonical : ∀ inputs, F.canonical (poseidon inputs).

Lemma hashPair_canonical a b : F.canonical (hashPair poseidon a b).
Proof. apply poseidon_canonical. Qed.

(** One level of the circuit on a left child and on a right child. *)
Lemma hashPath_left cur sibling elements sels :
  F.canonical cur → F.canonical sibling →
  Circuit.hashPath poseidon cur (sibling :: elements) (F.e 0 :: sels)
  = Circuit.hashPath poseidon (hashPair poseidon cur sibling) elements sels.
Proof.
  intros Hc Hs. simpl. unfold Circuit.DualMux, Circuit.MerkleLevel, hashPair, F.toObject.
  change (F.e 0) with 0. change (F.e (0 * (0 - 1)) =? 0) with true. simpl.
  rewrite !Z.mul_0_r, !Z.add_0_r. done.
Qed.

Lemma hashPath_right cur sibling elements sels :
  F.canonical cur → F.canonical sibling →
  Circuit.hashPath poseidon cur (sibling :: elements) (F.e 1 :: sels)
  = Circuit.hashPath poseidon (hashPair poseidon sibling cur) elements sels.
Proof.
  intros Hc Hs. simpl. unfold Circuit.DualMux, Circuit.MerkleLevel, hashPair, F.toObject.
  change (F.e 1) with 1. change (F.e (1 * (1 - 1)) =? 0) with true. simpl.
  rewrite !Z.mul_1_r.
  replace (cur + (sibling - cur)) with sibling by lia.
  replace (sibling + (cur - sibling)) with cur by lia. done.
Qed.

(** ** One building round *)

Lemma nextLevel_spec n : ∀ currentLevel,
  length currentLevel = (2 * n)%nat →
  ∃ next, nextLevel poseidon currentLevel = Some next ∧ length next = n ∧
    Forall F.canonical next ∧
    ∀ k a b, currentLevel !! (2 * k)%nat = Some a → currentLevel !! (2 * k + 1)%nat = Some b →
             next !! k = Some (hashPair poseidon a b).
Proof.
  induction n as [|n IH]; intros cur Hlen.
  { destruct cur; [|done]. exists []. by repeat split. }
  destruct cur as [|a [|b cur]]; simpl in Hlen; try lia.
  destruct (IH cur) as (next & Hnext & Hl & Hcan & Hlk); [lia|].
  exists (hashPair poseidon a b :: next). simpl. rewrite Hnext. simpl.
  split; [done|]. split; [by rewrite Hl|].
  split; [constructor; [apply hashPair_canonical|done]|].
  intros [|k] a' b' Ha Hb; simpl in *.
  - by injection Ha as <-; injection Hb as <-.
  - apply Hlk.
    + by replace (k + S (k + 0))%nat with (S (2 * k)) in Ha by lia.
    + by replace (k + S (k + 0) + 1)%nat with (S (2 * k + 1)) in Hb by lia.
Qed.

Lemma walkUp_S treeLevels count level index :
  walkUp treeLevels (S count) level index
  = (nodes ← treeLevels !! level;
     sibling ← nodes !! (if (index mod 2 =? 1)%nat then (index - 1)%nat else (index + 1)%nat);
     '(elements, indices) ← walkUp treeLevels count (S level) (index `div` 2)%nat;
     Some (JS.toString 10 sibling :: elements,
           (if (index mod 2 =? 1)%nat then 1 else 0) :: indices)).
Proof. reflexivity. Qed.

Lemma walkUp_cons nodes treeLevels count : ∀ level index,
  walkUp (nodes :: treeLevels) count (S level) index = walkUp treeLevels count level index.
Proof.
  induction count as [|count IH]; intros level index; simpl; [done|].
  by rewrite IH.
Qed.

(** The sibling of a node and the parent of the pair. *)
Lemma sibling_parent n (currentLevel next : list Z) i x :
  length currentLevel = (2 * n)%nat →
  (∀ k a b, currentLevel !! (2 * k)%nat = Some a → currentLevel !! (2 * k + 1)%nat = Some b →
            next !! k = Some (hashPair poseidon a b)) →
  currentLevel !! i = Some x →
  let isRight := (i mod 2 =? 1)%nat in
  ∃ sibling,
    currentLevel !! (if isRight then (i - 1)%nat else (i + 1)%nat) = Some sibling ∧
    next !! (i `div` 2)%nat
    = Some (if isRight then hashPair poseidon sibling x else hashPair poseidon x sibling).
Proof.
  intros Hlen Hlk Hx isRight.
  pose proof (lookup_lt_Some _ _ _ Hx) as Hi.
  pose proof (Nat.div_mod_eq i 2) as Hdm.
  pose proof (Nat.mod_upper_bound i 2) as Hm.
  subst isRight. destruct (Nat.eqb_spec (i mod 2) 1) as [Hodd|Heven].
  - destruct (lookup_lt_is_Some_2 currentLevel (i - 1)) as [sibling Hs]; [lia|].
    exists sibling. split; [done|]. apply Hlk.
    + by replace (2 * (i `div` 2))%nat with (i - 1)%nat by lia.
    + by replace (2 * (i `div` 2) + 1)%nat with i by lia.
  - destruct (lookup_lt_is_Some_2 currentLevel (i + 1)) as [sibling Hs]; [lia|].
    exists sibling. split; [done|]. apply Hlk.
    + by replace (2 * (i `div` 2))%nat with i by lia.
    + by replace (2 * (i `div` 2) + 1)%nat with (i + 1)%nat by lia.
Qed.

(** ** The built tree and the walk up from a leaf *)

Lemma buildLevels_walkUp depth : ∀ currentLevel i x,
  length currentLevel = (2 ^ depth)%nat → Forall F.canonical currentLevel →
  currentLevel !! i = Some x →
  ∃ treeLevels top elements indices values,
    buildLevels poseidon depth currentLevel = Some treeLevels ∧
    last treeLevels = Some [top] ∧ F.canonical top ∧
    walkUp treeLevels depth 0 i = Some (elements, indices) ∧
    length elements = depth ∧ length indices = depth ∧
    Forall2 (λ s v, Circuit.signalOfString s = Some v) elements values ∧
    ∀ moreElements moreIndices,
      Circuit.hashPath poseidon x (values ++ moreElements) (map F.e indices ++ moreIndices)
      = Circuit.hashPath poseidon top moreElements moreIndices.
Proof.
  induction depth as [|depth IH]; intros cur i x Hlen Hcan Hx.
  { destruct cur as [|y [|??]]; try done. destruct i; [|done]. injection Hx as ->.
    exists [[x]], x, [], [], []. simpl.
    split; [done|]. split; [done|]. split; [by inversion_clear Hcan|].
    split; [done|]. split; [done|]. split; [done|]. split; [constructor|done]. }
  destruct (nextLevel_spec (2 ^ depth) cur) as (next & Hnext & Hl & Hcn & Hlk).
  { rewrite Hlen. simpl. lia. }
  destruct (sibling_parent (2 ^ depth) cur next i x) as (sibling & Hs & Hp);
    [rewrite Hlen; simpl; lia|done|done|].
  destruct (IH next (i `div` 2)%nat _ Hl Hcn Hp)
    as (levels & top & elements & indices & values & Hb & Hlast & Htop & Hw & Hle & Hli & Hv & Hpath).
  assert (Hxc : F.canonical x).
  { rewrite Forall_forall in Hcan. apply Hcan. by eapply list_elem_of_lookup_2. }
  assert (Hsc : F.canonical sibling).
  { rewrite Forall_forall in Hcan. apply Hcan. by eapply list_elem_of_lookup_2. }
  exists (cur :: levels), top,
    (JS.toString 10 sibling :: elements),
    ((if (i mod 2 =? 1)%nat then 1 else 0) :: indices),
    (sibling :: values).
  split.
  { change (buildLevels poseidon (S depth) cur)
      with (next ← nextLevel poseidon cur; (cur ::.) <$> buildLevels poseidon depth next).
    rewrite Hnext. simpl. by rewrite Hb. }
  split; [by destruct levels|].
  split; [done|].
  split.
  { rewrite walkUp_S, walkUp_cons, Hw.
    change ((cur :: levels) !! 0%nat) with (Some cur).
    cbn [mbind option_bind]. by rewrite Hs. }
  split; [simpl; by rewrite Hle|]. split; [simpl; by rewrite Hli|].
  split; [constructor; [by apply signalOfString_toString|done]|].
  intros me mi. rewrite <- Hpath.
  destruct (i mod 2 =? 1)%nat; simpl map; simpl app.
  - by apply hashPath_right.
  - by apply hashPath_left.
Qed.

End Levels.

Section Ladder.
Variable poseidon : list Z → Z.
Hypothesis poseidon_canonical : ∀ inputs, F.canonical (poseidon inputs).

(** ** The zero ladder and the levels above the built tree *)

Lemma zeroLadder_length steps zero : length (zeroLadder poseidon steps zero) = S steps.
Proof. revert zero. induction steps as [|steps IH]; intros zero; simpl; [done|]. by rewrite IH. Qed.

Lemma zeroLadder_canonical steps zero :
  F.canonical zero → Forall F.canonical (zeroLadder poseidon steps zero).
Proof.
  revert zero. induction steps as [|steps IH]; intros zero Hz; simpl.
  - constructor; [done|constructor].
  - constructor; [done|]. apply IH, poseidon_canonical.
Qed.

Lemma extendRoot_zeroSiblings zeros count : ∀ level root,
  Forall F.canonical zeros → (level + count ≤ length zeros)%nat → F.canonical root →
  ∃ extended elements indices values,
    extendRoot poseidon zeros count level root = Some extended ∧ F.canonical extended ∧
    zeroSiblings zeros count level = Some (elements, indices) ∧
    length elements = count ∧ length indices = count ∧
    Forall2 (λ s v, Circuit.signalOfString s = Some v) elements values ∧
    Circuit.hashPath poseidon root values (map F.e indices) = Some extended.
Proof.
  induction count as [|count IH]; intros level root Hz Hlen Hroot.
  { exists root, [], [], []. simpl.
    split; [done|]. split; [done|]. split; [done|]. split; [done|].
    split; [done|]. split; [constructor|done]. }
  destruct (lookup_lt_is_Some_2 zeros level) as [zero Hzero]; [lia|].
  assert (Hzc : F.canonical zero).
  { rewrite Forall_forall in Hz. apply Hz. by eapply list_elem_of_lookup_2. }
  destruct (IH (S level) (hashPair poseidon root zero))
    as (extended & elements & indices & values & He & Hec & Hs & Hle & Hli & Hv & Hp);
    [done|lia|by apply hashPair_canonical|].
  exists extended, (JS.toString 10 zero :: elements), (0 :: indices), (zero :: values).
  simpl. rewrite Hzero. simpl. rewrite He, Hs. simpl.
  split; [done|]. split; [done|]. split; [done|].
  split; [by rewrite Hle|]. split; [by rewrite Hli|].
  split; [constructor; [by apply signalOfString_toString|done]|].
  rewrite <- Hp. by apply (hashPath_left poseidon).
Qed.

(** ** The loop over the participants *)

Lemma proofLoop_spec treeLevels zeros leaves actualDepth count : ∀ i proofs,
  (∀ j, (i ≤ j < i + count)%nat →
        is_Some (proofOf treeLevels zeros leaves actualDepth j)) →
  ∃ result,
    proofLoop treeLevels zeros leaves actualDepth count i proofs = Some result ∧
    ∀ j, (i ≤ j < i + count)%nat →
         result !! j = proofOf treeLevels zeros leaves actualDepth j.
Proof.
  induction count as [|count IH]; intros i proofs Hall.
  { exists proofs. split; [done|]. intros j Hj. lia. }
  destruct (Hall i) as [proof Hproof]; [lia|].
  destruct (IH (S i) (<[i := proof]> proofs)) as (result & Hloop & Hres).
  { intros j Hj. apply Hall. lia. }
  exists result. simpl. rewrite Hproof. simpl. split; [done|].
  intros j Hj. destruct (decide (j = i)) as [->|Hne]; [|apply Hres; lia].
  rewrite Hproof. clear Hres IH Hall Hj.
  assert (Hkeep : ∀ n k (acc result : gmap nat MerkleProof),
            proofLoop treeLevels zeros leaves actualDepth n k acc = Some result →
            (i < k)%nat → result !! i = acc !! i).
  { induction n as [|n IHn]; intros k acc res Hrun Hk; simpl in Hrun.
    - by injection Hrun as ->.
    - destruct (proofOf treeLevels zeros leaves actualDepth k) as [pk|]; [|done].
      simpl in Hrun. rewrite (IHn _ _ _ Hrun) by lia. apply lookup_insert_ne. lia. }
  rewrite (Hkeep _ _ _ _ Hloop) by lia. apply lookup_insert_eq.
Qed.

(** ** Leaves and depth *)

Lemma leafHashes_spec participants :
  Forall (λ id, is_Some (JS.BigInt id)) participants →
  ∃ leaves, leafHashes poseidon participants = Some leaves.
Proof.
  induction 1 as [|id participants [x Hx] _ [leaves Hl]]; simpl; [by eexists|].
  rewrite Hx, Hl. by eexists.
Qed.

Lemma leafHashes_Some participants leaves :
  leafHashes poseidon participants = Some leaves →
  length leaves = length participants ∧ Forall F.canonical leaves.
Proof.
  revert leaves. induction participants as [|id participants IH]; intros leaves; simpl.
  { intros [= <-]. split; [done|constructor]. }
  destruct (JS.BigInt id) as [x|]; [|done]. simpl.
  destruct (leafHashes poseidon participants) as [rest|]; [|done]. simpl.
  intros [= <-]. destruct (IH rest eq_refl) as [Hl Hc]. split; [simpl; by rewrite Hl|].
  constructor; [apply poseidon_canonical|done].
Qed.

Lemma actualDepthOf_spec n :
  (n ≤ 2 ^ TREE_DEPTH)%nat →
  (n ≤ 2 ^ actualDepthOf n)%nat ∧ (actualDepthOf n ≤ TREE_DEPTH)%nat.
Proof.
  intros Hn. unfold actualDepthOf.
  assert (Hpos : (0 < Nat.max 2 n)%nat) by lia.
  split.
  - etrans; [|apply Nat.pow_le_mono_r; [lia|apply Nat.le_max_r]].
    etrans; [apply (Nat.le_max_r 2)|]. by apply Nat.log2_up_le_pow2.
  - apply Nat.max_lub; [unfold TREE_DEPTH; lia|].
    apply Nat.log2_up_le_pow2; [done|].
    apply Nat.max_lub; [|done].
    change 2%nat with (2 ^ 1)%nat at 1. apply Nat.pow_le_mono_r; unfold TREE_DEPTH; lia.
Qed.

End Ladder.

Section Whitelist.
Variable poseidon : list Z → Z.
Hypothesis poseidon_canonical : ∀ inputs, F.canonical (poseidon inputs).

(** Once the leaves are hashed, the tree is built and every proof
    verifies in the circuit. *)
Lemma buildWhitelistTree_spec participants leaves :
  (length participants ≤ 2 ^ TREE_DEPTH)%nat →
  leafHashes poseidon participants = Some leaves →
  ∃ root proofs,
    buildWhitelistTree poseidon participants = Some (root, proofs) ∧
    ∀ i, (i < length participants)%nat →
      ∃ proof, proofs !! i = Some proof ∧
               length (pathElements proof) = TREE_DEPTH ∧
               length (pathIndices proof) = TREE_DEPTH ∧
               verifiesInCircuit poseidon proof root = true.
Proof.
  intros Hsize Hleaves.
  destruct (leafHashes_Some poseidon poseidon_canonical _ _ Hleaves) as [Hll Hlc].
  unfold buildWhitelistTree. rewrite Hleaves. cbn [mbind option_bind].
  destruct (actualDepthOf_spec (length leaves)) as [Hfit Hdepth]; [by rewrite Hll|].
  set (depth := actualDepthOf (length leaves)) in *.
  set (padded := leaves ++ replicate (2 ^ depth - length leaves) 0).
  set (zeros := zeroLadder poseidon TREE_DEPTH 0).
  assert (Hpl : length padded = (2 ^ depth)%nat).
  { unfold padded. rewrite length_app, length_replicate. lia. }
  assert (Hpc : Forall F.canonical padded).
  { apply Forall_app. split; [done|]. apply Forall_replicate, canonical_0. }
  assert (Hzc : Forall F.canonical zeros).
  { apply zeroLadder_canonical; [exact poseidon_canonical|apply canonical_0]. }
  assert (Hzl : length zeros = S TREE_DEPTH) by apply zeroLadder_length.
  assert (Hnonempty : (0 < 2 ^ depth)%nat).
  { apply Nat.neq_0_lt_0, Nat.pow_nonzero. lia. }
  destruct (lookup_lt_is_Some_2 padded 0) as [first Hfirst]; [lia|].
  destruct (buildLevels_walkUp poseidon poseidon_canonical depth padded 0 first Hpl Hpc Hfirst)
    as (treeLevels & top & _ & _ & _ & Hbuild & Hlast & Htop & _).
  rewrite Hbuild. cbn [mbind option_bind]. rewrite Hlast. cbn [mbind option_bind].
  change ([top] !! 0%nat) with (Some top). cbn [mbind option_bind].
  destruct (extendRoot_zeroSiblings poseidon poseidon_canonical zeros
              (TREE_DEPTH - depth) depth top Hzc)
    as (extended & zeroElements & zeroIndices & zeroValues
        & Hext & Hextc & Hzs & Hzel & Hzil & Hzv & Hzpath); [lia|done|].
  rewrite Hext. cbn [mbind option_bind].
  assert (Hproofs : ∀ i, (i < length participants)%nat →
    ∃ proof, proofOf treeLevels zeros padded depth i = Some proof ∧
             length (pathElements proof) = TREE_DEPTH ∧
             length (pathIndices proof) = TREE_DEPTH ∧
             verifiesInCircuit poseidon proof (JS.toString 10 extended) = true).
  { intros i Hi.
    destruct (lookup_lt_is_Some_2 padded i) as [leaf Hleaf]; [lia|].
    assert (Hleafc : F.canonical leaf).
    { rewrite Forall_forall in Hpc. apply Hpc. by eapply list_elem_of_lookup_2. }
    destruct (buildLevels_walkUp poseidon poseidon_canonical depth padded i leaf Hpl Hpc Hleaf)
      as (treeLevels' & top' & elements & indices & values
          & Hbuild' & Hlast' & _ & Hwalk & Hel & Hil & Hv & Hpath).
    rewrite Hbuild in Hbuild'. injection Hbuild' as <-.
    rewrite Hlast in Hlast'. injection Hlast' as <-.
    unfold proofOf. rewrite Hwalk. cbn [mbind option_bind]. rewrite Hzs.
    cbn [mbind option_bind]. rewrite Hleaf. cbn [mbind option_bind].
    eexists. split; [reflexivity|]. cbn [pathElements pathIndices].
    split; [rewrite length_app; lia|]. split; [rewrite length_app; lia|].
    unfold verifiesInCircuit. cbn [idHash pathElements pathIndices].
    rewrite !signalOfString_toString by done.
    assert (Hm : mapM Circuit.signalOfString (elements ++ zeroElements)
                 = Some (values ++ zeroValues)).
    { apply mapM_Some. by apply Forall2_app. }
    rewrite Hm. unfold Circuit.MerkleTreeVerifier, Circuit.MerkleTreeProof.
    rewrite length_map, !length_app.
    rewrite (Forall2_length _ _ _ Hv), (Forall2_length _ _ _ Hzv) in *.
    replace (length values + length zeroValues)%nat with TREE_DEPTH by lia.
    replace (length indices + length zeroIndices)%nat with TREE_DEPTH by lia.
    rewrite Nat.eqb_refl. cbn [andb].
    rewrite map_app, Hpath, Hzpath. apply Z.eqb_refl. }
  destruct (proofLoop_spec treeLevels zeros padded depth (length participants) 0 ∅)
    as (result & Hloop & Hres).
  { intros j Hj. destruct (Hproofs j) as (proof & Hp & _); [lia|]. by eexists. }
  rewrite Hloop. cbn [mbind option_bind].
  eexists _, _. split; [reflexivity|].
  intros i Hi. destruct (Hproofs i Hi) as (proof & Hp & ?).
  exists proof. split; [|done]. rewrite Hres by lia. done.
Qed.

End Whitelist.

Lemma mix_canonical inputs : F.canonical (Examples.mix inputs).
Proof. unfold Examples.mix, F.canonical. by apply Z.mod_pos_bound. Qed.

(** The verifier is not satisfied by another leaf on the same path. *)
Example verifier_rejects_other_leaf :
  ∃ root proofs proof,
    buildWhitelistTree Examples.mix ["0x01"; "0x02"; "3"]%string = Some (root, proofs) ∧
    proofs !! 1%nat = Some proof ∧
    verifiesInCircuit Examples.mix proof root = true ∧
    verifiesInCircuit Examples.mix
      {| idHash := "5"; pathElements := pathElements proof;
         pathIndices := pathIndices proof |} root = false.
Proof. eexists _, _, _. split; [by vm_compute|]. split; [by vm_compute|]. by vm_compute. Qed.

End TreeFacts.

(** * The submission route *)

Section RouteFacts.

Import Engine OrdersRoute.

Section Route.
Variable generateMatchId : nat → string.
Variable Date_now : nat → Z.

Lemma missing_Some s : s ≠ EmptyString → missing (Some s) = false.
Proof. by destruct s. Qed.

(** C7 (as amended). On a command whose fields, where present, have
    the types the interface declares, the handler rejects with status
    400, leaving the engine as it was, every command in which the
    commitment, trader,
    asset address, quantity, price, secret or nonce is absent or empty,
    or the side is absent. A command that has them all, with quantity,
    price, secret and nonce integer literals, is handed to [submitOrder]
    with those integers, whatever their sign, and with the expiry it
    carries, whatever the clock says; only an absent or zero expiry is
    replaced, by one hour from now; the whitelist index of the order
    is what [getWhitelistIndex] finds for the trader, and the
    processing the handler then starts leaves the books and the log as
    [submitOrder] left them. When one of the
    four is not an integer literal as [BigInt] reads one, the answer is
    status 500 and the engine is as it was. *)
Theorem submit_boundary (now now' : Z) (body : SubmitOrderRequest)
    (engine : DarkPoolMatchingEngine) :
  (missing (req_commitment body) = true ∨ missing (req_trader body) = true ∨
   missing (req_assetAddress body) = true ∨ req_side body = None ∨
   missing (req_quantity body) = true ∨ missing (req_price body) = true ∨
   missing (req_secret body) = true ∨ missing (req_nonce body) = true →
   postSubmit generateMatchId Date_now now now' body engine = (Status400, engine)) ∧
  (∀ c t a sd q p x n qv pv xv nv,
     req_commitment body = Some c → c ≠ EmptyString →
     req_trader body = Some t → t ≠ EmptyString →
     req_assetAddress body = Some a → a ≠ EmptyString →
     req_side body = Some sd →
     req_quantity body = Some q → q ≠ EmptyString → JS.BigInt q = Some qv →
     req_price body = Some p → p ≠ EmptyString → JS.BigInt p = Some pv →
     req_secret body = Some x → x ≠ EmptyString → JS.BigInt x = Some xv →
     req_nonce body = Some n → n ≠ EmptyString → JS.BigInt n = Some nv →
     let order :=
       {| commitment := c; trader := t; assetAddress := a; side := sd;
          quantity := qv; price := pv; secret := xv; nonce := nv;
          timestamp := now;
          expiry := orElse (req_expiry body) (now' + 3600000);
          whitelistIndex := getWhitelistIndex t (req_whitelistIndex body) |} in
     let engine' := submitOrder generateMatchId Date_now order engine in
     postSubmit generateMatchId Date_now now now' body engine
     = (Status200 (length (matchQueue engine')), autoProcess engine') ∧
     buyOrders (autoProcess engine') = buyOrders engine' ∧
     sellOrders (autoProcess engine') = sellOrders engine' ∧
     completedMatches (autoProcess engine') = completedMatches engine') ∧
  (∀ c t a sd q p x n,
     req_commitment body = Some c → c ≠ EmptyString →
     req_trader body = Some t → t ≠ EmptyString →
     req_assetAddress body = Some a → a ≠ EmptyString →
     req_side body = Some sd →
     req_quantity body = Some q → q ≠ EmptyString →
     req_price body = Some p → p ≠ EmptyString →
     req_secret body = Some x → x ≠ EmptyString →
     req_nonce body = Some n → n ≠ EmptyString →
     JS.BigInt q = None ∨ JS.BigInt p = None ∨ JS.BigInt x = None ∨ JS.BigInt n = None →
     postSubmit generateMatchId Date_now now now' body engine = (Status500, engine)).
Proof.
  split; [|split].
  - intros Hmiss. unfold postSubmit.
    destruct (missing (req_commitment body)); [done|].
    destruct (missing (req_trader body)); [done|].
    destruct (missing (req_assetAddress body)); [done|].
    destruct (req_side body) as [sd|]; [|done].
    destruct (missing (req_quantity body)); [done|].
    destruct (missing (req_price body)); [done|].
    destruct (missing (req_secret body)); [done|].
    destruct (missing (req_nonce body)); [done|].
    by destruct Hmiss as [?|[?|[?|[?|[?|[?|[?|?]]]]]]].
  - intros c t a sd q p x n qv pv xv nv Hc ? Ht ? Ha ? Hsd Hq ? Hqv Hp ? Hpv Hx ? Hxv Hn ? Hnv.
    unfold postSubmit. rewrite Hc, Ht, Ha, Hsd, Hq, Hp, Hx, Hn.
    rewrite !missing_Some by done. simpl. rewrite Hqv, Hpv, Hxv, Hnv.
    split; [done|]. unfold autoProcess. by destruct (matchQueue _).
  - intros c t a sd q p x n Hc ? Ht ? Ha ? Hsd Hq ? Hp ? Hx ? Hn ? Hbad.
    unfold postSubmit. rewrite Hc, Ht, Ha, Hsd, Hq, Hp, Hx, Hn.
    rewrite !missing_Some by done. simpl.
    destruct (JS.BigInt q), (JS.BigInt p), (JS.BigInt x), (JS.BigInt n); try done;
      by destruct Hbad as [?|[?|[?|?]]].
Qed.

End Route.

Lemma submit_boundary_witness :
  postSubmit Examples.ids Examples.clock 5000 5000 Examples.zeroCommand newEngine
  = (Status200 0,
     autoProcess (submitOrder Examples.ids Examples.clock Examples.zeroOrder newEngine)).
Proof.
  exact (proj1 (proj1 (proj2 (submit_boundary Examples.ids Examples.clock 5000 5000
                         Examples.zeroCommand newEngine))
           "1" "G" "CUSD" 0 "0" "0" "11" "12" 0 0 11 12
           eq_refl ltac:(discriminate) eq_refl ltac:(discriminate)
           eq_refl ltac:(discriminate) eq_refl
           eq_refl ltac:(discriminate) eq_refl
           eq_refl ltac:(discriminate) eq_refl
           eq_refl ltac:(discriminate) eq_refl
           eq_refl ltac:(discriminate) eq_refl)).
Defined.

(** A command with quantity 0, price 0 and an expiry 4999 ms in the past
    is answered with status 200 and rests in the book. *)
Lemma submit_boundary_counterexample :
  ∃ engine',
    postSubmit Examples.ids Examples.clock 5000 5000 Examples.zeroCommand newEngine
    = (Status200 0, engine') ∧
    restingBuys "CUSD" engine' = [Examples.zeroOrder] ∧
    quantity Examples.zeroOrder = 0 ∧ price Examples.zeroOrder = 0 ∧
    expiry Examples.zeroOrder < 5000.
Proof. eexists. split; [by vm_compute|]. by vm_compute. Qed.

End RouteFacts.

(** * The heartbeat *)

Section HeartbeatFacts.

Import WebSocketServer.

(** * The heartbeat *)

Lemma beat_fold (entries : list (nat * bool)) : ∀ server actions result,
  NoDup entries.*1 →
  fold_left beat entries (server, actions) = result →
  result.2 = actions ++ map actionOf entries ∧
  (∀ c, c ∉ entries.*1 → clients result.1 !! c = clients server !! c) ∧
  (∀ c, (c, true) ∈ entries → clients result.1 !! c = Some false) ∧
  (∀ c, (c, false) ∈ entries → clients result.1 !! c = None) ∧
  (∀ c channel, (c, channel) ∈ subscriptionManager result.1 ↔
                (c, channel) ∈ subscriptionManager server ∧ (c, false) ∉ entries).
Proof.
  induction entries as [|[c0 alive] entries IH]; intros server actions result Hnd Hfold.
  { simpl in Hfold. subst result. simpl.
    rewrite app_nil_r. split; [done|]. split; [done|].
    split; [by intros c ?%elem_of_nil|]. split; [by intros c ?%elem_of_nil|].
    intros c ch. split; [|by intros [? _]].
    intros H. split; [done|]. by intros ?%elem_of_nil. }
  rewrite fmap_cons in Hnd. apply NoDup_cons in Hnd as [Hfresh Hnd]. simpl in Hfresh.
  change (fold_left beat ((c0, alive) :: entries) (server, actions))
    with (fold_left beat entries (beat (server, actions) (c0, alive))) in Hfold.
  destruct (beat (server, actions) (c0, alive)) as [server1 actions1] eqn:Hbeat.
  destruct (IH server1 actions1 result Hnd Hfold) as (Hacts & Hother & Halive & Hdead & Hsubs).
  assert (Hstep : actions1 = actions ++ [actionOf (c0, alive)] ∧
                  clients server1 !! c0 = (if alive then Some false else None) ∧
                  (∀ c, c ≠ c0 → clients server1 !! c = clients server !! c) ∧
                  (∀ c channel, (c, channel) ∈ subscriptionManager server1 ↔
                     (c, channel) ∈ subscriptionManager server ∧ (c, false) ≠ (c0, alive))).
  { unfold beat, actionOf in *. destruct alive; simpl in Hbeat; injection Hbeat as <- <-; simpl.
    - split; [done|]. split; [apply lookup_insert_eq|].
      split; [intros c Hc; by apply lookup_insert_ne|].
      intros c ch. split; [intros H; split; [done|congruence]|by intros [? _]].
    - split; [done|]. split; [apply lookup_delete_eq|].
      split; [intros c Hc; by apply lookup_delete_ne|].
      intros c ch. unfold removeClient. rewrite elem_of_filter. simpl.
      split; [intros [? ?]; split; [done|congruence]|].
      intros [? Hne]. split; [|done]. intros ->. by apply Hne. }
  destruct Hstep as (Hs2 & Hs0 & Hsne & Hssub).
  split; [rewrite Hacts, Hs2, <- app_assoc; done|].
  split.
  { intros c Hc. rewrite fmap_cons, not_elem_of_cons in Hc. destruct Hc as [Hne Hc].
    rewrite Hother by done. by apply Hsne. }
  split.
  { intros c [Heq|Hin]%elem_of_cons.
    - injection Heq as -> <-. rewrite Hother by done. exact Hs0.
    - by apply Halive. }
  split.
  { intros c [Heq|Hin]%elem_of_cons.
    - injection Heq as -> <-. rewrite Hother by done. exact Hs0.
    - by apply Hdead. }
  intros c ch. rewrite Hsubs, Hssub, not_elem_of_cons. tauto.
Qed.

(** One firing, from any state: who is pinged, who is terminated, and
    what is left. *)
Lemma heartbeat_spec server :
  (heartbeat server).2 = map actionOf (map_to_list (clients server)) ∧
  (∀ c, clients (heartbeat server).1 !! c
        = match clients server !! c with
          | Some true => Some false
          | _ => None
          end) ∧
  (∀ c channel, (c, channel) ∈ subscriptionManager (heartbeat server).1 ↔
                (c, channel) ∈ subscriptionManager server ∧ clients server !! c ≠ Some false).
Proof.
  unfold heartbeat.
  destruct (beat_fold (map_to_list (clients server)) server [] _
              (NoDup_fst_map_to_list _) eq_refl)
    as (Hacts & Hother & Halive & Hdead & Hsubs).
  split; [done|]. split.
  - intros c. destruct (clients server !! c) as [[]|] eqn:Hc.
    + by apply Halive, elem_of_map_to_list.
    + by apply Hdead, elem_of_map_to_list.
    + rewrite Hother; [done|].
      intros [[c' b] [-> Hin]]%list_elem_of_fmap.
      apply elem_of_map_to_list in Hin. simpl in Hc. congruence.
  - intros c ch. rewrite Hsubs. by rewrite elem_of_map_to_list.
Qed.

Lemma heartbeat_actions server c :
  (Terminate c ∈ (heartbeat server).2 ↔ clients server !! c = Some false) ∧
  (Ping c ∈ (heartbeat server).2 ↔ clients server !! c = Some true).
Proof.
  destruct (heartbeat_spec server) as (-> & _).
  split; rewrite list_elem_of_fmap; split.
  - intros [[c' []] [Heq Hin]]; unfold actionOf in Heq; simpl in Heq; [done|].
    injection Heq as ->. by apply elem_of_map_to_list.
  - intros Hc. exists (c, false). split; [done|]. by apply elem_of_map_to_list.
  - intros [[c' []] [Heq Hin]]; unfold actionOf in Heq; simpl in Heq; [|done].
    injection Heq as ->. by apply elem_of_map_to_list.
  - intros Hc. exists (c, true). split; [done|]. by apply elem_of_map_to_list.
Qed.

Lemma unansweredPings_app c h1 h2 n :
  unansweredPings c (h1 ++ h2) n = unansweredPings c h2 (unansweredPings c h1 n).
Proof.
  revert n. induction h1 as [|entry h1 IH]; intros n; [done|].
  destruct entry as [[]|[]]; simpl; apply IH.
Qed.

Lemma unansweredPings_no_ping c actions n :
  Ping c ∉ actions → unansweredPings c (map Did actions) n = n.
Proof.
  revert n. induction actions as [|a actions IH]; intros n Hno; [done|].
  rewrite not_elem_of_cons in Hno. destruct Hno as [Hne Hno].
  destruct a as [c'|c']; simpl; [|by apply IH].
  destruct (decide (c' = c)) as [->|_]; [done|by apply IH].
Qed.

Lemma unansweredPings_one_ping c actions n :
  NoDup actions → Ping c ∈ actions → unansweredPings c (map Did actions) n = S n.
Proof.
  intros Hnd [a1 [a2 ->]]%list_elem_of_split.
  apply NoDup_app in Hnd as (_ & Hdisj & Hnd2). apply NoDup_cons in Hnd2 as [Hnot2 _].
  rewrite map_app, unansweredPings_app. simpl.
  rewrite decide_True by done.
  rewrite unansweredPings_no_ping; [|done].
  rewrite unansweredPings_no_ping; [done|].
  intros Hin. apply (Hdisj _ Hin). apply list_elem_of_here.
Qed.

Lemma heartbeat_NoDup server : NoDup (heartbeat server).2.
Proof.
  destruct (heartbeat_spec server) as (-> & _).
  apply NoDup_fmap_2_strong; [|apply NoDup_map_to_list].
  intros [c1 b1] [c2 b2] H1 H2 Heq.
  apply elem_of_map_to_list in H1, H2.
  unfold actionOf in Heq. destruct b1, b2; simpl in Heq; try done;
    injection Heq as ->; congruence.
Qed.

Lemma flagsCount_handle server history event :
  flagsCount server history →
  flagsCount (handle server event).1
             (history ++ Arrived event :: map Did (handle server event).2).
Proof.
  intros Hinv c. destruct (Hinv c) as [Htrue Hfalse].
  rewrite unansweredPings_app.
  destruct event as [c0|c0|c0 ch|c0|]; simpl.
  - destruct (decide (c0 = c)) as [->|Hne].
    + rewrite lookup_insert_eq. by split.
    + rewrite lookup_insert_ne by done. by split.
  - destruct (clients server !! c0) as [b|] eqn:Hc0; simpl.
    + destruct (decide (c0 = c)) as [->|Hne].
      * rewrite lookup_insert_eq. by split.
      * rewrite lookup_insert_ne by done. by split.
    + destruct (decide (c0 = c)) as [->|Hne]; [|by split].
      rewrite Hc0. by split.
  - by split.
  - destruct (decide (c0 = c)) as [->|Hne].
    + rewrite lookup_delete_eq. by split.
    + rewrite lookup_delete_ne by done. by split.
  - destruct (heartbeat_spec server) as (_ & Hclients & _).
    rewrite Hclients.
    destruct (clients server !! c) as [[]|] eqn:Hc; split; try done.
    intros _. rewrite unansweredPings_one_ping.
    + by rewrite Htrue.
    + apply heartbeat_NoDup.
    + by apply heartbeat_actions.
Qed.

Lemma run_terminate events : ∀ server history pre c post,
  flagsCount server history →
  (run server events).2 = pre ++ Did (Terminate c) :: post →
  unansweredPings c (history ++ pre) 0 = 1%nat.
Proof.
  induction events as [|event events IH]; intros server history pre c post Hinv Hrun.
  { simpl in Hrun. by destruct pre. }
  pose proof (flagsCount_handle server history event Hinv) as Hinv'.
  change (run server (event :: events))
    with (let '(server', actions) := handle server event in
          let '(final, rest) := run server' events in
          (final, Arrived event :: map Did actions ++ rest)) in Hrun.
  destruct (handle server event) as [server' actions] eqn:Hhandle.
  specialize (IH server'). destruct (run server' events) as [final rest].
  cbn [fst snd] in Hrun, Hinv', IH. destruct pre as [|entry pre]; [done|].
  injection Hrun as <- Hrun.
  apply app_eq_inv in Hrun as [(k & Hacts & Hrest)|(k & -> & Hrest)].
  - destruct k as [|entry k].
    { (* it is the first entry of a later event *)
      rewrite app_nil_r in Hacts. simpl in Hrest. rewrite <- Hacts.
      replace (history ++ Arrived event :: map Did actions)
        with ((history ++ Arrived event :: map Did actions) ++ []) by apply app_nil_r.
      eapply IH; [done|]. by rewrite <- Hrest. }
    (* the termination is among the actions of this event *)
    injection Hrest as <- _.
    assert (Hin : Terminate c ∈ actions).
    { assert (Did (Terminate c) ∈ Did <$> actions) as Hd.
      { change (Did <$> actions) with (map Did actions).
        rewrite Hacts. apply elem_of_app. right. apply list_elem_of_here. }
      apply list_elem_of_fmap in Hd as (a & [= <-] & Ha). exact Ha. }
    assert (∃ a1, pre = map Did a1 ∧ (Ping c ∉ a1) ∧ event = Tick ∧
                  clients server !! c = Some false) as (a1 & -> & Hno & -> & Hflag).
    { destruct event; simpl in Hhandle;
        try (injection Hhandle as <- <-; by apply elem_of_nil in Hin).
      - destruct (clients server !! client); injection Hhandle as <- <-;
          by apply elem_of_nil in Hin.
      - assert (actions = (heartbeat server).2) as -> by by rewrite Hhandle.
        apply heartbeat_actions in Hin as Hflag.
        apply fmap_app_inv in Hacts as (a1 & a2 & -> & _ & Hsplit).
        exists a1. split; [done|]. split; [|done].
        intros Hp. assert (Ping c ∈ (heartbeat server).2) as Hp'.
        { rewrite Hsplit. apply elem_of_app. by left. }
        apply heartbeat_actions in Hp'. congruence. }
    rewrite unansweredPings_app. simpl.
    rewrite unansweredPings_no_ping by done. by apply Hinv.
  - (* the termination comes with a later event *)
    rewrite app_comm_cons, app_assoc. eapply IH; [done|]. exact Hrest.
Qed.

(** The flags keep counting along a run. *)
Lemma run_flagsCount events : ∀ server history,
  flagsCount server history →
  flagsCount (run server events).1 (history ++ (run server events).2).
Proof.
  induction events as [|event events IH]; intros server history Hinv.
  { simpl. by rewrite app_nil_r. }
  pose proof (flagsCount_handle server history event Hinv) as Hinv'.
  change (run server (event :: events))
    with (let '(server', actions) := handle server event in
          let '(final, rest) := run server' events in
          (final, Arrived event :: map Did actions ++ rest)).
  destruct (handle server event) as [server' actions].
  specialize (IH server' _ Hinv'). destruct (run server' events) as [final rest].
  cbn [fst snd] in *. by rewrite <- app_assoc, <- app_comm_cons in IH.
Qed.

Lemma flagsCount_new : flagsCount newServer [].
Proof. intros c. unfold newServer. simpl. rewrite lookup_empty. by split. Qed.

(** C9 (as amended). The timer fires every 30 s, and a firing pings
    exactly the sockets whose flag is set and terminates exactly those
    whose flag is cleared, releasing their subscriptions. In every run of
    the server a socket is terminated only at a moment when exactly one
    ping to it has gone unanswered since its last pong or its
    connection; after any run, the next firing pings and spares a
    connected socket with no ping unanswered, and terminates one with a
    single ping unanswered. One missed ping suffices. *)
Theorem heartbeat_single_miss (events : list Event) :
  HEARTBEAT_INTERVAL_MS = 30000%Z ∧
  (∀ pre c post,
     (run newServer events).2 = pre ++ Did (Terminate c) :: post →
     unansweredPings c pre 0 = 1%nat) ∧
  (∀ server c,
     (Terminate c ∈ (heartbeat server).2 ↔ clients server !! c = Some false) ∧
     (Ping c ∈ (heartbeat server).2 ↔ clients server !! c = Some true)) ∧
  (∀ c, is_Some (clients (run newServer events).1 !! c) →
     (unansweredPings c (run newServer events).2 0 = 0%nat →
      Ping c ∈ (heartbeat (run newServer events).1).2 ∧
      Terminate c ∉ (heartbeat (run newServer events).1).2) ∧
     (unansweredPings c (run newServer events).2 0 = 1%nat →
      Terminate c ∈ (heartbeat (run newServer events).1).2)) ∧
  (∀ server c channel,
     clients server !! c = Some false →
     clients (heartbeat server).1 !! c = None ∧
     (c, channel) ∉ subscriptionManager (heartbeat server).1).
Proof.
  split; [done|]. split.
  { intros pre c post Hrun.
    by apply (run_terminate events newServer [] pre c post flagsCount_new). }
  split; [apply heartbeat_actions|]. split.
  { intros c [b Hb].
    destruct (run_flagsCount events newServer [] flagsCount_new c) as [Htrue Hfalse].
    simpl in Htrue, Hfalse.
    destruct (heartbeat_actions (run newServer events).1 c) as [Hterm Hping].
    destruct b; split; intros Hcount.
    - split; [by apply Hping|]. rewrite Hterm, Hb. done.
    - rewrite Htrue in Hcount; done.
    - rewrite Hfalse in Hcount; done.
    - by apply Hterm. }
  intros server c channel Hc.
  destruct (heartbeat_spec server) as (_ & Hclients & Hsubs).
  split; [by rewrite Hclients, Hc|].
  rewrite Hsubs. by intros [_ ?].
Qed.

Lemma heartbeat_single_miss_witness :
  (run newServer [Connection 1; Tick; Tick]).2
  = [Arrived (Connection 1); Arrived Tick; Did (Ping 1); Arrived Tick]
    ++ Did (Terminate 1) :: [] ∧
  unansweredPings 1
    [Arrived (Connection 1); Arrived Tick; Did (Ping 1); Arrived Tick] 0 = 1%nat.
Proof.
  assert (Hrun : (run newServer [Connection 1; Tick; Tick]).2
                 = [Arrived (Connection 1); Arrived Tick; Did (Ping 1); Arrived Tick]
                   ++ Did (Terminate 1) :: []).
  { vm_compute. reflexivity. }
  split; [exact Hrun|].
  exact (proj1 (proj2 (heartbeat_single_miss [Connection 1; Tick; Tick])) _ _ _ Hrun).
Defined.

(** A socket that connects and never answers is pinged at the first
    firing and terminated at the second: one ping was sent to it, not
    two. *)
Lemma heartbeat_counterexample :
  (run newServer [Connection 1; Tick; Tick]).2
  = [Arrived (Connection 1); Arrived Tick; Did (Ping 1); Arrived Tick; Did (Terminate 1)] ∧
  unansweredPings 1
    [Arrived (Connection 1); Arrived Tick; Did (Ping 1); Arrived Tick] 0 = 1%nat ∧
  ¬ (2 ≤ unansweredPings 1
           [Arrived (Connection 1); Arrived Tick; Did (Ping 1); Arrived Tick] 0)%nat.
Proof. split; [by vm_compute|]. split; [by vm_compute|vm_compute; lia]. Qed.

End HeartbeatFacts.

(** * The books between submissions *)

Section BookFacts.

Import Engine.

(** The buy comparator orders by price, highest first, then by time. *)
Lemma compareBuys_before a b :
  JS.before compareBuys a b ↔
  price b < price a ∨ (price a = price b ∧ timestamp a ≤ timestamp b).
Proof.
  unfold JS.before, compareBuys, JS.Number.
  destruct (Z.eqb_spec (price a) (price b)); simpl; lia.
Qed.

Lemma compareBuys_total a b : JS.before compareBuys a b ∨ JS.before compareBuys b a.
Proof. rewrite !compareBuys_before. lia. Qed.

Lemma compareBuys_trans a b c :
  JS.before compareBuys a b → JS.before compareBuys b c → JS.before compareBuys a c.
Proof. rewrite !compareBuys_before. lia. Qed.

Lemma buys_sorted (l : list PrivateOrder) :
  StronglySorted (JS.before compareBuys) (JS.Array_sort compareBuys l).
Proof. apply Array_sort_sorted; [apply compareBuys_total|apply compareBuys_trans]. Qed.

Section Rest.
Variable generateMatchId : nat → string.
Variable Date_now : nat → Z.

(** The inner loop gives up only when every sell is claimed, priced
    above the buy or of another quantity. *)
Lemma findSell_None buy claimed sells : ∀ j,
  findSell buy claimed j sells = None →
  ∀ n s, sells !! n = Some s →
    (j + n)%nat ∈ claimed ∨ price buy < price s ∨ quantity buy ≠ quantity s.
Proof.
  induction sells as [|x sells IH]; intros j Hnone n s Hn; [done|].
  simpl in Hnone.
  assert (Hx : j ∈ claimed ∨ price buy < price x ∨ quantity buy ≠ quantity x).
  { destruct (decide (j ∈ claimed)); [by left|].
    destruct (Z.ltb_spec (price buy) (price x)); [by auto|].
    destruct (Z.eqb_spec (quantity buy) (quantity x)); [done|by auto]. }
  assert (Hrec : findSell buy claimed (S j) sells = None).
  { destruct (decide (j ∈ claimed)); [done|].
    destruct (price buy <? price x); [done|].
    by destruct (quantity buy =? quantity x). }
  destruct n as [|n]; simpl in Hn.
  - injection Hn as <-. by rewrite Nat.add_0_r.
  - replace (j + S n)%nat with (S j + n)%nat by lia. by eapply IH.
Qed.

(** What the outer loop leaves behind: claims only grow, and a buy and
    a sell that both end unclaimed are not a pair the loop would take. *)
Lemma matchLoop_rest sells buys : ∀ i st,
  let st' := matchLoop generateMatchId Date_now sells i buys st in
  (∀ k, k ∈ matchedBuys st → k ∈ matchedBuys st') ∧
  (∀ k, k ∈ matchedSells st → k ∈ matchedSells st') ∧
  ∀ n b, buys !! n = Some b → (i + n)%nat ∉ matchedBuys st' →
    ∀ j s, sells !! j = Some s → j ∉ matchedSells st' →
      price b < price s ∨ quantity b ≠ quantity s.
Proof.
  induction buys as [|b0 buys IH]; intros i st; simpl; [done|].
  destruct (decide (i ∈ matchedBuys st)) as [Hin|Hnotin].
  { destruct (IH (S i) st) as (Hb & Hs & Hrest). split; [done|]. split; [done|].
    intros [|n] b Hn Hfree; simpl in Hn.
    - rewrite Nat.add_0_r in Hfree. by destruct Hfree; apply Hb.
    - replace (i + S n)%nat with (S i + n)%nat in Hfree by lia. by eapply Hrest. }
  destruct (findSell b0 (matchedSells st) 0 sells) as [[j0 s0]|] eqn:Hfind.
  - set (st1 := {| matchedBuys := {[i]} ∪ matchedBuys st;
                   matchedSells := {[j0]} ∪ matchedSells st;
                   queue := _; completed := _ |}).
    destruct (IH (S i) st1) as (Hb & Hs & Hrest).
    split; [intros k Hk; by apply Hb, elem_of_union_r|].
    split; [intros k Hk; by apply Hs, elem_of_union_r|].
    intros [|n] b Hn Hfree; simpl in Hn.
    + rewrite Nat.add_0_r in Hfree. destruct Hfree.
      by apply Hb, elem_of_union_l, elem_of_singleton.
    + replace (i + S n)%nat with (S i + n)%nat in Hfree by lia. by eapply Hrest.
  - destruct (IH (S i) st) as (Hb & Hs & Hrest). split; [done|]. split; [done|].
    intros [|n] b Hn Hfree; simpl in Hn.
    + injection Hn as <-. intros j s Hj Hjfree.
      destruct (findSell_None _ _ _ _ Hfind j s Hj) as [Hc|?]; [|done].
      destruct Hjfree. by apply Hs.
    + replace (i + S n)%nat with (S i + n)%nat in Hfree by lia. by eapply Hrest.
Qed.

(** The matches of one pass take their buys in the order of the sorted
    array. *)
Lemma matchLoop_order sells buys : ∀ i st,
  let st' := matchLoop generateMatchId Date_now sells i buys st in
  ∃ new, completed st' = completed st ++ new ∧ sublist (map buyOrder new) buys.
Proof.
  induction buys as [|b0 buys IH]; intros i st; simpl.
  { exists []. by rewrite app_nil_r. }
  assert (Hskip : ∀ st0,
    ∃ new, completed (matchLoop generateMatchId Date_now sells (S i) buys st0)
           = completed st0 ++ new ∧ sublist (map buyOrder new) (b0 :: buys)).
  { intros st0. destruct (IH (S i) st0) as (new & Hc & Hsub). exists new.
    split; [done|]. by apply sublist_cons. }
  destruct (decide (i ∈ matchedBuys st)); [apply Hskip|].
  destruct (findSell b0 (matchedSells st) 0 sells) as [[j0 s0]|] eqn:Hfind; [|apply Hskip].
  set (m0 := makeMatch generateMatchId Date_now (length (completed st)) b0 s0).
  set (st1 := {| matchedBuys := {[i]} ∪ matchedBuys st;
                 matchedSells := {[j0]} ∪ matchedSells st;
                 queue := queue st ++ [m0]; completed := completed st ++ [m0] |}).
  destruct (IH (S i) st1) as (new & Hc & Hsub).
  exists (m0 :: new). split; [by rewrite Hc; simpl; rewrite <- app_assoc|].
  simpl. by apply sublist_skip.
Qed.

End Rest.

Lemma StronglySorted_sublist {A} (R : A → A → Prop) (l1 l2 : list A) :
  sublist l1 l2 → StronglySorted R l2 → StronglySorted R l1.
Proof.
  induction 1 as [|x l1 l2 Hsub IH|x l1 l2 Hsub IH]; intros Hs; [done|..].
  - apply StronglySorted_inv in Hs as [Hs Hx]. constructor; [by apply IH|].
    rewrite Forall_forall in Hx |- *. intros y Hy. apply Hx. by eapply elem_of_sublist.
  - apply StronglySorted_inv in Hs as [Hs _]. by apply IH.
Qed.

Lemma StronglySorted_split {A} (R : A → A → Prop) (pre mid post : list A) a b :
  StronglySorted R (pre ++ a :: mid ++ b :: post) → R a b.
Proof.
  intros Hs. apply StronglySorted_app_1_r in Hs.
  apply StronglySorted_inv in Hs as [_ Ha]. rewrite Forall_forall in Ha.
  apply Ha, elem_of_app. right. apply list_elem_of_here.
Qed.

Lemma length_zero_nil {A} (l : list A) : (length l =? 0)%nat = true → l = [].
Proof. by destruct l. Qed.

Section Passes.
Variable generateMatchId : nat → string.
Variable Date_now : nat → Z.

(** One pass of [matchOrders], read on the books of its asset. *)
Lemma matchOrders_pass asset e :
  let e' := matchOrders generateMatchId Date_now asset e in
  ∃ new,
    completedMatches e' = completedMatches e ++ new ∧
    matchQueue e' = matchQueue e ++ new ∧
    restingBuys asset e ≡ₚ map buyOrder new ++ restingBuys asset e' ∧
    restingSells asset e ≡ₚ map sellOrder new ++ restingSells asset e' ∧
    (∀ other, other ≠ asset →
       restingBuys other e' = restingBuys other e ∧
       restingSells other e' = restingSells other e) ∧
    (∀ m, m ∈ new → price (sellOrder m) ≤ price (buyOrder m) ∧
                    quantity (buyOrder m) = quantity (sellOrder m)) ∧
    StronglySorted (JS.before compareBuys) (map buyOrder new) ∧
    (∀ b s, b ∈ restingBuys asset e' → s ∈ restingSells asset e' →
            price b < price s ∨ quantity b ≠ quantity s).
Proof.
  unfold matchOrders, restingBuys, restingSells.
  destruct ((length (default [] (buyOrders e !! asset)) =? 0)%nat
            || (length (default [] (sellOrders e !! asset)) =? 0)%nat) eqn:Hempty.
  { exists []. rewrite !app_nil_r. simpl.
    split; [done|]. split; [done|]. split; [done|]. split; [done|].
    split; [done|]. split; [by intros m ?%elem_of_nil|]. split; [constructor|].
    intros b s Hb Hs. apply orb_true_iff in Hempty as [H|H];
      apply length_zero_nil in H; rewrite H in *; by apply elem_of_nil in Hb || apply elem_of_nil in Hs. }
  set (buys := JS.Array_sort compareBuys (default [] (buyOrders e !! asset))).
  set (sells := JS.Array_sort compareSells (default [] (sellOrders e !! asset))).
  set (st0 := {| matchedBuys := ∅; matchedSells := ∅;
                 queue := matchQueue e; completed := completedMatches e |}).
  destruct (matchLoop_spec generateMatchId Date_now sells buys 0 st0)
    as (new & Hc & Hq & _ & _ & Hb & Hs & Hfound).
  { intros k Hk. by apply elem_of_empty in Hk. }
  destruct (matchLoop_order generateMatchId Date_now sells buys 0 st0)
    as (new' & Hc' & Hsub).
  destruct (matchLoop_rest generateMatchId Date_now sells buys 0 st0)
    as (_ & _ & Hrest).
  rewrite Hc in Hc'. apply app_inv_head in Hc'. subst new'.
  assert (Hall : ∀ (l : list PrivateOrder),
             JS.filterIndex (notClaimed ∅) 0 l = l).
  { intros l. rewrite <- (filterIndex_all 0 l) at 2. apply filterIndex_ext.
    intros k _. apply bool_decide_eq_true_2, not_elem_of_empty. }
  simpl in Hs, Hfound. rewrite Hall in Hs.
  exists new. cbn [completedMatches matchQueue buyOrders sellOrders].
  rewrite !lookup_insert_eq. cbn [default].
  split; [done|]. split; [done|].
  split; [by rewrite <- Hb; symmetry; apply Array_sort_perm|].
  split; [by rewrite <- Hs; symmetry; apply Array_sort_perm|].
  split; [intros other Hne; by rewrite !lookup_insert_ne|].
  split.
  { intros m [pre [post ->]]%list_elem_of_split.
    destruct (Hfound pre m post eq_refl) as (claimed & j & _ & Hfind & _).
    destruct (findSell_spec _ _ _ _ _ _ Hfind) as (n & _ & _ & _ & ? & ? & _). done. }
  split; [eapply StronglySorted_sublist; [exact Hsub|apply buys_sorted]|].
  intros b s Hbin Hsin.
  apply filterIndex_elem in Hbin as (n & Hn & Hnfree).
  apply filterIndex_elem in Hsin as (j & Hj & Hjfree).
  apply bool_decide_eq_true_1 in Hnfree, Hjfree.
  by eapply (Hrest n b).
Qed.

(** The books after [push]: the order joins the list of its asset. *)
Lemma pushOrder_lookup order orders asset :
  default [] (pushOrder order orders !! asset)
  = if decide (asset = assetAddress order)
    then default [] (orders !! asset) ++ [order]
    else default [] (orders !! asset).
Proof.
  unfold pushOrder. destruct (decide (asset = assetAddress order)) as [->|Hne].
  - by rewrite lookup_insert_eq.
  - by rewrite lookup_insert_ne.
Qed.

(** A submission, read on the books asset by asset. *)
Lemma submitOrder_pass order e :
  let e' := submitOrder generateMatchId Date_now order e in
  let asset := assetAddress order in
  ∃ new,
    completedMatches e' = completedMatches e ++ new ∧
    matchQueue e' = matchQueue e ++ new ∧
    (if side order =? OrderSide_Buy
     then restingBuys asset e ++ [order] ≡ₚ map buyOrder new ++ restingBuys asset e' ∧
          restingSells asset e ≡ₚ map sellOrder new ++ restingSells asset e'
     else restingBuys asset e ≡ₚ map buyOrder new ++ restingBuys asset e' ∧
          restingSells asset e ++ [order] ≡ₚ map sellOrder new ++ restingSells asset e') ∧
    (∀ other, other ≠ asset →
       restingBuys other e' = restingBuys other e ∧
       restingSells other e' = restingSells other e) ∧
    (∀ m, m ∈ new → price (sellOrder m) ≤ price (buyOrder m) ∧
                    quantity (buyOrder m) = quantity (sellOrder m)) ∧
    StronglySorted (JS.before compareBuys) (map buyOrder new) ∧
    (∀ b s, b ∈ restingBuys asset e' → s ∈ restingSells asset e' →
            price b < price s ∨ quantity b ≠ quantity s).
Proof.
  unfold submitOrder. cbv zeta.
  assert (Hown : ∀ orders, default [] (pushOrder order orders !! assetAddress order)
                           = default [] (orders !! assetAddress order) ++ [order]).
  { intros orders. by rewrite pushOrder_lookup, decide_True. }
  assert (Hothers : ∀ orders other, other ≠ assetAddress order →
            default [] (pushOrder order orders !! other) = default [] (orders !! other)).
  { intros orders other Hne. by rewrite pushOrder_lookup, decide_False. }
  destruct (side order =? OrderSide_Buy) eqn:Hside;
    match goal with
    | |- context [matchOrders _ _ _ ?e1] =>
        destruct (matchOrders_pass (assetAddress order) e1)
          as (new & Hc & Hq & Hb & Hs & Hother & Hpair & Hsorted & Hquiet)
    end;
    exists new; cbn [completedMatches matchQueue] in Hc, Hq;
    (split; [done|]); (split; [done|]).
  - split.
    { rewrite <- Hb, <- Hs. unfold restingBuys, restingSells. cbn [buyOrders sellOrders].
      by rewrite Hown. }
    split; [|done].
    intros other Hne. destruct (Hother other Hne) as [-> ->].
    unfold restingBuys, restingSells. cbn [buyOrders sellOrders]. by rewrite Hothers.
  - split.
    { rewrite <- Hb, <- Hs. unfold restingBuys, restingSells. cbn [buyOrders sellOrders].
      by rewrite Hown. }
    split; [|done].
    intros other Hne. destruct (Hother other Hne) as [-> ->].
    unfold restingBuys, restingSells. cbn [buyOrders sellOrders]. by rewrite Hothers.
Qed.

End Passes.

Section Books.
Variable generateMatchId : nat → string.
Variable Date_now : nat → Z.

Lemma resting_new asset :
  restingBuys asset newEngine = [] ∧ restingSells asset newEngine = [].
Proof. unfold restingBuys, restingSells. simpl. by rewrite lookup_empty. Qed.

(** The books are quiet after any sequence of submissions. *)
Lemma submitAll_quiet (orders : list PrivateOrder) (asset : string) (b s : PrivateOrder) :
  b ∈ restingBuys asset (submitAll generateMatchId Date_now orders) →
  s ∈ restingSells asset (submitAll generateMatchId Date_now orders) →
  price b < price s ∨ quantity b ≠ quantity s.
Proof.
  revert asset b s. induction orders as [|order orders IH] using rev_ind; intros asset b s.
  { change (submitAll generateMatchId Date_now []) with newEngine.
    destruct (resting_new asset) as [-> _]. by intros ?%elem_of_nil. }
  rewrite submitAll_snoc.
  destruct (submitOrder_pass generateMatchId Date_now order (submitAll generateMatchId Date_now orders))
    as (new & _ & _ & _ & Hother & _ & _ & Hquiet).
  destruct (decide (asset = assetAddress order)) as [->|Hne]; [apply Hquiet|].
  destruct (Hother asset Hne) as [-> ->]. apply IH.
Qed.

(** X1. After any sequence of submissions no asset's book rests a buy
    and a sell that the matcher would pair: of any resting buy and any
    resting sell of one asset, the sell is priced above the buy or
    their quantities differ. *)
Theorem no_pair_rests (orders : list PrivateOrder) (asset : string) (b s : PrivateOrder) :
  b ∈ restingBuys asset (submitAll generateMatchId Date_now orders) →
  s ∈ restingSells asset (submitAll generateMatchId Date_now orders) →
  price b < price s ∨ quantity b ≠ quantity s.
Proof. apply submitAll_quiet. Qed.

(** The books keep sides and assets apart. *)
Lemma books_sorted_in (orders : list PrivateOrder) (asset : string) (o : PrivateOrder) :
  (o ∈ restingBuys asset (submitAll generateMatchId Date_now orders) →
   (side o =? OrderSide_Buy) = true ∧ assetAddress o = asset) ∧
  (o ∈ restingSells asset (submitAll generateMatchId Date_now orders) →
   (side o =? OrderSide_Buy) = false ∧ assetAddress o = asset).
Proof.
  revert asset o. induction orders as [|order orders IH] using rev_ind; intros asset o.
  { change (submitAll generateMatchId Date_now []) with newEngine.
    destruct (resting_new asset) as [-> ->]. split; by intros ?%elem_of_nil. }
  rewrite submitAll_snoc.
  destruct (submitOrder_pass generateMatchId Date_now order (submitAll generateMatchId Date_now orders))
    as (new & _ & _ & Hbooks & Hother & _).
  destruct (decide (asset = assetAddress order)) as [->|Hne]; cycle 1.
  { destruct (Hother asset Hne) as [-> ->]. apply IH. }
  destruct (side order =? OrderSide_Buy) eqn:Hside; destruct Hbooks as [Hb Hs]; split; intros Hin.
  - assert (Hin' : o ∈ restingBuys (assetAddress order) (submitAll generateMatchId Date_now orders) ++ [order]).
    { rewrite Hb. apply elem_of_app. by right. }
    apply elem_of_app in Hin' as [Hin'|Hin']; [by apply IH|].
    apply list_elem_of_singleton in Hin' as ->. done.
  - apply IH. rewrite Hs. apply elem_of_app. by right.
  - apply IH. rewrite Hb. apply elem_of_app. by right.
  - assert (Hin' : o ∈ restingSells (assetAddress order) (submitAll generateMatchId Date_now orders) ++ [order]).
    { rewrite Hs. apply elem_of_app. by right. }
    apply elem_of_app in Hin' as [Hin'|Hin']; [by apply IH|].
    apply list_elem_of_singleton in Hin' as ->. done.
Qed.

(** X2. After any sequence of submissions the buy book of an asset
    holds only orders of that asset submitted with side [Buy], and its
    sell book only orders of that asset submitted with any other side:
    [submitOrder] never checks that a side is 0 or 1, and whatever is
    not 0 is sold. *)
Theorem books_by_side_and_asset (orders : list PrivateOrder) (asset : string)
    (o : PrivateOrder) :
  (o ∈ restingBuys asset (submitAll generateMatchId Date_now orders) →
   side o = OrderSide_Buy ∧ assetAddress o = asset) ∧
  (o ∈ restingSells asset (submitAll generateMatchId Date_now orders) →
   side o ≠ OrderSide_Buy ∧ assetAddress o = asset).
Proof.
  destruct (books_sorted_in orders asset o) as [Hb Hs].
  split; intros Hin.
  - destruct (Hb Hin) as [?%Z.eqb_eq ?]. done.
  - destruct (Hs Hin) as [?%Z.eqb_neq ?]. done.
Qed.

(** What a submission can do to books that rest no pair: nothing but
    rest the order, or pair it with one order that rested on the other
    side. *)
Lemma submitOrder_once_quiet (e : DarkPoolMatchingEngine) (order : PrivateOrder) :
  (∀ asset b s, b ∈ restingBuys asset e → s ∈ restingSells asset e →
                price b < price s ∨ quantity b ≠ quantity s) →
  let e' := submitOrder generateMatchId Date_now order e in
  let asset := assetAddress order in
  ∃ new,
    completedMatches e' = completedMatches e ++ new ∧
    matchQueue e' = matchQueue e ++ new ∧
    (new = [] ∨
     ∃ m, new = [m] ∧
          if side order =? OrderSide_Buy
          then buyOrder m = order ∧ sellOrder m ∈ restingSells asset e
          else sellOrder m = order ∧ buyOrder m ∈ restingBuys asset e) ∧
    (if side order =? OrderSide_Buy
     then restingBuys asset e ++ [order] ≡ₚ map buyOrder new ++ restingBuys asset e' ∧
          restingSells asset e ≡ₚ map sellOrder new ++ restingSells asset e'
     else restingBuys asset e ≡ₚ map buyOrder new ++ restingBuys asset e' ∧
          restingSells asset e ++ [order] ≡ₚ map sellOrder new ++ restingSells asset e').
Proof.
  intros Hrests e' asset.
  destruct (submitOrder_pass generateMatchId Date_now order e)
    as (new & Hc & Hq & Hbooks & _ & Hpair & _).
  fold e' asset in Hc, Hq, Hbooks.
  exists new. split; [done|]. split; [done|]. split; [|done].
  assert (Hquiet : ∀ b s, b ∈ restingBuys asset e → s ∈ restingSells asset e →
                           ¬ (price s ≤ price b ∧ quantity b = quantity s)).
  { intros b s Hb Hs [Hp Hqty].
    destruct (Hrests asset b s Hb Hs); [lia|done]. }
  destruct (side order =? OrderSide_Buy) eqn:Hside; destruct Hbooks as [Hb Hs].
  - (* a buy: every new match takes it, so there is at most one *)
    assert (Hmine : ∀ m, m ∈ new → buyOrder m = order ∧ sellOrder m ∈ restingSells asset e).
    { intros m Hm.
      assert (Hsin : sellOrder m ∈ restingSells asset e).
      { rewrite Hs. apply elem_of_app. left. apply list_elem_of_fmap. by exists m. }
      split; [|done].
      assert (Hbin : buyOrder m ∈ restingBuys asset e ++ [order]).
      { rewrite Hb. apply elem_of_app. left. apply list_elem_of_fmap. by exists m. }
      apply elem_of_app in Hbin as [Hbin|Hbin%list_elem_of_singleton]; [|done].
      destruct (Hquiet _ _ Hbin Hsin). destruct (Hpair m Hm). done. }
    destruct new as [|m1 [|m2 new]]; [by left|right..].
    + exists m1. split; [done|]. apply Hmine, list_elem_of_here.
    + exfalso.
      destruct (Hmine m1) as [H1 Hs1]; [apply list_elem_of_here|].
      destruct (Hmine m2) as [H2 _]; [apply list_elem_of_further, list_elem_of_here|].
      simpl in Hb. rewrite H1, H2 in Hb.
      rewrite <- Permutation_cons_append in Hb. apply Permutation_cons_inv in Hb.
      apply (Hquiet order (sellOrder m1)); [|done|].
      * rewrite Hb. apply list_elem_of_here.
      * destruct (Hpair m1) as [? ?]; [apply list_elem_of_here|]. by rewrite <- H1.
  - (* a sell *)
    assert (Hmine : ∀ m, m ∈ new → sellOrder m = order ∧ buyOrder m ∈ restingBuys asset e).
    { intros m Hm.
      assert (Hbin : buyOrder m ∈ restingBuys asset e).
      { rewrite Hb. apply elem_of_app. left. apply list_elem_of_fmap. by exists m. }
      split; [|done].
      assert (Hsin : sellOrder m ∈ restingSells asset e ++ [order]).
      { rewrite Hs. apply elem_of_app. left. apply list_elem_of_fmap. by exists m. }
      apply elem_of_app in Hsin as [Hsin|Hsin%list_elem_of_singleton]; [|done].
      destruct (Hquiet _ _ Hbin Hsin). destruct (Hpair m Hm). done. }
    destruct new as [|m1 [|m2 new]]; [by left|right..].
    + exists m1. split; [done|]. apply Hmine, list_elem_of_here.
    + exfalso.
      destruct (Hmine m1) as [H1 Hb1]; [apply list_elem_of_here|].
      destruct (Hmine m2) as [H2 _]; [apply list_elem_of_further, list_elem_of_here|].
      simpl in Hs. rewrite H1, H2 in Hs.
      rewrite <- Permutation_cons_append in Hs. apply Permutation_cons_inv in Hs.
      apply (Hquiet (buyOrder m1) order); [done| |].
      * rewrite Hs. apply list_elem_of_here.
      * destruct (Hpair m1) as [? ?]; [apply list_elem_of_here|]. by rewrite <- H1.
Qed.

Lemma submitOrder_once (orders : list PrivateOrder) (order : PrivateOrder) :
  let e := submitAll generateMatchId Date_now orders in
  let e' := submitOrder generateMatchId Date_now order e in
  let asset := assetAddress order in
  ∃ new,
    completedMatches e' = completedMatches e ++ new ∧
    matchQueue e' = matchQueue e ++ new ∧
    (new = [] ∨
     ∃ m, new = [m] ∧
          if side order =? OrderSide_Buy
          then buyOrder m = order ∧ sellOrder m ∈ restingSells asset e
          else sellOrder m = order ∧ buyOrder m ∈ restingBuys asset e) ∧
    (if side order =? OrderSide_Buy
     then restingBuys asset e ++ [order] ≡ₚ map buyOrder new ++ restingBuys asset e' ∧
          restingSells asset e ≡ₚ map sellOrder new ++ restingSells asset e'
     else restingBuys asset e ≡ₚ map buyOrder new ++ restingBuys asset e' ∧
          restingSells asset e ++ [order] ≡ₚ map sellOrder new ++ restingSells asset e').
Proof. apply submitOrder_once_quiet, submitAll_quiet. Qed.

(** X3. A submission, after any sequence of submissions, emits at most
    one match. When it emits none, the order rests in the book of its
    side and asset. When it emits one, the match binds the submitted
    order to an order that rested on the other side of the same asset,
    and the book of the order's own side is as before. *)
Theorem submission_matches_once (orders : list PrivateOrder) (order : PrivateOrder) :
  let e := submitAll generateMatchId Date_now orders in
  let e' := submitOrder generateMatchId Date_now order e in
  let asset := assetAddress order in
  (completedMatches e' = completedMatches e ∧
   if side order =? OrderSide_Buy
   then restingBuys asset e' ≡ₚ restingBuys asset e ++ [order]
   else restingSells asset e' ≡ₚ restingSells asset e ++ [order]) ∨
  (∃ m, completedMatches e' = completedMatches e ++ [m] ∧
        if side order =? OrderSide_Buy
        then buyOrder m = order ∧ sellOrder m ∈ restingSells asset e ∧
             restingBuys asset e' ≡ₚ restingBuys asset e
        else sellOrder m = order ∧ buyOrder m ∈ restingBuys asset e ∧
             restingSells asset e' ≡ₚ restingSells asset e).
Proof.
  intros e e' asset.
  destruct (submitOrder_once orders order) as (new & Hc & _ & [->|(m & -> & Hm)] & Hbooks);
    fold e e' asset in Hc, Hbooks |- *.
  - left. rewrite app_nil_r in Hc. split; [done|].
    destruct (side order =? OrderSide_Buy); destruct Hbooks as [Hb Hs]; simpl in *; done.
  - right. exists m. split; [done|]. fold e asset in Hm.
    destruct (side order =? OrderSide_Buy); destruct Hbooks as [Hb Hs], Hm as [Hm1 Hm2];
      simpl in Hb, Hs.
    + split; [done|]. split; [done|]. rewrite Hm1 in Hb.
      rewrite <- Permutation_cons_append in Hb. by apply Permutation_cons_inv in Hb.
    + split; [done|]. split; [done|]. rewrite Hm1 in Hs.
      rewrite <- Permutation_cons_append in Hs. by apply Permutation_cons_inv in Hs.
Qed.

(** X4. Every match in the log, after any sequence of submissions,
    binds an order submitted with side [Buy] to an order submitted with
    another side, both of the same asset. *)
Theorem matches_within_asset (orders : list PrivateOrder) (m : Match) :
  m ∈ completedMatches (submitAll generateMatchId Date_now orders) →
  side (buyOrder m) = OrderSide_Buy ∧ side (sellOrder m) ≠ OrderSide_Buy ∧
  assetAddress (buyOrder m) = assetAddress (sellOrder m).
Proof.
  revert m. induction orders as [|order orders IH] using rev_ind; intros m.
  { by intros ?%elem_of_nil. }
  rewrite submitAll_snoc.
  destruct (submitOrder_once orders order) as (new & -> & _ & Hnew & _).
  intros [Hold|Hin]%elem_of_app; [by apply IH|].
  destruct Hnew as [->|(m' & -> & Hm')]; [by apply elem_of_nil in Hin|].
  apply list_elem_of_singleton in Hin as ->.
  destruct (side order =? OrderSide_Buy) eqn:Hside; destruct Hm' as [Hmine Hrested].
  - apply (books_sorted_in orders) in Hrested as [?%Z.eqb_neq ?].
    rewrite Hmine. apply Z.eqb_eq in Hside. done.
  - apply (books_sorted_in orders) in Hrested as [?%Z.eqb_eq ?].
    rewrite Hmine. apply Z.eqb_neq in Hside. done.
Qed.

End Books.

Section Priority.
Variable generateMatchId : nat → string.
Variable Date_now : nat → Z.

(** The first match of a pass goes to the first buy of the sorted array
    that some unclaimed sell fits. *)
Lemma matchLoop_first sells buys : ∀ i st m rest,
  (∀ k, k ∈ matchedBuys st → (k < i)%nat) →
  completed (matchLoop generateMatchId Date_now sells i buys st)
    = completed st ++ m :: rest →
  ∃ n j, buys !! n = Some (buyOrder m) ∧
    findSell (buyOrder m) (matchedSells st) 0 sells = Some (j, sellOrder m) ∧
    ∀ n' b', (n' < n)%nat → buys !! n' = Some b' →
      ∀ j s, sells !! j = Some s → j ∉ matchedSells st →
        price b' < price s ∨ quantity b' ≠ quantity s.
Proof.
  induction buys as [|b0 buys IH]; intros i st m rest Hbelow Hlog; simpl in Hlog.
  { rewrite <- (app_nil_r (completed st)) in Hlog at 1. by apply app_inv_head in Hlog. }
  destruct (decide (i ∈ matchedBuys st)) as [Hin|_].
  { apply Hbelow in Hin. lia. }
  destruct (findSell b0 (matchedSells st) 0 sells) as [[j0 s0]|] eqn:Hfind.
  - set (m0 := makeMatch generateMatchId Date_now (length (completed st)) b0 s0) in *.
    set (st1 := {| matchedBuys := {[i]} ∪ matchedBuys st;
                   matchedSells := {[j0]} ∪ matchedSells st;
                   queue := queue st ++ [m0]; completed := completed st ++ [m0] |}) in *.
    destruct (matchLoop_order generateMatchId Date_now sells buys (S i) st1)
      as (new & Hc & _).
    rewrite Hc in Hlog. simpl in Hlog. rewrite <- app_assoc in Hlog.
    apply app_inv_head in Hlog. injection Hlog as <- _.
    exists 0%nat, j0. split; [done|]. split; [done|]. intros n' b' Hlt. lia.
  - destruct (IH (S i) st m rest) as (n & j & Hn & Hsell & Hbefore); [|done|].
    { intros k Hk. apply Hbelow in Hk. lia. }
    exists (S n), j. split; [done|]. split; [done|].
    intros [|n'] b' Hlt Hb' j1 s Hj Hfree; simpl in Hb'.
    + injection Hb' as <-.
      destruct (findSell_None _ _ _ _ Hfind j1 s Hj) as [?|?]; [done|done].
    + eapply Hbefore; [|done..]. lia.
Qed.

(** When a sell is submitted, on any state of the engine, and one match
    comes of it, no resting buy that the submitted sell fits comes
    before the buy of that match in the order of the buy book. *)
Lemma incoming_sell_best (e : DarkPoolMatchingEngine)
    (order : PrivateOrder) (m : Match) (b : PrivateOrder) :
  side order ≠ OrderSide_Buy →
  completedMatches (submitOrder generateMatchId Date_now order e)
    = completedMatches e ++ [m] →
  b ∈ restingBuys (assetAddress order) e →
  price order ≤ price b → quantity b = quantity order →
  price b ≤ price (buyOrder m) ∧
  (price b = price (buyOrder m) → timestamp (buyOrder m) ≤ timestamp b).
Proof.
  intros Hside Hlog Hb Hprice Hqty.
  unfold submitOrder in Hlog. apply Z.eqb_neq in Hside. rewrite Hside in Hlog.
  unfold matchOrders in Hlog. cbn [buyOrders sellOrders] in Hlog.
  rewrite pushOrder_lookup, decide_True in Hlog by done.
  fold (restingBuys (assetAddress order) e) in Hlog.
  fold (restingSells (assetAddress order) e) in Hlog.
  destruct ((length (restingBuys (assetAddress order) e) =? 0)%nat
            || (length (restingSells (assetAddress order) e ++ [order]) =? 0)%nat).
  { simpl in Hlog. rewrite <- (app_nil_r (completedMatches e)) in Hlog at 1.
    by apply app_inv_head in Hlog. }
  cbn [completedMatches matchQueue] in Hlog.
  set (buys := JS.Array_sort compareBuys (restingBuys (assetAddress order) e)) in *.
  set (sells := JS.Array_sort compareSells
                  (restingSells (assetAddress order) e ++ [order])) in *.
  destruct (matchLoop_first sells buys 0 _ m [] (λ k Hk, False_rect _ (not_elem_of_empty k Hk)) Hlog)
    as (n & _ & Hn & _ & Hbefore). cbn [matchedSells] in Hbefore.
  assert (Hbin : b ∈ buys) by (unfold buys; by rewrite Array_sort_perm).
  assert (Hoin : order ∈ sells).
  { unfold sells. rewrite Array_sort_perm. apply elem_of_app. right. apply list_elem_of_here. }
  apply list_elem_of_lookup in Hbin as [n' Hn'].
  apply list_elem_of_lookup in Hoin as [j Hj].
  assert (Hle : JS.before compareBuys (buyOrder m) b).
  { destruct (Nat.lt_trichotomy n' n) as [Hlt|[->|Hgt]].
    - destruct (Hbefore n' b Hlt Hn' j order Hj) as [?|?]; [apply not_elem_of_empty|lia|done].
    - rewrite Hn in Hn'. injection Hn' as <-. apply compareBuys_before. lia.
    - eapply StronglySorted_lookup_lt; [apply buys_sorted|done..]. }
  apply compareBuys_before in Hle. lia.
Qed.

(** X5. When a sell is submitted after any sequence of submissions and
    a match comes of it, the match pairs the submitted sell with a buy
    that rested in the book of the asset and that the sell fits (priced
    at or above the sell, same quantity), and of the resting buys the
    sell fits that buy has the best price, and among those at that
    price the earliest time stamp. *)
Theorem incoming_sell_takes_best_buy (orders : list PrivateOrder)
    (order : PrivateOrder) (m : Match) :
  let e := submitAll generateMatchId Date_now orders in
  side order ≠ OrderSide_Buy →
  completedMatches (submitOrder generateMatchId Date_now order e)
    = completedMatches e ++ [m] →
  sellOrder m = order ∧
  buyOrder m ∈ restingBuys (assetAddress order) e ∧
  price order ≤ price (buyOrder m) ∧
  quantity (buyOrder m) = quantity order ∧
  ∀ b, b ∈ restingBuys (assetAddress order) e →
       price order ≤ price b → quantity b = quantity order →
       price b ≤ price (buyOrder m) ∧
       (price b = price (buyOrder m) → timestamp (buyOrder m) ≤ timestamp b).
Proof.
  intros e Hside Hlog.
  destruct (submitOrder_once generateMatchId Date_now orders order)
    as (new & Hc & _ & Hnew & _). fold e in Hc, Hnew.
  destruct (submitOrder_pass generateMatchId Date_now order e)
    as (new' & Hc' & _ & _ & _ & Hpair & _).
  rewrite Hc in Hc'. apply app_inv_head in Hc'. subst new'.
  rewrite Hc in Hlog. apply app_inv_head in Hlog. subst new.
  destruct Hnew as [Hnil|(m' & [= <-] & Hmine)]; [done|].
  apply Z.eqb_neq in Hside as Hside'. rewrite Hside' in Hmine.
  destruct Hmine as [Hmine Hrested].
  destruct (Hpair m) as [Hprice Hqty]; [apply list_elem_of_here|].
  rewrite Hmine in Hprice, Hqty.
  split; [done|]. split; [done|]. split; [done|]. split; [done|].
  intros b Hb Hfits Hsame. by apply (incoming_sell_best e order m b).
Qed.

End Priority.

Lemma sublist_filter_mono {A} (P : A → Prop) `{!∀ x, Decision (P x)} (l1 l2 : list A) :
  sublist l1 l2 → sublist (filter P l1) (filter P l2).
Proof.
  induction 1 as [|x l1 l2 Hsub IH|x l1 l2 Hsub IH]; [done|..]; rewrite !filter_cons.
  - destruct (decide (P x)); [by apply sublist_skip|done].
  - destruct (decide (P x)); [by apply sublist_cons|done].
Qed.

Lemma filterIndex_sublist {A} (f : nat → bool) (l : list A) : ∀ i,
  sublist (JS.filterIndex f i l) l.
Proof.
  induction l as [|x l IH]; intros i; simpl; [done|].
  destruct (f i); [by apply sublist_skip|by apply sublist_cons].
Qed.

Lemma head_filter_first {A} (P : A → Prop) `{!∀ x, Decision (P x)} (l : list A) n x :
  l !! n = Some x → P x →
  (∀ n' y, (n' < n)%nat → l !! n' = Some y → ¬ P y) →
  head (filter P l) = Some x.
Proof.
  revert n. induction l as [|y l IH]; intros n Hn Hx Hfirst; [done|].
  rewrite filter_cons. destruct n as [|n]; simpl in Hn.
  - injection Hn as ->. by rewrite decide_True.
  - rewrite decide_False by (apply (Hfirst 0%nat); [lia|done]).
    apply (IH n); [done..|]. intros n' z Hlt Hz. apply (Hfirst (S n')); [lia|done].
Qed.

(** Two orders tie under either comparator when they have the same
    price and the same time stamp. *)
Lemma tie_sells pivot y :
  (compareSells pivot y <=? 0) && (compareSells y pivot <=? 0) = true ↔
  price y = price pivot ∧ timestamp y = timestamp pivot.
Proof.
  rewrite andb_true_iff, !Z.leb_le.
  pose proof (compareSells_before pivot y) as H1.
  pose proof (compareSells_before y pivot) as H2.
  unfold JS.before in H1, H2. rewrite H1, H2. lia.
Qed.

Lemma tie_buys pivot y :
  (compareBuys pivot y <=? 0) && (compareBuys y pivot <=? 0) = true ↔
  price y = price pivot ∧ timestamp y = timestamp pivot.
Proof.
  rewrite andb_true_iff, !Z.leb_le.
  pose proof (compareBuys_before pivot y) as H1.
  pose proof (compareBuys_before y pivot) as H2.
  unfold JS.before in H1, H2. rewrite H1, H2. lia.
Qed.

(** Sorting a book keeps the order within each tie. *)
Lemma sort_sells_ties pivot (l : list PrivateOrder) :
  filter (λ y, price y = price pivot ∧ timestamp y = timestamp pivot)
    (JS.Array_sort compareSells l)
  = filter (λ y, price y = price pivot ∧ timestamp y = timestamp pivot) l.
Proof.
  pose proof (Array_sort_stable compareSells compareSells_trans pivot l)
    as Hstable. cbv zeta in Hstable.
  rewrite <- (list_filter_iff _ _ _ (tie_sells pivot)).
  rewrite <- (list_filter_iff _ _ l (tie_sells pivot)). exact Hstable.
Qed.

Lemma sort_buys_ties pivot (l : list PrivateOrder) :
  filter (λ y, price y = price pivot ∧ timestamp y = timestamp pivot)
    (JS.Array_sort compareBuys l)
  = filter (λ y, price y = price pivot ∧ timestamp y = timestamp pivot) l.
Proof.
  pose proof (Array_sort_stable compareBuys compareBuys_trans pivot l)
    as Hstable. cbv zeta in Hstable.
  rewrite <- (list_filter_iff _ _ _ (tie_buys pivot)).
  rewrite <- (list_filter_iff _ _ l (tie_buys pivot)). exact Hstable.
Qed.

Lemma sort_sells_fitting (Q : PrivateOrder → Prop) `{!∀ x, Decision (Q x)} pivot
    (l : list PrivateOrder) :
  filter (λ y, Q y ∧ price y = price pivot ∧ timestamp y = timestamp pivot)
    (JS.Array_sort compareSells l)
  = filter (λ y, Q y ∧ price y = price pivot ∧ timestamp y = timestamp pivot) l.
Proof.
  rewrite <- !(list_filter_filter Q
    (λ y, price y = price pivot ∧ timestamp y = timestamp pivot)).
  by rewrite sort_sells_ties.
Qed.

Lemma sort_buys_fitting (Q : PrivateOrder → Prop) `{!∀ x, Decision (Q x)} pivot
    (l : list PrivateOrder) :
  filter (λ y, Q y ∧ price y = price pivot ∧ timestamp y = timestamp pivot)
    (JS.Array_sort compareBuys l)
  = filter (λ y, Q y ∧ price y = price pivot ∧ timestamp y = timestamp pivot) l.
Proof.
  rewrite <- !(list_filter_filter Q
    (λ y, price y = price pivot ∧ timestamp y = timestamp pivot)).
  by rewrite sort_buys_ties.
Qed.

Section Ties.
Variable generateMatchId : nat → string.
Variable Date_now : nat → Z.

(** A pass only removes orders from a tie and never reorders it. *)
Lemma matchOrders_ties asset e pivot other :
  let e' := matchOrders generateMatchId Date_now asset e in
  sublist
    (filter (λ y, price y = price pivot ∧ timestamp y = timestamp pivot) (restingBuys other e'))
    (filter (λ y, price y = price pivot ∧ timestamp y = timestamp pivot) (restingBuys other e)) ∧
  sublist
    (filter (λ y, price y = price pivot ∧ timestamp y = timestamp pivot) (restingSells other e'))
    (filter (λ y, price y = price pivot ∧ timestamp y = timestamp pivot) (restingSells other e)).
Proof.
  unfold matchOrders, restingBuys, restingSells.
  destruct ((length _ =? 0)%nat || (length _ =? 0)%nat); [done|].
  cbn [buyOrders sellOrders].
  destruct (decide (other = asset)) as [->|Hne].
  - rewrite !lookup_insert_eq. cbn [default]. split.
    + rewrite <- (sort_buys_ties pivot (default [] (buyOrders e !! asset))).
      apply sublist_filter_mono, filterIndex_sublist.
    + rewrite <- (sort_sells_ties pivot (default [] (sellOrders e !! asset))).
      apply sublist_filter_mono, filterIndex_sublist.
  - by rewrite !lookup_insert_ne.
Qed.

(** X27. Within a tie the books keep the order of arrival. After any
    sequence of submissions, the resting buys of an asset that share a
    price and a time stamp stand in the book in the order in which they
    were submitted, and so do the resting sells: re-sorting a book at
    every pass never exchanges two orders that compare equal. *)
Theorem ties_keep_arrival_order (orders : list PrivateOrder) (asset : string)
    (pivot : PrivateOrder) :
  let e := submitAll generateMatchId Date_now orders in
  sublist
    (filter (λ y, price y = price pivot ∧ timestamp y = timestamp pivot) (restingBuys asset e))
    orders ∧
  sublist
    (filter (λ y, price y = price pivot ∧ timestamp y = timestamp pivot) (restingSells asset e))
    orders.
Proof.
  cbv zeta. revert asset. induction orders as [|order orders IH] using rev_ind; intros asset.
  { change (submitAll generateMatchId Date_now []) with newEngine.
    destruct (resting_new asset) as [-> ->]. done. }
  rewrite submitAll_snoc. unfold submitOrder.
  set (e := submitAll generateMatchId Date_now orders) in *.
  set (e1 := if side order =? OrderSide_Buy then _ else _).
  destruct (matchOrders_ties (assetAddress order) e1 pivot asset) as [Hb Hs].
  destruct (IH asset) as [IHb IHs].
  assert (He1 :
    sublist (filter (λ y, price y = price pivot ∧ timestamp y = timestamp pivot)
               (restingBuys asset e1)) (orders ++ [order]) ∧
    sublist (filter (λ y, price y = price pivot ∧ timestamp y = timestamp pivot)
               (restingSells asset e1)) (orders ++ [order])).
  { unfold e1, restingBuys, restingSells.
    destruct (side order =? OrderSide_Buy); cbn [buyOrders sellOrders];
      rewrite pushOrder_lookup; destruct (decide (asset = assetAddress order));
      rewrite ?filter_app; split;
      try (by apply sublist_inserts_r);
      (apply sublist_app; [done|apply sublist_filter]). }
  destruct He1 as [He1b He1s]. split; etrans; done.
Qed.

(** The first match of a pass, on the sorted books. *)
Lemma matchOrders_first asset e m rest :
  completedMatches (matchOrders generateMatchId Date_now asset e)
    = completedMatches e ++ m :: rest →
  let buys := JS.Array_sort compareBuys (restingBuys asset e) in
  let sells := JS.Array_sort compareSells (restingSells asset e) in
  ∃ n j, buys !! n = Some (buyOrder m) ∧
    findSell (buyOrder m) ∅ 0 sells = Some (j, sellOrder m) ∧
    ∀ n' b', (n' < n)%nat → buys !! n' = Some b' →
      ∀ j s, sells !! j = Some s → price b' < price s ∨ quantity b' ≠ quantity s.
Proof.
  unfold matchOrders, restingBuys, restingSells. intros Hlog.
  destruct ((length _ =? 0)%nat || (length _ =? 0)%nat).
  { rewrite <- (app_nil_r (completedMatches e)) in Hlog at 1.
    by apply app_inv_head in Hlog. }
  cbn [completedMatches] in Hlog. cbv zeta.
  destruct (matchLoop_first generateMatchId Date_now _ _ 0 _ m rest
              (λ k Hk, False_rect _ (not_elem_of_empty k Hk)) Hlog)
    as (n & j & Hn & Hsell & Hbefore). cbn [matchedSells] in Hsell, Hbefore.
  exists n, j. split; [done|]. split; [done|].
  intros n' b' Hlt Hb' j' s Hs. eapply Hbefore; [done..|apply not_elem_of_empty].
Qed.

(** X28. A tie goes to the order that stands first in the book. When a
    submission, after any sequence of submissions, is matched, the
    order it is matched with is the first in its book among the resting
    orders that have that order's price and time stamp and the
    submitted order's quantity; by the order the books keep, that is
    the one that arrived first. *)
Theorem tie_goes_to_first_in_book (orders : list PrivateOrder) (order : PrivateOrder)
    (m : Match) :
  let e := submitAll generateMatchId Date_now orders in
  let asset := assetAddress order in
  completedMatches (submitOrder generateMatchId Date_now order e)
    = completedMatches e ++ [m] →
  if side order =? OrderSide_Buy
  then head (filter (λ s, quantity s = quantity order ∧
                          price s = price (sellOrder m) ∧
                          timestamp s = timestamp (sellOrder m))
               (restingSells asset e)) = Some (sellOrder m)
  else head (filter (λ b, quantity b = quantity order ∧
                          price b = price (buyOrder m) ∧
                          timestamp b = timestamp (buyOrder m))
               (restingBuys asset e)) = Some (buyOrder m).
Proof.
  intros e asset Hlog.
  destruct (submitOrder_once generateMatchId Date_now orders order)
    as (new & Hc & _ & Hnew & _). fold e asset in Hc, Hnew.
  rewrite Hc in Hlog. apply app_inv_head in Hlog. subst new.
  destruct Hnew as [Hnil|(m' & [= <-] & Hmine)]; [done|].
  unfold submitOrder in Hc.
  destruct (side order =? OrderSide_Buy) eqn:Hside; destruct Hmine as [Hmine _].
  - (* a buy came in: the sell is the first that fits in the sorted sells *)
    destruct (matchOrders_first _ _ _ _ Hc) as (n & j & _ & Hsell & _).
    unfold restingSells in Hsell. cbn [sellOrders] in Hsell.
    fold (restingSells asset e) in Hsell.
    destruct (findSell_spec _ _ _ _ _ _ Hsell) as (k & -> & Hk & _ & Hp & Hq & Hfirst).
    rewrite Hmine in Hp, Hq, Hfirst.
    rewrite <- (sort_sells_fitting (λ s, quantity s = quantity order) (sellOrder m)).
    apply (head_filter_first _ _ k); [done|by split|].
    intros n' s' Hlt Hs' [Hqs [Hps Hts]].
    destruct (Hfirst n' s' Hlt Hs') as [Hc'|[?|?]]; [by apply elem_of_empty in Hc'|lia|congruence].
  - (* a sell came in: the buy is the first of the sorted buys that it fits *)
    destruct (matchOrders_first _ _ _ _ Hc) as (n & j & Hn & Hsell & Hbefore).
    unfold restingBuys, restingSells in Hn, Hsell, Hbefore.
    cbn [buyOrders sellOrders] in Hn, Hsell, Hbefore.
    rewrite pushOrder_lookup, decide_True in Hsell, Hbefore by done.
    fold (restingBuys asset e) in Hn, Hbefore. fold (restingSells asset e) in Hsell, Hbefore.
    destruct (findSell_spec _ _ _ _ _ _ Hsell) as (k & _ & _ & _ & Hp & Hq & _).
    rewrite Hmine in Hp, Hq.
    assert (Hoin : order ∈ JS.Array_sort compareSells (restingSells asset e ++ [order])).
    { rewrite Array_sort_perm. apply elem_of_app. right. apply list_elem_of_here. }
    apply list_elem_of_lookup in Hoin as [jo Hjo].
    rewrite <- (sort_buys_fitting (λ b, quantity b = quantity order) (buyOrder m)).
    apply (head_filter_first _ _ n); [done|by split|].
    intros n' b' Hlt Hb' [Hqb [Hpb Htb]].
    destruct (Hbefore n' b' Hlt Hb' jo order Hjo) as [?|?]; [lia|congruence].
Qed.

End Ties.

End BookFacts.

(** * What the matcher reads of an order *)

Section RelabelFacts.

Import Engine Relabel.

Lemma insertBy_map {A} (cmp : A → A → Z) (g : A → A) (x : A) (l : list A) :
  (∀ a b, cmp (g a) (g b) = cmp a b) →
  JS.insertBy cmp (g x) (map g l) = map g (JS.insertBy cmp x l).
Proof.
  intros Hcmp. induction l as [|y l IH]; simpl; [done|].
  rewrite Hcmp. destruct (cmp x y <=? 0); simpl; [done|]. by rewrite IH.
Qed.

Lemma Array_sort_map {A} (cmp : A → A → Z) (g : A → A) (l : list A) :
  (∀ a b, cmp (g a) (g b) = cmp a b) →
  JS.Array_sort cmp (map g l) = map g (JS.Array_sort cmp l).
Proof.
  intros Hcmp. induction l as [|x l IH]; simpl; [done|].
  rewrite IH. by apply insertBy_map.
Qed.

Lemma filterIndex_map {A} (f : nat → bool) (g : A → A) (l : list A) : ∀ i,
  JS.filterIndex f i (map g l) = map g (JS.filterIndex f i l).
Proof.
  induction l as [|x l IH]; intros i; simpl; [done|].
  rewrite IH. by destruct (f i).
Qed.

Section Rewriting.
Variable generateMatchId : nat → string.
Variable Date_now : nat → Z.
Variable g : PrivateOrder → PrivateOrder.
Hypothesis g_keeps : keepsTerms g.

Lemma compareBuys_map a b : compareBuys (g a) (g b) = compareBuys a b.
Proof.
  unfold compareBuys.
  destruct (g_keeps a) as (_ & _ & -> & _ & ->), (g_keeps b) as (_ & _ & -> & _ & ->). done.
Qed.

Lemma compareSells_map a b : compareSells (g a) (g b) = compareSells a b.
Proof.
  unfold compareSells.
  destruct (g_keeps a) as (_ & _ & -> & _ & ->), (g_keeps b) as (_ & _ & -> & _ & ->). done.
Qed.

Lemma findSell_map buy claimed sells : ∀ j,
  findSell (g buy) claimed j (map g sells)
  = (λ found, (found.1, g found.2)) <$> findSell buy claimed j sells.
Proof.
  induction sells as [|s sells IH]; intros j; simpl; [done|].
  destruct (g_keeps buy) as (_ & _ & -> & -> & _), (g_keeps s) as (_ & _ & -> & -> & _).
  rewrite IH. destruct (decide (j ∈ claimed)); [done|].
  destruct (price buy <? price s); [done|].
  by destruct (quantity buy =? quantity s).
Qed.

Lemma matchLoop_map sells buys : ∀ i st,
  matchLoop generateMatchId Date_now (map g sells) i (map g buys) (mapState g st)
  = mapState g (matchLoop generateMatchId Date_now sells i buys st).
Proof.
  induction buys as [|b buys IH]; intros i st; simpl; [done|].
  destruct (decide (i ∈ matchedBuys st)); [apply IH|].
  rewrite findSell_map.
  destruct (findSell b (matchedSells st) 0 sells) as [[j s]|]; simpl; [|apply IH].
  rewrite <- IH. f_equal. unfold mapState. simpl. rewrite !map_app, length_map. simpl.
  unfold makeMatch, mapMatch. simpl.
  destruct (g_keeps b) as (_ & _ & -> & -> & _), (g_keeps s) as (_ & _ & -> & _). done.
Qed.

Lemma lookup_mapped (book : gmap string (list PrivateOrder)) asset :
  default [] ((map g <$> book) !! asset) = map g (default [] (book !! asset)).
Proof. rewrite lookup_fmap. by destruct (book !! asset). Qed.

Lemma matchOrders_map asset e :
  matchOrders generateMatchId Date_now asset (mapEngine g e)
  = mapEngine g (matchOrders generateMatchId Date_now asset e).
Proof.
  unfold matchOrders. cbn [mapEngine buyOrders sellOrders matchQueue completedMatches].
  rewrite !lookup_mapped, !length_map.
  destruct ((length _ =? 0)%nat || (length _ =? 0)%nat); [done|].
  rewrite !Array_sort_map by (apply compareBuys_map || apply compareSells_map).
  pose proof (matchLoop_map
    (JS.Array_sort compareSells (default [] (sellOrders e !! asset)))
    (JS.Array_sort compareBuys (default [] (buyOrders e !! asset))) 0
    {| matchedBuys := ∅; matchedSells := ∅;
       queue := matchQueue e; completed := completedMatches e |}) as Hloop.
  unfold mapState at 1 in Hloop. cbn [matchedBuys matchedSells queue completed] in Hloop.
  rewrite Hloop. unfold mapEngine, mapState.
  cbn [buyOrders sellOrders matchQueue completedMatches matchedBuys matchedSells
       queue completed].
  by rewrite !fmap_insert, !filterIndex_map.
Qed.

Lemma pushOrder_map order book :
  pushOrder (g order) (map g <$> book) = map g <$> pushOrder order book.
Proof.
  unfold pushOrder. destruct (g_keeps order) as (_ & -> & _).
  by rewrite fmap_insert, lookup_mapped, map_app.
Qed.

Lemma submitOrder_map order e :
  submitOrder generateMatchId Date_now (g order) (mapEngine g e)
  = mapEngine g (submitOrder generateMatchId Date_now order e).
Proof.
  unfold submitOrder. destruct (g_keeps order) as (-> & -> & _).
  rewrite <- matchOrders_map. f_equal.
  destruct (side order =? OrderSide_Buy); unfold mapEngine;
    cbn [buyOrders sellOrders matchQueue completedMatches]; by rewrite pushOrder_map.
Qed.

End Rewriting.

Section Terms.
Variable generateMatchId : nat → string.
Variable Date_now : nat → Z.

(** X6. Matching reads five fields of an order and no other: its
    side, asset, price, quantity and time stamp. Rewriting the
    submitted orders in any way that keeps these five (changing the
    trader, the expiry, the commitment, the secret, the nonce or the
    whitelist index at will) leaves the engine exactly as it would have
    been, with the orders it holds rewritten the same way: which orders
    rest, which are matched with which, at what price, in what order.
    In particular the matcher never looks at an expiry or at who the
    trader is. *)
Theorem matching_reads_terms_only (g : PrivateOrder → PrivateOrder)
    (orders : list PrivateOrder) :
  keepsTerms g →
  submitAll generateMatchId Date_now (map g orders)
  = mapEngine g (submitAll generateMatchId Date_now orders).
Proof.
  intros Hg. induction orders as [|order orders IH] using rev_ind.
  { unfold submitAll, mapEngine, newEngine. simpl. by rewrite !fmap_empty. }
  rewrite map_app. simpl. rewrite !submitAll_snoc, IH. by apply submitOrder_map.
Qed.

End Terms.

End RelabelFacts.

(** * Path indices, random bytes and the settlement circuit *)

Section PathFacts.

Import Encoding Prover ProverLib.

(** ** Path indices *)

Lemma land_1 k : Z.land k 1 = k mod 2.
Proof. change 1 with (Z.ones 1). by rewrite Z.land_ones. Qed.

Lemma shiftr_1 k : Z.shiftr k 1 = k `div` 2.
Proof. by rewrite Z.shiftr_div_pow2. Qed.

Lemma getPathIndices_length index levels : length (getPathIndices index levels) = levels.
Proof.
  revert index. induction levels as [|levels IH]; intros index; simpl; [done|].
  by rewrite IH.
Qed.

Lemma getPathIndices_binary index levels :
  Forall (λ b, b = 0 ∨ b = 1) (getPathIndices index levels).
Proof.
  revert index. induction levels as [|levels IH]; intros index; simpl; [constructor|].
  constructor; [|apply IH]. unfold JS.Number. rewrite land_1.
  pose proof (Z.mod_pos_bound index 2). lia.
Qed.

Lemma getPathIndices_value index levels :
  foldr (λ b acc, b + 2 * acc) 0 (getPathIndices index levels)
  = index mod 2 ^ Z.of_nat levels.
Proof.
  revert index. induction levels as [|levels IH]; intros index.
  { simpl. by rewrite Z.mod_1_r. }
  cbn [getPathIndices foldr]. rewrite IH. unfold JS.Number.
  rewrite land_1, shiftr_1, Nat2Z.inj_succ, Z.pow_succ_r by lia.
  rewrite Z.rem_mul_r by lia. done.
Qed.

Lemma getPathIndices_app index n m :
  getPathIndices index (n + m)
  = getPathIndices index n ++ getPathIndices (index `div` 2 ^ Z.of_nat n) m.
Proof.
  revert index. induction n as [|n IH]; intros index.
  { simpl. by rewrite Z.div_1_r. }
  cbn [Nat.add getPathIndices app]. rewrite IH, shiftr_1. f_equal. f_equal. f_equal.
  rewrite Nat2Z.inj_succ, Z.pow_succ_r by lia.
  rewrite Z.div_div by lia. done.
Qed.

Lemma getPathIndices_zero levels : getPathIndices 0 levels = replicate levels 0.
Proof.
  induction levels as [|levels IH]; [done|]. cbn [getPathIndices replicate].
  change (Z.shiftr 0 1) with 0. by rewrite IH.
Qed.

(** X7. [getPathIndices(index, levels)] returns [levels] numbers, each
    0 or 1, and they are the binary digits of [index], lowest first:
    weighted by the powers of two they sum to [index] modulo
    [2^levels], for a negative [index] as well. *)
Theorem getPathIndices_bits (index : Z) (levels : nat) :
  length (getPathIndices index levels) = levels ∧
  Forall (λ b, b = 0 ∨ b = 1) (getPathIndices index levels) ∧
  foldr (λ b acc, b + 2 * acc) 0 (getPathIndices index levels)
  = index mod 2 ^ Z.of_nat levels.
Proof.
  split; [apply getPathIndices_length|].
  split; [apply getPathIndices_binary|apply getPathIndices_value].
Qed.

(** ** The proofs of the whitelist tree *)

Lemma walkUp_indices treeLevels count : ∀ level index elements indices,
  walkUp treeLevels count level index = Some (elements, indices) →
  indices = getPathIndices (Z.of_nat index) count.
Proof.
  induction count as [|count IH]; intros level index elements indices.
  { simpl. by intros [= <- <-]. }
  rewrite walkUp_S. intros Hwalk.
  destruct (treeLevels !! level) as [nodes|]; [|done]. cbn [mbind option_bind] in Hwalk.
  destruct (nodes !! _) as [sibling|]; [|done]. cbn [mbind option_bind] in Hwalk.
  destruct (walkUp treeLevels count (S level) (index `div` 2)%nat)
    as [[elements' indices']|] eqn:Hrec; [|done].
  cbn [mbind option_bind] in Hwalk. injection Hwalk as <- <-.
  cbn [getPathIndices]. unfold JS.Number. rewrite land_1, shiftr_1.
  rewrite (IH _ _ _ _ Hrec), Nat2Z.inj_div. f_equal.
  change 2 with (Z.of_nat 2). rewrite <- Nat2Z.inj_mod.
  change (1 - (Nat.divmod index 1 0 1).2)%nat with (index mod 2)%nat.
  destruct (Nat.eqb_spec (index mod 2) 1) as [->|Hne]; [done|].
  pose proof (Nat.mod_upper_bound index 2). lia.
Qed.

Lemma zeroSiblings_indices zeros count : ∀ level elements indices,
  zeroSiblings zeros count level = Some (elements, indices) →
  indices = replicate count 0 ∧ length elements = count.
Proof.
  induction count as [|count IH]; intros level elements indices; simpl.
  { by intros [= <- <-]. }
  destruct (zeros !! level) as [zero|]; [|done]. cbn [mbind option_bind].
  destruct (zeroSiblings zeros count (S level)) as [[elements' indices']|] eqn:Hrec; [|done].
  cbn [mbind option_bind]. intros [= <- <-].
  destruct (IH _ _ _ Hrec) as [-> <-]. done.
Qed.

Lemma walkUp_length treeLevels count : ∀ level index elements indices,
  walkUp treeLevels count level index = Some (elements, indices) →
  length elements = count.
Proof.
  induction count as [|count IH]; intros level index elements indices.
  { simpl. by intros [= <- <-]. }
  rewrite walkUp_S. intros Hwalk.
  destruct (treeLevels !! level) as [nodes|]; [|done]. cbn [mbind option_bind] in Hwalk.
  destruct (nodes !! _) as [sibling|]; [|done]. cbn [mbind option_bind] in Hwalk.
  destruct (walkUp treeLevels count (S level) (index `div` 2)%nat)
    as [[elements' indices']|] eqn:Hrec; [|done].
  cbn [mbind option_bind] in Hwalk. injection Hwalk as <- <-.
  simpl. by rewrite (IH _ _ _ _ Hrec).
Qed.

(** What the proof loop leaves in the map. *)
Lemma proofLoop_lookup treeLevels zeros leaves actualDepth count : ∀ i proofs result,
  proofLoop treeLevels zeros leaves actualDepth count i proofs = Some result →
  ∀ j, result !! j = if decide (i ≤ j < i + count)%nat
                     then proofOf treeLevels zeros leaves actualDepth j
                     else proofs !! j.
Proof.
  induction count as [|count IH]; intros i proofs result; simpl.
  { intros [= <-] j. destruct (decide _); [lia|done]. }
  destruct (proofOf treeLevels zeros leaves actualDepth i) as [proof|] eqn:Hproof; [|done].
  cbn [mbind option_bind]. intros Hloop j. rewrite (IH _ _ _ Hloop j).
  destruct (decide (S i ≤ j < S i + count)%nat).
  - rewrite decide_True by lia. done.
  - destruct (decide (j = i)) as [->|Hne].
    + rewrite decide_True by lia. by rewrite lookup_insert_eq.
    + rewrite decide_False by lia. by rewrite lookup_insert_ne.
Qed.

Lemma proofLoop_Some treeLevels zeros leaves actualDepth count : ∀ i proofs result,
  proofLoop treeLevels zeros leaves actualDepth count i proofs = Some result →
  ∀ j, (i ≤ j < i + count)%nat → is_Some (proofOf treeLevels zeros leaves actualDepth j).
Proof.
  induction count as [|count IH]; intros i proofs result; simpl; [intros _ j; lia|].
  destruct (proofOf treeLevels zeros leaves actualDepth i) as [proof|] eqn:Hproof; [|done].
  cbn [mbind option_bind]. intros Hloop j Hj.
  destruct (decide (j = i)) as [->|Hne]; [by eexists|].
  eapply (IH _ _ _ Hloop). lia.
Qed.

Section Proofs.
Variable poseidon : list Z → Z.

Lemma leafHashes_lookup participants : ∀ leaves i id,
  leafHashes poseidon participants = Some leaves →
  participants !! i = Some id →
  ∃ x, JS.BigInt id = Some x ∧ leaves !! i = Some (poseidon [F.e x]).
Proof.
  induction participants as [|id0 participants IH]; intros leaves i id; [done|].
  simpl. destruct (JS.BigInt id0) as [x0|] eqn:Hx0; [|done]. cbn [mbind option_bind].
  destruct (leafHashes poseidon participants) as [rest|]; [|done].
  cbn [mbind option_bind]. intros [= <-] Hi. destruct i as [|i]; simpl in Hi.
  - injection Hi as <-. by exists x0.
  - by apply (IH rest).
Qed.

Lemma leafHashes_length participants leaves :
  leafHashes poseidon participants = Some leaves → length leaves = length participants.
Proof.
  revert leaves. induction participants as [|id participants IH]; intros leaves; simpl.
  { by intros [= <-]. }
  destruct (JS.BigInt id); [|done]. cbn [mbind option_bind].
  destruct (leafHashes poseidon participants) as [rest|]; [|done].
  cbn [mbind option_bind]. intros [= <-]. simpl. by rewrite (IH rest).
Qed.

(** The shape of every proof [buildWhitelistTree] returns. *)
Lemma buildWhitelistTree_proofs participants root proofs :
  buildWhitelistTree poseidon participants = Some (root, proofs) →
  let depth := actualDepthOf (length participants) in
  ∀ i, match proofs !! i with
       | Some proof =>
           (i < length participants)%nat ∧
           (∃ id x, participants !! i = Some id ∧ JS.BigInt id = Some x ∧
                    idHash proof = F.toString (poseidon [F.e x])) ∧
           length (pathElements proof) = (depth + (TREE_DEPTH - depth))%nat ∧
           pathIndices proof
           = getPathIndices (Z.of_nat i) depth ++ replicate (TREE_DEPTH - depth) 0
       | None => (length participants ≤ i)%nat
       end.
Proof.
  unfold buildWhitelistTree.
  destruct (leafHashes poseidon participants) as [leaves|] eqn:Hleaves; [|done].
  cbn [mbind option_bind]. rewrite (leafHashes_length _ _ Hleaves).
  set (depth := actualDepthOf (length participants)).
  set (padded := leaves ++ replicate (2 ^ depth - length participants) 0).
  set (zeros := zeroLadder poseidon TREE_DEPTH 0).
  destruct (buildLevels poseidon depth padded) as [treeLevels|]; [|done].
  cbn [mbind option_bind].
  destruct (last treeLevels) as [currentLevel|]; [|done]. cbn [mbind option_bind].
  destruct (currentLevel !! 0%nat) as [top|]; [|done]. cbn [mbind option_bind].
  destruct (extendRoot poseidon zeros (TREE_DEPTH - depth) depth top) as [extended|]; [|done].
  cbn [mbind option_bind].
  destruct (proofLoop treeLevels zeros padded depth (length participants) 0 ∅)
    as [result|] eqn:Hloop; [|done].
  cbn [mbind option_bind]. intros [= <- <-]. cbv zeta. intros i. fold depth.
  rewrite (proofLoop_lookup _ _ _ _ _ _ _ _ Hloop i).
  destruct (decide (0 ≤ i < 0 + length participants)%nat) as [Hi|Hi];
    [|rewrite lookup_empty; lia].
  destruct (proofLoop_Some _ _ _ _ _ _ _ _ Hloop i) as [proof Hproof]; [lia|].
  rewrite Hproof.
  unfold proofOf in Hproof.
  destruct (walkUp treeLevels depth 0 i) as [[elements indices]|] eqn:Hwalk; [|done].
  cbn [mbind option_bind] in Hproof.
  destruct (zeroSiblings zeros (TREE_DEPTH - depth) depth)
    as [[zeroElements zeroIndices]|] eqn:Hzero; [|done].
  cbn [mbind option_bind] in Hproof.
  destruct (padded !! i) as [leaf|] eqn:Hleaf; [|done].
  cbn [mbind option_bind] in Hproof. injection Hproof as <-.
  cbn [idHash pathElements pathIndices].
  destruct (zeroSiblings_indices _ _ _ _ _ Hzero) as [-> Hzl].
  split; [lia|]. split.
  { destruct (lookup_lt_is_Some_2 participants i) as [id Hid]; [lia|].
    destruct (leafHashes_lookup _ _ _ _ Hleaves Hid) as (x & Hx & Hl).
    exists id, x. split; [done|]. split; [done|].
    unfold padded in Hleaf. rewrite lookup_app_l in Hleaf
      by (rewrite (leafHashes_length _ _ Hleaves); lia).
    rewrite Hl in Hleaf. by injection Hleaf as <-. }
  split; [by rewrite length_app, (walkUp_length _ _ _ _ _ _ Hwalk), Hzl|].
  by rewrite (walkUp_indices _ _ _ _ _ _ Hwalk).
Qed.

(** X8. When [buildWhitelistTree] returns for at most [2^20]
    participants, the index bits of the proof it holds for participant
    [i] are what [getPathIndices(i, 20)] computes: the binary digits of
    [i], lowest first. *)
Theorem pathIndices_are_index_bits (participants : list string) (root : string)
    (proofs : gmap nat MerkleProof) (i : nat) (proof : MerkleProof) :
  (length participants ≤ 2 ^ TREE_DEPTH)%nat →
  buildWhitelistTree poseidon participants = Some (root, proofs) →
  proofs !! i = Some proof →
  pathIndices proof = getPathIndices (Z.of_nat i) TREE_DEPTH.
Proof.
  intros Hsize Hrun Hproof.
  pose proof (buildWhitelistTree_proofs _ _ _ Hrun i) as Hshape.
  rewrite Hproof in Hshape. destruct Hshape as (Hi & _ & _ & ->).
  destruct (actualDepthOf_spec (length participants) Hsize) as [Hfit Hdepth].
  set (depth := actualDepthOf (length participants)) in *.
  replace TREE_DEPTH with (depth + (TREE_DEPTH - depth))%nat at 2 by lia.
  rewrite getPathIndices_app. f_equal.
  rewrite Z.div_small, getPathIndices_zero; [done|].
  split; [lia|]. apply Nat2Z.inj_lt in Hi. apply Nat2Z.inj_le in Hfit.
  rewrite Nat2Z.inj_pow in Hfit. change (Z.of_nat 2) with 2 in Hfit. lia.
Qed.

(** X9. Whenever [buildWhitelistTree] returns, the map of proofs has
    exactly the keys [0 .. n-1] for [n] participants, and the [idHash]
    of the proof at [i] is the decimal string of Poseidon, arity 1, on
    the integer the [i]-th participant ID denotes, reduced into the
    field. *)
Theorem proofs_keys_and_leaves (participants : list string) (root : string)
    (proofs : gmap nat MerkleProof) :
  buildWhitelistTree poseidon participants = Some (root, proofs) →
  ∀ i, (is_Some (proofs !! i) ↔ (i < length participants)%nat) ∧
       ∀ proof, proofs !! i = Some proof →
         ∃ id x, participants !! i = Some id ∧ JS.BigInt id = Some x ∧
                 idHash proof = F.toString (poseidon [F.e x]).
Proof.
  intros Hrun i. pose proof (buildWhitelistTree_proofs _ _ _ Hrun i) as Hshape.
  destruct (proofs !! i) as [proof|].
  - destruct Hshape as (Hi & Hid & _). split; [by split; [|eexists]|].
    by intros ? [= <-].
  - split; [|done]. split; [by intros [? ?]|lia].
Qed.

(** X10. [buildWhitelistTree] throws as soon as one participant ID is
    not an integer literal as [BigInt] reads one, however long the
    list. *)
Theorem buildWhitelistTree_rejects (participants : list string) (id : string) :
  id ∈ participants → JS.BigInt id = None →
  buildWhitelistTree poseidon participants = None.
Proof.
  intros Hin Hbad. unfold buildWhitelistTree.
  assert (leafHashes poseidon participants = None) as ->; [|done].
  induction participants as [|id0 participants IH]; [by apply elem_of_nil in Hin|].
  simpl. apply elem_of_cons in Hin as [<-|Hin]; [by rewrite Hbad|].
  rewrite (IH Hin). by destruct (JS.BigInt id0).
Qed.

End Proofs.

Section Whitelist.
Variable poseidon : list Z → Z.
Hypothesis poseidon_canonical : ∀ inputs, F.canonical (poseidon inputs).

(** Above the built tree the index bits of a participant are zero. *)
Lemma getPathIndices_padded (n i : nat) :
  (n ≤ 2 ^ TREE_DEPTH)%nat → (i < n)%nat →
  getPathIndices (Z.of_nat i) (actualDepthOf n)
    ++ replicate (TREE_DEPTH - actualDepthOf n) 0
  = getPathIndices (Z.of_nat i) TREE_DEPTH.
Proof.
  intros Hsize Hi.
  destruct (actualDepthOf_spec n Hsize) as [Hfit Hdepth].
  set (depth := actualDepthOf n) in *.
  replace TREE_DEPTH with (depth + (TREE_DEPTH - depth))%nat at 2 by lia.
  rewrite getPathIndices_app. f_equal.
  rewrite Z.div_small, getPathIndices_zero; [done|].
  split; [lia|]. apply Nat2Z.inj_lt in Hi. apply Nat2Z.inj_le in Hfit.
  rewrite Nat2Z.inj_pow in Hfit. change (Z.of_nat 2) with 2 in Hfit. lia.
Qed.

(** C4. For a list of at most [2^20] participant IDs,
    [buildWhitelistTree] returns a root and proofs whenever every ID is
    an integer literal, and whenever it returns, the proof it holds for
    participant [i] is the inclusion proof of that participant: its leaf
    [idHash] is the decimal string of Poseidon on the integer the [i]-th
    ID denotes, its index bits are the binary digits of [i], lowest
    first, it has 20 siblings and 20 index bits, and it satisfies
    [MerkleTreeVerifier(20)] against the returned root: hashing the leaf
    with each sibling in turn, on the side the index bit names, gives
    the root. *)
Theorem whitelist_proofs_verify (participants : list string) :
  (length participants ≤ 2 ^ TREE_DEPTH)%nat →
  (Forall (λ id, is_Some (JS.BigInt id)) participants →
   is_Some (buildWhitelistTree poseidon participants)) ∧
  ∀ root proofs,
    buildWhitelistTree poseidon participants = Some (root, proofs) →
    ∀ i, (i < length participants)%nat →
      ∃ proof id x,
        proofs !! i = Some proof ∧
        participants !! i = Some id ∧ JS.BigInt id = Some x ∧
        idHash proof = F.toString (poseidon [F.e x]) ∧
        pathIndices proof = getPathIndices (Z.of_nat i) TREE_DEPTH ∧
        length (pathElements proof) = TREE_DEPTH ∧
        length (pathIndices proof) = TREE_DEPTH ∧
        verifiesInCircuit poseidon proof root = true.
Proof.
  intros Hsize. split.
  - intros Hids. destruct (leafHashes_spec poseidon _ Hids) as [leaves Hleaves].
    destruct (buildWhitelistTree_spec poseidon poseidon_canonical _ _ Hsize Hleaves)
      as (root & proofs & Hrun & _).
    by eexists.
  - intros root proofs Hrun i Hi.
    destruct (leafHashes poseidon participants) as [leaves|] eqn:Hleaves;
      [|unfold buildWhitelistTree in Hrun; by rewrite Hleaves in Hrun].
    destruct (buildWhitelistTree_spec poseidon poseidon_canonical _ _ Hsize Hleaves)
      as (root' & proofs' & Hrun' & Hok).
    rewrite Hrun in Hrun'. injection Hrun' as <- <-.
    destruct (Hok i Hi) as (proof & Hproof & Hel & Hil & Hverifies).
    pose proof (buildWhitelistTree_proofs poseidon _ _ _ Hrun i) as Hshape.
    rewrite Hproof in Hshape. destruct Hshape as (_ & (id & x & Hid & Hx & Hleaf) & _ & Hbits).
    exists proof, id, x. split; [done|]. split; [done|]. split; [done|]. split; [done|].
    split; [|done]. rewrite Hbits. by apply getPathIndices_padded.
Qed.

End Whitelist.

Lemma whitelist_proofs_verify_witness :
  ∃ root proofs proof,
    buildWhitelistTree Examples.mix ["0x01"; "0x02"; "3"]%string = Some (root, proofs) ∧
    proofs !! 1%nat = Some proof ∧
    idHash proof = F.toString (Examples.mix [F.e 2]) ∧
    pathIndices proof = getPathIndices 1 TREE_DEPTH ∧
    verifiesInCircuit Examples.mix proof root = true.
Proof.
  assert (Hsize : (length ["0x01"; "0x02"; "3"]%string ≤ 2 ^ TREE_DEPTH)%nat).
  { change (3 ≤ 2 ^ TREE_DEPTH)%nat. change 3%nat with (2 ^ 1 + 1)%nat.
    etrans; [|apply (Nat.pow_le_mono_r 2 2); [lia|unfold TREE_DEPTH; lia]]. simpl. lia. }
  destruct (whitelist_proofs_verify Examples.mix mix_canonical _ Hsize) as [Hsome Hok].
  destruct Hsome as [[root proofs] Hrun].
  { repeat constructor; by eexists. }
  destruct (Hok root proofs Hrun 1%nat) as (proof & id & x & Hp & Hid & Hx & Hleaf & Hbits & _ & _ & Hv);
    [simpl; lia|].
  injection Hid as <-. injection Hx as <-.
  exists root, proofs, proof.
  split; [exact Hrun|]. split; [exact Hp|]. split; [exact Hleaf|]. split; [exact Hbits|exact Hv].
Defined.

(** ** Random bytes in hexadecimal *)

(** Decoding inverts the hexadecimal printing of bytes. *)
Lemma Buffer_from_bytesToHex bs : JS.Buffer_from_hex (JS.bytesToHex bs) = bs.
Proof.
  destruct (Buffer_from_hex_spec (length bs) (JS.bytesToHex bs) 0
              (bytesToHex_length bs) (bytesToHex_digits bs)) as [Hlen Hval].
  rewrite parseDigits_bytesToHex in Hval. injection Hval as Hval.
  rewrite (bigEndian_unique (length bs) (JS.Buffer_from_hex (JS.bytesToHex bs)) (beValue bs));
    [by apply bigEndian_beValue|done|done].
Qed.

(** X11. [randomBytes(length)] prints the bytes it drew as exactly
    [2 * length] hexadecimal digits, and decoding the string gives the
    bytes back: two draws print the same string only when they drew the
    same bytes. *)
Theorem randomBytes_hex (rng : nat → byte) (pos length : nat) :
  String.length (randomBytes rng pos length) = (2 * length)%nat ∧
  JS.digitsOf 16 (randomBytes rng pos length) ∧
  JS.Buffer_from_hex (randomBytes rng pos length) = map rng (seq pos length).
Proof.
  unfold randomBytes.
  split; [by rewrite bytesToHex_length, length_map, length_seq|].
  split; [apply bytesToHex_digits|apply Buffer_from_bytesToHex].
Qed.

(** X12. [generateMatchId()] returns 64 hexadecimal digits, and two
    identifiers are equal exactly when the 32 bytes drawn for them are
    equal. *)
Theorem generateMatchId_injective (rng rng' : nat → byte) (pos pos' : nat) :
  String.length (EngineSettlement.generateMatchId rng pos) = 64%nat ∧
  (EngineSettlement.generateMatchId rng pos = EngineSettlement.generateMatchId rng' pos'
   ↔ map rng (seq pos 32) = map rng' (seq pos' 32)).
Proof.
  unfold EngineSettlement.generateMatchId.
  split; [by rewrite bytesToHex_length, length_map, length_seq|].
  split; [|by intros ->].
  intros Heq. apply (f_equal JS.Buffer_from_hex) in Heq.
  by rewrite !Buffer_from_bytesToHex in Heq.
Qed.

(** ** The empty whitelist *)

Section Empty.
Variable poseidon : list Z → Z.

Lemma last_cons_Some {A} (x : A) (l : list A) : is_Some (last l) → last (x :: l) = last l.
Proof. intros [y Hy]. by rewrite last_cons, Hy. Qed.

Lemma zeroLadder_last k z : is_Some (last (zeroLadder poseidon k z)).
Proof.
  revert z. induction k as [|k IH]; intros z; simpl; [by eexists|].
  rewrite last_cons_Some; apply IH.
Qed.

Lemma zeroLadder_S k z :
  zeroLadder poseidon (S k) z = z :: zeroLadder poseidon k (hashPair poseidon z z).
Proof. done. Qed.

(** Extending the root of an all-zero tree climbs the zero ladder. *)
Lemma extendRoot_ladder k : ∀ pre z,
  extendRoot poseidon (pre ++ zeroLadder poseidon k z) k (length pre) z
  = last (zeroLadder poseidon k z).
Proof.
  induction k as [|k IH]; intros pre z; [done|].
  cbn [extendRoot zeroLadder].
  rewrite lookup_app_r, Nat.sub_diag by lia. cbn [lookup list_lookup mbind option_bind].
  specialize (IH (pre ++ [z]) (hashPair poseidon z z)).
  rewrite <- app_assoc, length_app in IH. simpl in IH.
  rewrite Nat.add_1_r in IH. rewrite IH.
  symmetry. apply last_cons_Some, zeroLadder_last.
Qed.

(** X13. For the empty list [buildWhitelistTree] returns no proof and
    the root of the depth-20 tree whose leaves are all zero, the top of
    the zero ladder [zeros[20]]. *)
Theorem empty_whitelist :
  ∃ top, last (zeroLadder poseidon TREE_DEPTH 0) = Some top ∧
         buildWhitelistTree poseidon [] = Some (JS.toString 10 top, ∅).
Proof.
  destruct (zeroLadder_last TREE_DEPTH 0) as [top Htop]. exists top. split; [done|].
  unfold buildWhitelistTree. cbn [leafHashes mbind option_bind length].
  change (actualDepthOf 0) with 1%nat.
  change (2 ^ 1 - 0)%nat with 2%nat.
  cbn [replicate app buildLevels nextLevel fmap option_fmap option_map mbind option_bind last].
  change ([hashPair poseidon 0 0] !! 0%nat) with (Some (hashPair poseidon 0 0)).
  cbn [mbind option_bind].
  change (TREE_DEPTH - 1)%nat with 19%nat.
  revert Htop. change TREE_DEPTH with (S 19). rewrite (zeroLadder_S 19 0). intros Htop.
  pose proof (extendRoot_ladder 19 [0] (hashPair poseidon 0 0)) as Hext.
  change (length [0]) with 1%nat in Hext. cbn [app] in Hext. rewrite Hext.
  rewrite last_cons_Some in Htop by apply zeroLadder_last.
  rewrite Htop. done.
Qed.

End Empty.

(** ** Integers through decimal strings *)

(** [BigInt] inverts the decimal printing of any integer. *)
Lemma BigInt_toString_Z n : JS.BigInt (JS.toString 10 n) = Some n.
Proof.
  destruct (Z.ltb_spec n 0) as [Hneg|Hpos]; [|by apply BigInt_toString].
  assert (Hs : JS.toString 10 n = String "-" (JS.toString 10 (- n))).
  { unfold JS.toString. rewrite Z.abs_opp.
    destruct (Z.ltb_spec n 0); [|lia]. destruct (Z.ltb_spec (- n) 0); [lia|done]. }
  rewrite Hs. unfold JS.BigInt.
  rewrite trim_id.
  - assert (Hp : JS.parseNonEmpty 10 (JS.toString 10 (- n)) = Some (- n)).
    { unfold JS.parseNonEmpty.
      destruct (JS.toString 10 (- n)) eqn:Hd; [by apply toString_nonempty in Hd; [|lia]|].
      rewrite <- Hd. apply parseDigits_toString; lia. }
    rewrite Hp. simpl. f_equal. lia.
  - constructor; [done|]. eapply digitsOf_noWhiteSpace, toString_digits; lia.
Qed.

Lemma signalOfString_toString_Z n :
  Circuit.signalOfString (JS.toString 10 n) = Some (F.e n).
Proof. unfold Circuit.signalOfString. by rewrite BigInt_toString_Z. Qed.

Lemma F_e_0 : F.e 0 = 0.
Proof. done. Qed.

Lemma F_e_1 : F.e 1 = 1.
Proof. done. Qed.

Lemma F_e_add a b : F.e (F.e a + F.e b) = F.e (a + b).
Proof. unfold F.e. by rewrite <- Zplus_mod. Qed.

(** What [verifiesInCircuit] says about the inputs it reads. *)
Lemma verifiesInCircuit_inv poseidon proof root :
  verifiesInCircuit poseidon proof root = true →
  ∃ leaf elements r,
    Circuit.signalOfString (idHash proof) = Some leaf ∧
    mapM Circuit.signalOfString (pathElements proof) = Some elements ∧
    Circuit.signalOfString root = Some r ∧
    Circuit.MerkleTreeVerifier poseidon TREE_DEPTH leaf elements
      (map F.e (pathIndices proof)) r = true.
Proof.
  unfold verifiesInCircuit.
  destruct (Circuit.signalOfString (idHash proof)) as [leaf|]; [|done].
  destruct (mapM Circuit.signalOfString (pathElements proof)) as [elements|]; [|done].
  destruct (Circuit.signalOfString root) as [r|]; [|done].
  intros H. by exists leaf, elements, r.
Qed.

(** What [generateOrderCommitment] returns. *)
Lemma generateOrderCommitment_Some poseidon rng params c :
  generateOrderCommitment poseidon rng params = Some c →
  commitment c
  = F.toString (poseidon [F.e (assetHash params); F.e (side params);
                          F.e (quantity params); F.e (price params);
                          F.e (nonce c); F.e (secret c)]).
Proof.
  unfold generateOrderCommitment.
  unfold randomBytes. rewrite !BigInt_bytesToHex.
  change (seq 0 32) with (0%nat :: seq 1 31). change (seq 32 32) with (32%nat :: seq 33 31).
  cbn [map mbind option_bind]. intros [= <-]. cbn [commitment nonce secret]. reflexivity.
Qed.

Section Settlement.
Variable poseidon : list Z → Z.
Hypothesis poseidon_canonical : ∀ inputs, F.canonical (poseidon inputs).

Lemma signalOfString_commitment inputs :
  Circuit.signalOfString (F.toString (poseidon inputs)) = Some (poseidon inputs).
Proof. apply signalOfString_toString, poseidon_canonical. Qed.

Lemma BigInt_commitment inputs :
  JS.BigInt (F.toString (poseidon inputs)) = Some (poseidon inputs).
Proof. apply BigInt_toString. apply poseidon_canonical. Qed.

(** Every proof of a whitelist of at most [2^20] participants verifies. *)
Lemma whitelist_proof_verifies participants root proofs k proof :
  (length participants ≤ 2 ^ TREE_DEPTH)%nat →
  buildWhitelistTree poseidon participants = Some (root, proofs) →
  proofs !! k = Some proof →
  verifiesInCircuit poseidon proof root = true.
Proof.
  intros Hsize Hrun Hk.
  pose proof (buildWhitelistTree_proofs poseidon _ _ _ Hrun k) as Hshape.
  rewrite Hk in Hshape. destruct Hshape as (Hlt & _).
  destruct (leafHashes poseidon participants) as [leaves|] eqn:Hleaves; cycle 1.
  { unfold buildWhitelistTree in Hrun. rewrite Hleaves in Hrun. discriminate Hrun. }
  destruct (buildWhitelistTree_spec poseidon poseidon_canonical _ _ Hsize Hleaves)
    as (root' & proofs' & Hrun' & Hok).
  rewrite Hrun in Hrun'. injection Hrun' as <- <-.
  destruct (Hok k Hlt) as (proof' & Hk' & _ & _ & Hv).
  rewrite Hk in Hk'. injection Hk' as <-. exact Hv.
Qed.

(** X14. The settlement circuit accepts an honest trade. Take a
    whitelist built by [buildWhitelistTree] for at most [2^20]
    participants and the proofs it holds for a buyer and a seller, a buy
    and a sell commitment made by [generateOrderCommitment] for the same
    asset hash, quantity and price, and the trade parameters
    [settleMatch] assembles from them with that quantity and price as
    matched quantity and execution price. On the input
    [generateSettlementProof] prepares, [SettlementProof(20)] is
    satisfied, and its public output is the nullifier
    [computeNullifier] computes from the two commitments, the quantity
    and the two secrets. *)
Theorem honest_settlement_accepted
    (participants : list string) (root : string) (proofs : gmap nat MerkleProof)
    (i j : nat) (buyerProof sellerProof : MerkleProof)
    (rngBuy rngSell : nat → byte) (assetHash : string) (a q p : Z)
    (buy sell : OrderCommitment) :
  (length participants ≤ 2 ^ TREE_DEPTH)%nat →
  buildWhitelistTree poseidon participants = Some (root, proofs) →
  proofs !! i = Some buyerProof →
  proofs !! j = Some sellerProof →
  JS.BigInt assetHash = Some a →
  generateOrderCommitment poseidon rngBuy
    {| Prover.assetHash := a; side := 0; quantity := q; price := p |} = Some buy →
  generateOrderCommitment poseidon rngSell
    {| Prover.assetHash := a; side := 1; quantity := q; price := p |} = Some sell →
  let params :=
    {| TradeParams.buyerIdHash := idHash buyerProof;
       TradeParams.buyerMerkleProof := buyerProof;
       TradeParams.sellerIdHash := idHash sellerProof;
       TradeParams.sellerMerkleProof := sellerProof;
       TradeParams.buyOrderSecret := secret buy;
       TradeParams.buyOrderNonce := nonce buy;
       TradeParams.sellOrderSecret := secret sell;
       TradeParams.sellOrderNonce := nonce sell;
       TradeParams.buyCommitment := commitment buy;
       TradeParams.sellCommitment := commitment sell;
       TradeParams.assetHash := assetHash;
       TradeParams.matchedQuantity := q;
       TradeParams.executionPrice := p;
       TradeParams.whitelistRoot := root |} in
  ∃ nullifier,
    SettlementCircuit.witness poseidon params = Some nullifier ∧
    computeNullifier poseidon (commitment buy) (commitment sell) q (secret buy) (secret sell)
    = Some (F.toString nullifier).
Proof.
  intros Hsize Hrun Hi Hj Ha Hbuy Hsell params.
  pose proof (whitelist_proof_verifies _ _ _ _ _ Hsize Hrun Hi) as HvB.
  pose proof (whitelist_proof_verifies _ _ _ _ _ Hsize Hrun Hj) as HvS.
  clear Hsize Hrun Hi Hj.
  destruct (verifiesInCircuit_inv _ _ _ HvB)
    as (leafB & elementsB & r & HleafB & HelementsB & Hroot & HverB).
  destruct (verifiesInCircuit_inv _ _ _ HvS)
    as (leafS & elementsS & r' & HleafS & HelementsS & Hroot' & HverS).
  rewrite Hroot in Hroot'. injection Hroot' as <-.
  (* the commitments *)
  apply generateOrderCommitment_Some in Hbuy, Hsell.
  cbn [Prover.assetHash side quantity price] in Hbuy, Hsell.
  rewrite F_e_0 in Hbuy. rewrite F_e_1 in Hsell.
  set (cB := poseidon [F.e a; 0; F.e q; F.e p; F.e (nonce buy); F.e (secret buy)]) in *.
  set (cS := poseidon [F.e a; 1; F.e q; F.e p; F.e (nonce sell); F.e (secret sell)]) in *.
  exists (poseidon [cB; cS; F.e q; F.e (secret buy + secret sell)]). split.
  - unfold SettlementCircuit.witness, SettlementCircuit.readInput, circuitInput, params.
    cbn [Input.buyerIdHash Input.buyerMerkleProof Input.buyerMerkleIndices
         Input.sellerIdHash Input.sellerMerkleProof Input.sellerMerkleIndices
         Input.buyOrderSecret Input.buyOrderNonce Input.sellOrderSecret
         Input.sellOrderNonce Input.buyCommitment Input.sellCommitment
         Input.assetHash Input.matchedQuantity Input.executionPrice Input.whitelistRoot
         TradeParams.buyerIdHash TradeParams.buyerMerkleProof
         TradeParams.sellerIdHash TradeParams.sellerMerkleProof
         TradeParams.buyOrderSecret TradeParams.buyOrderNonce
         TradeParams.sellOrderSecret TradeParams.sellOrderNonce
         TradeParams.buyCommitment TradeParams.sellCommitment TradeParams.assetHash
         TradeParams.matchedQuantity TradeParams.executionPrice TradeParams.whitelistRoot].
    rewrite HleafB, HelementsB, HleafS, HelementsS, Hroot, Hbuy, Hsell.
    rewrite !signalOfString_toString_Z.
    rewrite (F_e_canonical cB), (F_e_canonical cS) by apply poseidon_canonical.
    assert (Hasset : Circuit.signalOfString assetHash = Some (F.e a)).
    { unfold Circuit.signalOfString. by rewrite Ha. }
    rewrite Hasset. cbn [mbind option_bind].
    unfold SettlementCircuit.main, SettlementCircuit.SettlementProof,
      SettlementCircuit.buyCommitmentHolds, SettlementCircuit.sellCommitmentHolds,
      SettlementCircuit.nullifier.
    cbn [SettlementCircuit.buyerIdHash SettlementCircuit.buyerMerkleProof
         SettlementCircuit.buyerMerkleIndices SettlementCircuit.sellerIdHash
         SettlementCircuit.sellerMerkleProof SettlementCircuit.sellerMerkleIndices
         SettlementCircuit.buyOrderSecret SettlementCircuit.buyOrderNonce
         SettlementCircuit.sellOrderSecret SettlementCircuit.sellOrderNonce
         SettlementCircuit.buyCommitment SettlementCircuit.sellCommitment
         SettlementCircuit.assetHash SettlementCircuit.matchedQuantity
         SettlementCircuit.executionPrice SettlementCircuit.whitelistRoot].
    change TREE_DEPTH with 20%nat in HverB, HverS.
    rewrite HverB, HverS. fold cB cS. rewrite !Z.eqb_refl. cbn [andb].
    by rewrite F_e_add.
  - unfold computeNullifier. rewrite Hbuy, Hsell. unfold cB, cS.
    rewrite !BigInt_commitment. cbn [mbind option_bind]. fold cB cS.
    rewrite (F_e_canonical cB), (F_e_canonical cS) by apply poseidon_canonical.
    reflexivity.
Qed.

End Settlement.

End PathFacts.

(** * Settlement in the engine *)

Section EngineSettlementFacts.

Import Engine EngineSettlement.

Section Log.
Variable generateMatchId : nat → string.
Variable Date_now : nat → Z.

(** What every logged match looks like. *)
Lemma completed_facts (orders : list PrivateOrder) (m : Match) :
  m ∈ completedMatches (submitAll generateMatchId Date_now orders) →
  quantity (buyOrder m) = quantity (sellOrder m) ∧
  price (sellOrder m) ≤ price (buyOrder m) ∧
  executionPrice m = Z.quot (price (buyOrder m) + price (sellOrder m)) 2 ∧
  executionQuantity m = quantity (buyOrder m).
Proof.
  revert m. induction orders as [|order orders IH] using rev_ind; intros m.
  { by intros ?%elem_of_nil. }
  rewrite submitAll_snoc.
  destruct (submitOrder_spec generateMatchId Date_now order
              (submitAll generateMatchId Date_now orders)) as (new & -> & _ & Hnew).
  intros [Hold|Hin]%elem_of_app; [by apply IH|by apply Hnew].
Qed.

(** The two tests of [settleMatch] on a logged match. *)
Lemma mismatch_tests (orders : list PrivateOrder) (m : Match) :
  m ∈ completedMatches (submitAll generateMatchId Date_now orders) →
  quantityMismatch m = false ∧
  (priceMismatch m = true ↔ price (buyOrder m) ≠ price (sellOrder m)).
Proof.
  intros Hm. destruct (completed_facts orders m Hm) as (Hq & Hp & Hx & Hxq).
  unfold quantityMismatch, priceMismatch. rewrite Hxq, <- Hq, Z.eqb_refl. split; [done|].
  rewrite Hx, orb_true_iff, !negb_true_iff, !Z.eqb_neq.
  pose proof (Z.quot_rem' (price (buyOrder m) + price (sellOrder m)) 2) as Hdiv.
  pose proof (Z.rem_bound_abs (price (buyOrder m) + price (sellOrder m)) 2) as Hrem.
  split.
  - intros [H|H] Heq; apply H; rewrite <- Heq;
      replace (price (buyOrder m) + price (buyOrder m)) with (price (buyOrder m) * 2) by lia;
      by rewrite Z.quot_mul.
  - intros Hne. destruct (decide (price (buyOrder m)
      = (price (buyOrder m) + price (sellOrder m)) ÷ 2)) as [Heq|?]; [|by left].
    right. intros Heq'. apply Hne. congruence.
Qed.

(** The identifier and the time stamp of the [k]-th logged match are
    the [k]-th the environment handed out. *)
Lemma matchLoop_ids sells buys : ∀ i st,
  let st' := matchLoop generateMatchId Date_now sells i buys st in
  ∃ new, completed st' = completed st ++ new ∧
    ∀ k m, new !! k = Some m →
      matchId m = generateMatchId (length (completed st) + k) ∧
      matchTimestamp m = Date_now (length (completed st) + k).
Proof.
  induction buys as [|b0 buys IH]; intros i st; simpl.
  { exists []. by rewrite app_nil_r. }
  destruct (decide (i ∈ matchedBuys st)); [apply IH|].
  destruct (findSell b0 (matchedSells st) 0 sells) as [[j0 s0]|]; [|apply IH].
  set (m0 := makeMatch generateMatchId Date_now (length (completed st)) b0 s0).
  set (st1 := {| matchedBuys := {[i]} ∪ matchedBuys st;
                 matchedSells := {[j0]} ∪ matchedSells st;
                 queue := queue st ++ [m0]; completed := completed st ++ [m0] |}).
  destruct (IH (S i) st1) as (new & Hc & Hids).
  exists (m0 :: new). split; [by rewrite Hc; simpl; rewrite <- app_assoc|].
  intros [|k] m Hk; simpl in Hk.
  - injection Hk as <-. by rewrite Nat.add_0_r.
  - destruct (Hids k m Hk) as [Hid Hts]. simpl in Hid, Hts.
    rewrite length_app in Hid, Hts. simpl in Hid, Hts.
    replace (length (completed st) + S k)%nat
      with (length (completed st) + 1 + k)%nat by lia. done.
Qed.

Lemma submitAll_ids (orders : list PrivateOrder) (k : nat) (m : Match) :
  completedMatches (submitAll generateMatchId Date_now orders) !! k = Some m →
  matchId m = generateMatchId k ∧ matchTimestamp m = Date_now k.
Proof.
  revert k m. induction orders as [|order orders IH] using rev_ind; intros k m; [done|].
  rewrite submitAll_snoc. unfold submitOrder.
  set (e1 := if side order =? OrderSide_Buy then _ else _).
  assert (He1 : completedMatches e1
                = completedMatches (submitAll generateMatchId Date_now orders)).
  { unfold e1. by destruct (side order =? OrderSide_Buy). }
  unfold matchOrders.
  destruct ((length _ =? 0)%nat || (length _ =? 0)%nat); [rewrite He1; apply IH|].
  cbn [completedMatches].
  match goal with |- context [matchLoop _ _ ?ss _ ?bs ?s0] =>
    pose proof (matchLoop_ids ss bs 0%nat s0) as Hloop end.
  cbv zeta in Hloop. destruct Hloop as (new & Hc & Hids).
  rewrite Hc. cbn [completed] in Hids |- *. rewrite He1 in Hids |- *.
  intros Hk. apply lookup_app_Some in Hk as [Hk|[Hge Hk]]; [by apply IH|].
  destruct (Hids _ _ Hk) as [Hid Hts].
  rewrite Nat.add_comm, Nat.sub_add in Hid, Hts by done. done.
Qed.

(** X16. [getMatchById] on the identifier of a logged match returns a
    logged match with that identifier, and when no two matches were
    handed the same identifier it returns that very match. *)
Theorem getMatchById_finds (orders : list PrivateOrder) (m : Match) :
  let e := submitAll generateMatchId Date_now orders in
  m ∈ completedMatches e →
  (∃ found, getMatchById (matchId m) e = Some found ∧ found ∈ completedMatches e ∧
            matchId found = matchId m) ∧
  ((∀ j k, (j < length (completedMatches e))%nat → (k < length (completedMatches e))%nat →
           generateMatchId j = generateMatchId k → j = k) →
   getMatchById (matchId m) e = Some m).
Proof.
  intros e Hm. unfold getMatchById.
  destruct (list_find_elem_of (λ m', matchId m' = matchId m) (completedMatches e) m Hm eq_refl)
    as [[k found] Hfind].
  rewrite Hfind. cbn [fmap option_fmap option_map snd].
  apply list_find_Some in Hfind as (Hk & Hid & _).
  split.
  { exists found. split; [done|]. split; [by eapply list_elem_of_lookup_2|done]. }
  intros Hinj. f_equal.
  apply list_elem_of_lookup in Hm as [k' Hk'].
  destruct (submitAll_ids orders k found Hk) as [Hfid _].
  destruct (submitAll_ids orders k' m Hk') as [Hmid _].
  assert (k = k') as ->.
  { apply Hinj; [by eapply lookup_lt_Some|by eapply lookup_lt_Some|congruence]. }
  fold e in Hk. rewrite Hk in Hk'. by injection Hk'.
Qed.

End Log.

Section Settle.
Variable poseidon : list Z → Z.
Variable fullProve : ProverLib.Input.t → option (Prover.Groth16Proof * list string).

(** The result of a failure. *)
Lemma settleMatch_failed whitelistRoot whitelistProofs m :
  (trySettle poseidon fullProve whitelistRoot whitelistProofs m).2 = None →
  settleMatch poseidon fullProve whitelistRoot whitelistProofs m
  = {| SettlementResult.matchId := matchId m;
       SettlementResult.proof := [];
       SettlementResult.publicSignals := [];
       SettlementResult.nullifierHash := EmptyString;
       SettlementResult.success := false |}.
Proof. unfold settleMatch. by intros ->. Qed.

(** X17. With the whitelist [buildWhitelistTree] built for [n]
    participants, [settleMatch] fails on every match whose buyer's or
    seller's whitelist index is not one of [0 .. n-1], whatever the
    prover would do: the result carries the match identifier, empty
    proof and signal buffers, an empty nullifier and [success = false]. *)
Theorem settleMatch_outside_whitelist (participants : list string) (root : string)
    (proofs : gmap nat Prover.MerkleProof) (m : Match) :
  Prover.buildWhitelistTree poseidon participants = Some (root, proofs) →
  ¬ listed (length participants) (whitelistIndex (buyOrder m)) ∨
  ¬ listed (length participants) (whitelistIndex (sellOrder m)) →
  settleMatch poseidon fullProve root proofs m
  = {| SettlementResult.matchId := matchId m;
       SettlementResult.proof := [];
       SettlementResult.publicSignals := [];
       SettlementResult.nullifierHash := EmptyString;
       SettlementResult.success := false |}.
Proof.
  intros Hrun Hout. apply settleMatch_failed. unfold trySettle.
  assert (Hmiss : ∀ index, ¬ listed (length participants) index →
                           proofAt proofs index = None).
  { intros [index|property] Hindex; [|done]. unfold proofAt. simpl in Hindex.
    destruct (Z.leb_spec 0 index) as [Hpos|]; [|done].
    pose proof (buildWhitelistTree_proofs poseidon _ _ _ Hrun (Z.to_nat index)) as Hshape.
    destruct (proofs !! Z.to_nat index) as [proof|]; [|done].
    destruct Hshape as (Hlt & _). lia. }
  destruct Hout as [Hout|Hout]; rewrite (Hmiss _ Hout); [done|].
  by destruct (proofAt proofs (whitelistIndex (buyOrder m))).
Qed.

(** The loop of [processMatches] settles the queue front to back. *)
Lemma drain_map whitelistRoot whitelistProofs queue : ∀ results,
  drain poseidon fullProve whitelistRoot whitelistProofs queue results
  = results ++ map (settleMatch poseidon fullProve whitelistRoot whitelistProofs) queue.
Proof.
  induction queue as [|m queue IH]; intros results; simpl; [by rewrite app_nil_r|].
  by rewrite IH, <- app_assoc.
Qed.

Lemma settleMatch_matchId whitelistRoot whitelistProofs m :
  SettlementResult.matchId (settleMatch poseidon fullProve whitelistRoot whitelistProofs m)
  = matchId m.
Proof. unfold settleMatch. by destruct (trySettle _ _ _ _ _).2. Qed.

End Settle.

Section Warnings.
Variable generateMatchId : nat → string.
Variable Date_now : nat → Z.
Variable poseidon : list Z → Z.
Variable fullProve : ProverLib.Input.t → option (Prover.Groth16Proof * list string).
Variable whitelistRoot : string.
Variable whitelistProofs : gmap nat Prover.MerkleProof.

Lemma hashAssetAddress_Some (assetAddress : string) :
  is_Some (hashAssetAddress poseidon assetAddress) ↔ assetAddress ≠ EmptyString.
Proof.
  unfold hashAssetAddress. rewrite BigInt_bytesToHex.
  destruct assetAddress as [|c s]; simpl; split; try done.
Qed.

(** X15. The warnings [settleMatch] prints for a match the matcher
    logged, after any sequence of submissions. It never prints the
    quantity warning. It prints the price warning exactly when it gets
    as far as the test, that is, both Merkle proofs are found and the
    asset address can be hashed (it is not empty), and the buy and the
    sell were priced differently: the match executes at their midpoint,
    while either commitment was made at the order's own price. *)
Theorem settlement_warnings (orders : list PrivateOrder) (m : Match) :
  m ∈ completedMatches (submitAll generateMatchId Date_now orders) →
  (QuantityMismatch ∉ settleMatchWarnings poseidon fullProve whitelistRoot whitelistProofs m) ∧
  (PriceMismatch ∈ settleMatchWarnings poseidon fullProve whitelistRoot whitelistProofs m ↔
   is_Some (proofAt whitelistProofs (whitelistIndex (buyOrder m))) ∧
   is_Some (proofAt whitelistProofs (whitelistIndex (sellOrder m))) ∧
   assetAddress (buyOrder m) ≠ EmptyString ∧
   price (buyOrder m) ≠ price (sellOrder m)).
Proof.
  intros Hm. destruct (mismatch_tests generateMatchId Date_now orders m Hm) as [Hq Hp].
  unfold settleMatchWarnings, trySettle. rewrite Hq, app_nil_r.
  rewrite <- (hashAssetAddress_Some (assetAddress (buyOrder m))), <- Hp.
  destruct (proofAt whitelistProofs (whitelistIndex (buyOrder m))) as [buyerProof|];
    [|split; [by intros ?%elem_of_nil|split; [by intros ?%elem_of_nil|by intros [[? ?] _]]]].
  destruct (proofAt whitelistProofs (whitelistIndex (sellOrder m))) as [sellerProof|];
    [|split; [by intros ?%elem_of_nil|split; [by intros ?%elem_of_nil|by intros (_ & [? ?] & _)]]].
  destruct (hashAssetAddress poseidon (assetAddress (buyOrder m))) as [assetHash|];
    [|split; [by intros ?%elem_of_nil|split; [by intros ?%elem_of_nil|by intros (_ & _ & [? ?] & _)]]].
  cbn [fst]. destruct (priceMismatch m).
  - split; [by intros [=]%list_elem_of_singleton|]. split; [|intros; apply list_elem_of_here].
    intros _. by repeat split; try eexists.
  - split; [by intros ?%elem_of_nil|]. split; [by intros ?%elem_of_nil|by intros (_ & _ & _ & ?)].
Qed.

End Warnings.

Section InUse.
Variable generateMatchId : nat → string.
Variable Date_now : nat → Z.
Variable poseidon : list Z → Z.
Variable fullProve : ProverLib.Input.t → option (Prover.Groth16Proof * list string).
Variable whitelistRoot : string.
Variable whitelistProofs : gmap nat Prover.MerkleProof.

(** The matcher reads the queue nowhere: two states that differ in
    their queues only are taken to two such states. *)
Lemma matchLoop_queue sells buys : ∀ i st1 st2,
  matchedBuys st1 = matchedBuys st2 → matchedSells st1 = matchedSells st2 →
  completed st1 = completed st2 →
  let r1 := matchLoop generateMatchId Date_now sells i buys st1 in
  let r2 := matchLoop generateMatchId Date_now sells i buys st2 in
  matchedBuys r1 = matchedBuys r2 ∧ matchedSells r1 = matchedSells r2 ∧
  completed r1 = completed r2.
Proof.
  induction buys as [|b0 buys IH]; intros i st1 st2 Hb Hs Hc; simpl; [done|].
  rewrite Hb, Hs, Hc.
  destruct (decide (i ∈ matchedBuys st2)); [by apply IH|].
  destruct (findSell b0 (matchedSells st2) 0 sells) as [[j0 s0]|]; [|by apply IH].
  apply IH; simpl; by rewrite ?Hb, ?Hs, ?Hc.
Qed.

Lemma matchOrders_queue asset e1 e2 :
  buyOrders e1 = buyOrders e2 → sellOrders e1 = sellOrders e2 →
  completedMatches e1 = completedMatches e2 →
  let r1 := matchOrders generateMatchId Date_now asset e1 in
  let r2 := matchOrders generateMatchId Date_now asset e2 in
  buyOrders r1 = buyOrders r2 ∧ sellOrders r1 = sellOrders r2 ∧
  completedMatches r1 = completedMatches r2.
Proof.
  intros Hb Hs Hc. unfold matchOrders. rewrite Hb, Hs.
  destruct ((length _ =? 0)%nat || (length _ =? 0)%nat); [done|].
  cbn [buyOrders sellOrders completedMatches].
  match goal with |- context [matchLoop _ _ ?ss _ ?bs ?s1] =>
    match goal with |- context [matchLoop _ _ ss _ bs ?s2] =>
      tryif constr_eq s1 s2 then fail else
      pose proof (matchLoop_queue ss bs 0%nat s1 s2 eq_refl eq_refl Hc) as Hloop
    end end.
  cbv zeta in Hloop. destruct Hloop as (-> & -> & ->). done.
Qed.

Lemma submitOrder_queue order e1 e2 :
  buyOrders e1 = buyOrders e2 → sellOrders e1 = sellOrders e2 →
  completedMatches e1 = completedMatches e2 →
  let r1 := submitOrder generateMatchId Date_now order e1 in
  let r2 := submitOrder generateMatchId Date_now order e2 in
  buyOrders r1 = buyOrders r2 ∧ sellOrders r1 = sellOrders r2 ∧
  completedMatches r1 = completedMatches r2.
Proof.
  intros Hb Hs Hc. unfold submitOrder.
  destruct (side order =? OrderSide_Buy); apply matchOrders_queue; simpl; congruence.
Qed.

Lemma runSteps_snoc steps step :
  runSteps generateMatchId Date_now poseidon fullProve whitelistRoot whitelistProofs
    (steps ++ [step])
  = turn generateMatchId Date_now poseidon fullProve whitelistRoot whitelistProofs
      (runSteps generateMatchId Date_now poseidon fullProve whitelistRoot whitelistProofs
         steps) step.
Proof. unfold runSteps. by rewrite fold_left_app. Qed.

Lemma submitted_snoc steps step :
  submitted (steps ++ [step])
  = submitted steps ++ match step with Submitted order => [order] | Settled => [] end.
Proof. unfold submitted. rewrite omap_app. by destruct step. Qed.

(** The books and the log after any steps are those of the submissions
    alone. *)
Lemma runSteps_books (steps : list Step) :
  let e := (runSteps generateMatchId Date_now poseidon fullProve whitelistRoot
              whitelistProofs steps).1 in
  let alone := submitAll generateMatchId Date_now (submitted steps) in
  buyOrders e = buyOrders alone ∧ sellOrders e = sellOrders alone ∧
  completedMatches e = completedMatches alone.
Proof.
  induction steps as [|step steps IH] using rev_ind; [done|].
  rewrite runSteps_snoc, submitted_snoc. cbv zeta in IH |- *.
  destruct IH as (Hb & Hs & Hc). destruct step as [order|]; cbn [turn fst].
  - rewrite submitAll_snoc. by apply submitOrder_queue.
  - rewrite app_nil_r. by destruct (matchQueue _).
Qed.

(** X18. Settling never disturbs matching. After any interleaving of
    submissions with turns of the settlement loop, the books and the
    log of matches are what the same submissions alone would have
    left: the loop only takes matches off the queue. *)
Theorem settling_leaves_books (steps : list Step) :
  let e := (runSteps generateMatchId Date_now poseidon fullProve whitelistRoot
              whitelistProofs steps).1 in
  let alone := submitAll generateMatchId Date_now (submitted steps) in
  buyOrders e = buyOrders alone ∧ sellOrders e = sellOrders alone ∧
  completedMatches e = completedMatches alone.
Proof. apply runSteps_books. Qed.

(** X20. [processMatches], left to run alone, is the settlement loop
    turned once for each pending match: it settles the queue front to
    back, one result a match, each under the identifier of its match,
    and leaves the queue empty and the books and the log as they were. *)
Theorem processMatches_drains (e : DarkPoolMatchingEngine)
    (results : list SettlementResult.t) :
  let done := processMatches poseidon fullProve whitelistRoot whitelistProofs e in
  fold_left (turn generateMatchId Date_now poseidon fullProve whitelistRoot whitelistProofs)
    (replicate (getPendingMatchesCount e) Settled) (e, results)
  = (done.2, results ++ done.1) ∧
  done.1 = map (settleMatch poseidon fullProve whitelistRoot whitelistProofs) (matchQueue e) ∧
  map SettlementResult.matchId done.1 = map matchId (matchQueue e) ∧
  getPendingMatchesCount done.2 = 0%nat ∧
  getMatches done.2 = getMatches e.
Proof.
  unfold processMatches, getPendingMatchesCount, getMatches. cbn [fst snd matchQueue length].
  rewrite drain_map. cbn [app].
  split; [|split; [done|split; [|done]]].
  - destruct e as [buys sells queue log]. cbn [matchQueue buyOrders sellOrders completedMatches].
    revert results. induction queue as [|m queue IH]; intros results.
    { by rewrite app_nil_r. }
    cbn [length replicate fold_left turn fst snd matchQueue buyOrders sellOrders
         completedMatches map].
    rewrite IH, <- app_assoc. done.
  - rewrite map_map. apply map_ext. intros m. apply settleMatch_matchId.
Qed.

End InUse.

Lemma ownedBy_snoc k taken owners m o :
  length owners = length taken →
  ownedBy k (taken ++ [m]) (owners ++ [o])
  = ownedBy k taken owners ++ (if decide (o = k) then [m] else []).
Proof.
  intros Hlen. unfold ownedBy. rewrite zip_with_app by done. rewrite omap_app.
  f_equal. simpl. by destruct (decide (o = k)).
Qed.

Lemma ownedBy_later k taken owners :
  Forall (λ o, (o < k)%nat) owners → ownedBy k taken owners = [].
Proof.
  unfold ownedBy. revert taken. induction owners as [|o owners IH]; intros taken Hall.
  { by destruct taken. }
  destruct taken as [|m taken]; [done|].
  apply Forall_cons in Hall as [Ho Hall]. simpl.
  rewrite decide_False by lia. by apply IH.
Qed.

Section Overlap.
Variable generateMatchId : nat → string.
Variable Date_now : nat → Z.
Variable poseidon : list Z → Z.
Variable fullProve : ProverLib.Input.t → option (Prover.Groth16Proof * list string).
Variable whitelistRoot : string.
Variable whitelistProofs : gmap nat Prover.MerkleProof.

Lemma runEvents_snoc events event :
  runEvents generateMatchId Date_now poseidon fullProve whitelistRoot whitelistProofs
    (events ++ [event])
  = react generateMatchId Date_now poseidon fullProve whitelistRoot whitelistProofs
      (runEvents generateMatchId Date_now poseidon fullProve whitelistRoot whitelistProofs
         events) event.
Proof. unfold runEvents. by rewrite fold_left_app. Qed.

(** X19. Every logged match is settled by one call of
    [processMatches] and no other, also when calls overlap. After any
    sequence of submissions, calls of [processMatches] and resumptions
    of calls that await a settlement, the log is the matches shifted
    off the queue so far followed by the queue; each shifted match
    belongs to one of the calls started; and the matches of a call, in
    the order of the log, are those whose settlements make up its
    [results], in that order, followed by the one it still awaits, if
    any. *)
Theorem settled_by_one_call (events : list Event) :
  let s := runEvents generateMatchId Date_now poseidon fullProve whitelistRoot
             whitelistProofs events in
  ∃ taken owners,
    completedMatches s.1 = taken ++ matchQueue s.1 ∧
    length owners = length taken ∧
    Forall (λ o, (o < length s.2)%nat) owners ∧
    ∀ k call, s.2 !! k = Some call →
      ∃ settled,
        ownedBy k taken owners = settled ++ option_list (awaited call) ∧
        results call
        = map (settleMatch poseidon fullProve whitelistRoot whitelistProofs) settled.
Proof.
  cbv zeta. induction events as [|event events IH] using rev_ind.
  { exists [], []. split; [done|]. split; [done|]. split; [constructor|]. by intros k call. }
  rewrite runEvents_snoc.
  destruct (runEvents generateMatchId Date_now poseidon fullProve whitelistRoot
              whitelistProofs events) as [e calls].
  destruct IH as (taken & owners & Hlog & Hlen & Hbound & Hcalls). cbn [fst snd] in *.
  destruct event as [order| |k0]; cbn [react fst snd].
  - (* a submission *)
    destruct (submitOrder_pass generateMatchId Date_now order e)
      as (new & Hc & Hq & _).
    exists taken, owners. rewrite Hc, Hq, Hlog, <- app_assoc. done.
  - (* a call starts *)
    unfold loopHead. destruct (matchQueue e) as [|m rest] eqn:Hqueue; cbn [fst snd].
    + exists taken, owners. rewrite Hqueue. split; [done|]. split; [done|].
      split. { eapply Forall_impl; [exact Hbound|]. intros o Ho. cbv beta in Ho |- *. rewrite length_app. simpl. lia. }
      intros k call [Hk|[Hk Hcall]]%lookup_app_Some; [by apply Hcalls|].
      apply list_lookup_singleton_Some in Hcall as [Hzero <-].
      exists []. split; [|done]. apply ownedBy_later.
      eapply Forall_impl; [exact Hbound|]. intros o Ho. cbv beta in Ho |- *. lia.
    + exists (taken ++ [m]), (owners ++ [length calls]). cbn [completedMatches matchQueue].
      split; [by rewrite Hlog, <- app_assoc|].
      split; [rewrite !length_app; simpl; lia|].
      split.
      { apply Forall_app. split.
        - eapply Forall_impl; [exact Hbound|]. intros o Ho. cbv beta in Ho |- *. rewrite length_app. simpl. lia.
        - constructor; [|constructor]. rewrite length_app. simpl. lia. }
      intros k call Hk. rewrite ownedBy_snoc by done.
      apply lookup_app_Some in Hk as [Hk|[Hk Hcall]].
      * rewrite decide_False by (apply lookup_lt_Some in Hk; lia).
        rewrite app_nil_r. by apply Hcalls.
      * apply list_lookup_singleton_Some in Hcall as [Hzero <-].
        assert (k = length calls) as -> by lia. rewrite decide_True by done.
        exists []. split; [|done]. cbn [awaited option_list option_rect app].
        rewrite ownedBy_later; [done|].
        eapply Forall_impl; [exact Hbound|]. intros o Ho. cbv beta in Ho |- *. lia.
  - (* a call resumes *)
    destruct (calls !! k0) as [[[m|] done0]|] eqn:Hk0;
      [|by exists taken, owners|by exists taken, owners].
    destruct (Hcalls k0 _ Hk0) as (settled0 & Hmine & Hresults).
    cbn [awaited results option_list option_rect] in Hmine, Hresults.
    assert (Hk0lt : (k0 < length calls)%nat) by by eapply lookup_lt_Some.
    unfold loopHead. destruct (matchQueue e) as [|m' rest] eqn:Hqueue; cbn [fst snd].
    + exists taken, owners. rewrite Hqueue, length_insert. split; [done|]. split; [done|].
      split; [done|].
      intros k call Hk. destruct (decide (k0 = k)) as [<-|Hne].
      * rewrite list_lookup_insert_eq in Hk by done. injection Hk as <-.
        exists (settled0 ++ [m]). cbn [awaited results option_list option_rect].
        rewrite app_nil_r, map_app, Hresults. done.
      * rewrite list_lookup_insert_ne in Hk by done. by apply Hcalls.
    + exists (taken ++ [m']), (owners ++ [k0]). cbn [completedMatches matchQueue].
      rewrite length_insert.
      split; [by rewrite Hlog, <- app_assoc|].
      split; [rewrite !length_app; simpl; lia|].
      split; [apply Forall_app; split; [done|by constructor]|].
      intros k call Hk. rewrite ownedBy_snoc by done.
      destruct (decide (k0 = k)) as [<-|Hne].
      * rewrite list_lookup_insert_eq in Hk by done. injection Hk as <-.
        exists (settled0 ++ [m]). cbn [awaited results option_list option_rect].
        rewrite Hmine, map_app, Hresults. done.
      * rewrite list_lookup_insert_ne in Hk by done. rewrite app_nil_r. by apply Hcalls.
Qed.

End Overlap.

End EngineSettlementFacts.

(** * The commitment routes *)

Section CommitmentRouteFacts.

Import Encoding CommitmentRoute.

Lemma missing_false s : OrdersRoute.missing s = false → ∃ t, s = Some t ∧ t ≠ EmptyString.
Proof. destruct s as [[|c t]|]; [done| |done]. intros _. by eexists. Qed.

Lemma missing_true s : OrdersRoute.missing s = true ↔ s = None ∨ s = Some EmptyString.
Proof.
  destruct s as [[|c t]|]; simpl; split; try done; auto.
  intros [?|?]; done.
Qed.

Section Routes.
Variable poseidon : list Z → Z.

(** The asset hash of a non-empty address, and its reading. *)
Lemma hashAsset_Some (assetAddress : string) :
  assetAddress ≠ EmptyString →
  ∃ x, Prover.hashAsset poseidon assetAddress = Some (F.toString (poseidon [F.e x])).
Proof.
  intros Hne. unfold Prover.hashAsset. rewrite BigInt_bytesToHex.
  destruct assetAddress as [|c s]; [done|]. by eexists.
Qed.

Lemma generateOrderCommitment_total rng params :
  ∃ c, Prover.generateOrderCommitment poseidon rng params = Some c ∧
       Prover.secret c = beValue (map rng (seq 0 32)) ∧
       Prover.nonce c = beValue (map rng (seq 32 32)).
Proof.
  unfold Prover.generateOrderCommitment, Prover.randomBytes.
  rewrite !BigInt_bytesToHex. eexists. split; [reflexivity|]. done.
Qed.

(** X21. The answers of [POST /api/commitment/generate] to a command
    whose fields, where present, have the types the interface declares.
    It answers 400 exactly when the asset address, the quantity or the
    price is absent or empty, the side is absent, or the side is
    neither 0 nor 1; of the commands that pass, it answers 500 exactly
    when the quantity or the price is not an integer literal as
    [BigInt] reads one, and 200 in every other case. *)
Theorem generate_answers (rng : nat → byte) (body : GenerateCommitmentRequest) :
  let invalid :=
    OrdersRoute.missing (req_assetAddress body) = true ∨ req_side body = None ∨
    OrdersRoute.missing (req_quantity body) = true ∨
    OrdersRoute.missing (req_price body) = true ∨
    (∃ side, req_side body = Some side ∧ side ≠ 0 ∧ side ≠ 1) in
  let unreadable :=
    (req_quantity body ≫= JS.BigInt) = None ∨ (req_price body ≫= JS.BigInt) = None in
  ((∃ error, postGenerate poseidon rng body = Status400 error) ↔ invalid) ∧
  (postGenerate poseidon rng body = Status500 ↔ ¬ invalid ∧ unreadable) ∧
  ((∃ response, postGenerate poseidon rng body = Status200 response)
   ↔ ¬ invalid ∧ ¬ unreadable).
Proof.
  intros invalid unreadable.
  assert (Hinvalid : invalid ↔
    OrdersRoute.missing (req_assetAddress body) = true ∨ req_side body = None ∨
    OrdersRoute.missing (req_quantity body) = true ∨
    OrdersRoute.missing (req_price body) = true ∨
    (∃ side, req_side body = Some side ∧ side ≠ 0 ∧ side ≠ 1)) by done.
  assert (Hunreadable : unreadable ↔
    (req_quantity body ≫= JS.BigInt) = None ∨ (req_price body ≫= JS.BigInt) = None)
    by done.
  clearbody invalid unreadable.
  assert (H400 : ∀ error (reply : Reply GenerateCommitmentResponse),
            reply = Status400 error → invalid →
            ((∃ error, reply = Status400 error) ↔ invalid) ∧
            (reply = Status500 ↔ ¬ invalid ∧ unreadable) ∧
            ((∃ response, reply = Status200 response) ↔ ¬ invalid ∧ ¬ unreadable)).
  { intros error reply -> Hinv.
    split; [split; [done|by eexists]|].
    split; [split; [done|by intros [Hn _]]|].
    split; [by intros [? ?]|by intros [Hn _]]. }
  assert (H500 : ∀ (reply : Reply GenerateCommitmentResponse),
            reply = Status500 → ¬ invalid → unreadable →
            ((∃ error, reply = Status400 error) ↔ invalid) ∧
            (reply = Status500 ↔ ¬ invalid ∧ unreadable) ∧
            ((∃ response, reply = Status200 response) ↔ ¬ invalid ∧ ¬ unreadable)).
  { intros reply -> Hvalid Hbad.
    split; [split; [by intros [? ?]|done]|].
    split; [done|].
    split; [by intros [? ?]|by intros [_ Hn]]. }
  assert (H200 : ∀ response (reply : Reply GenerateCommitmentResponse),
            reply = Status200 response → ¬ invalid → ¬ unreadable →
            ((∃ error, reply = Status400 error) ↔ invalid) ∧
            (reply = Status500 ↔ ¬ invalid ∧ unreadable) ∧
            ((∃ response, reply = Status200 response) ↔ ¬ invalid ∧ ¬ unreadable)).
  { intros response reply -> Hvalid Hgood.
    split; [split; [by intros [? ?]|done]|].
    split; [split; [done|by intros [_ ?]]|].
    split; [done|by eexists]. }
  unfold postGenerate.
  destruct (OrdersRoute.missing (req_assetAddress body)) eqn:Hasset.
  { apply (H400 _ _ eq_refl). apply Hinvalid. by left. }
  destruct (req_side body) as [side|] eqn:Hside; cycle 1.
  { rewrite bool_decide_eq_true_2 by done. cbn [orb].
    apply (H400 _ _ eq_refl). apply Hinvalid. right. by left. }
  rewrite (bool_decide_eq_false_2 (Some side = None)) by done. cbn [orb].
  destruct (OrdersRoute.missing (req_quantity body)) eqn:Hqty.
  { cbn [orb]. apply (H400 _ _ eq_refl). apply Hinvalid. right. right. by left. }
  destruct (OrdersRoute.missing (req_price body)) eqn:Hprice.
  { apply (H400 _ _ eq_refl). apply Hinvalid. right. right. right. by left. }
  cbn [orb]. change (default 0 (Some side)) with side.
  destruct (negb (side =? 0) && negb (side =? 1)) eqn:Hrange.
  { apply (H400 _ _ eq_refl). apply Hinvalid. do 4 right. exists side. split; [done|].
    apply andb_true_iff in Hrange as [H0 H1].
    apply negb_true_iff in H0, H1. apply Z.eqb_neq in H0, H1. done. }
  assert (Hvalid : ¬ invalid).
  { rewrite Hinvalid. intros [?|[?|[?|[?|(side' & Hs' & H0 & H1)]]]]; try congruence.
    injection Hs' as <-.
    apply Z.eqb_neq in H0, H1. by rewrite H0, H1 in Hrange. }
  apply missing_false in Hasset as (asset & -> & Hne).
  apply missing_false in Hqty as (quantity & Hq & _).
  apply missing_false in Hprice as (price & Hp & _).
  rewrite Hq, Hp in *.
  change (default EmptyString (Some asset)) with asset.
  change (default EmptyString (Some quantity)) with quantity.
  change (default EmptyString (Some price)) with price.
  cbn [mbind option_bind] in *.
  destruct (hashAsset_Some asset Hne) as (x & ->). cbn [mbind option_bind].
  unfold F.toString at 1. rewrite BigInt_toString_Z. cbn [mbind option_bind].
  destruct (JS.BigInt quantity) as [qv|]; cbn [mbind option_bind];
    [|apply (H500 _ eq_refl); [done|apply Hunreadable; by left]].
  destruct (JS.BigInt price) as [pv|]; cbn [mbind option_bind];
    [|apply (H500 _ eq_refl); [done|apply Hunreadable; by right]].
  match goal with |- context [Prover.generateOrderCommitment _ _ ?params] =>
    destruct (generateOrderCommitment_total rng params) as (c & -> & _) end.
  cbn [mbind option_bind]. apply (H200 _ _ eq_refl); [done|].
  rewrite Hunreadable. by intros [?|?].
Qed.

Hypothesis poseidon_canonical : ∀ inputs, F.canonical (poseidon inputs).

(** X22. A commitment the route hands out opens in the settlement
    circuit. When [POST /api/commitment/generate] answers 200, the
    command's side is 0 or 1 and its quantity and price are integer
    literals; the secret and the nonce of the response are the decimal
    strings of the two 32-byte draws; and with the response's asset
    hash, nonce, secret and commitment as input signals, and the
    command's quantity and price as matched quantity and execution
    price, the circuit's commitment constraint of that side holds: the
    buy constraint for side 0, the sell constraint for side 1. *)
Theorem generated_commitment_opens (rng : nat → byte) (body : GenerateCommitmentRequest)
    (response : GenerateCommitmentResponse) :
  postGenerate poseidon rng body = Status200 response →
  ∃ side quantity price a c,
    req_side body = Some side ∧ (side = 0 ∨ side = 1) ∧
    (req_quantity body ≫= JS.BigInt) = Some quantity ∧
    (req_price body ≫= JS.BigInt) = Some price ∧
    JS.BigInt (secret response) = Some (beValue (map rng (seq 0 32))) ∧
    JS.BigInt (nonce response) = Some (beValue (map rng (seq 32 32))) ∧
    Circuit.signalOfString (assetHash response) = Some a ∧
    Circuit.signalOfString (commitment response) = Some c ∧
    ∀ s : SettlementCircuit.Signals,
      SettlementCircuit.assetHash s = a →
      SettlementCircuit.matchedQuantity s = F.e quantity →
      SettlementCircuit.executionPrice s = F.e price →
      (side = 0 →
       Circuit.signalOfString (nonce response) = Some (SettlementCircuit.buyOrderNonce s) →
       Circuit.signalOfString (secret response) = Some (SettlementCircuit.buyOrderSecret s) →
       SettlementCircuit.buyCommitment s = c →
       SettlementCircuit.buyCommitmentHolds poseidon s = true) ∧
      (side = 1 →
       Circuit.signalOfString (nonce response) = Some (SettlementCircuit.sellOrderNonce s) →
       Circuit.signalOfString (secret response) = Some (SettlementCircuit.sellOrderSecret s) →
       SettlementCircuit.sellCommitment s = c →
       SettlementCircuit.sellCommitmentHolds poseidon s = true).
Proof.
  unfold postGenerate.
  destruct (OrdersRoute.missing (req_assetAddress body)
            || bool_decide (req_side body = None)
            || OrdersRoute.missing (req_quantity body)
            || OrdersRoute.missing (req_price body)) eqn:Hmissing; [done|].
  apply orb_false_iff in Hmissing as [Hmissing Hprice].
  apply orb_false_iff in Hmissing as [Hmissing Hqty].
  apply orb_false_iff in Hmissing as [Hasset Hside].
  apply bool_decide_eq_false_1 in Hside.
  destruct (req_side body) as [side|]; [|done]. change (default 0 (Some side)) with side.
  destruct (negb (side =? 0) && negb (side =? 1)) eqn:Hrange; [done|].
  apply missing_false in Hasset as (asset & -> & Hne).
  apply missing_false in Hqty as (quantity & -> & _).
  apply missing_false in Hprice as (price & -> & _).
  change (default EmptyString (Some asset)) with asset.
  change (default EmptyString (Some quantity)) with quantity.
  change (default EmptyString (Some price)) with price.
  cbn [mbind option_bind].
  destruct (hashAsset_Some asset Hne) as (x & ->). cbn [mbind option_bind].
  unfold F.toString at 1. rewrite BigInt_toString_Z. cbn [mbind option_bind].
  destruct (JS.BigInt quantity) as [qv|]; cbn [mbind option_bind]; [|done].
  destruct (JS.BigInt price) as [pv|]; cbn [mbind option_bind]; [|done].
  match goal with |- context [Prover.generateOrderCommitment _ _ ?params] =>
    destruct (generateOrderCommitment_total rng params) as (c & Hc & Hsecret & Hnonce);
    pose proof (generateOrderCommitment_Some _ _ _ _ Hc) as Hcommit;
    rewrite Hc end.
  cbn [mbind option_bind]. intros [= <-].
  cbn [secret nonce assetHash commitment Prover.assetHash Prover.side Prover.quantity
       Prover.price] in *.
  rewrite (F_e_canonical _ (poseidon_canonical _)) in Hcommit.
  exists side, qv, pv, (poseidon [F.e x]),
    (poseidon [poseidon [F.e x]; F.e side; F.e qv; F.e pv;
               F.e (Prover.nonce c); F.e (Prover.secret c)]).
  split; [done|].
  split.
  { apply andb_false_iff in Hrange as [H|H]; apply negb_false_iff, Z.eqb_eq in H; auto. }
  split; [done|]. split; [done|].
  split; [by rewrite BigInt_toString_Z, Hsecret|].
  split; [by rewrite BigInt_toString_Z, Hnonce|].
  split; [apply signalOfString_toString, poseidon_canonical|].
  split; [rewrite Hcommit; apply signalOfString_toString, poseidon_canonical|].
  intros s Ha Hq Hp.
  unfold SettlementCircuit.buyCommitmentHolds, SettlementCircuit.sellCommitmentHolds.
  rewrite Ha, Hq, Hp, !signalOfString_toString_Z.
  split; intros -> [= <-] [= <-] ->; apply Z.eqb_refl.
Qed.

(** X23. On a body whose [assetAddress] is absent or a string,
    [POST /api/commitment/hash-asset] answers 400 when it is absent or
    empty and 200 otherwise, never 500: the hash of a non-empty string
    is always defined, and it is the decimal string of Poseidon on the
    big-endian integer of the address bytes reduced into the field. *)
Theorem hash_asset_answers (assetAddress : option string) :
  postHashAsset poseidon assetAddress
  = match assetAddress with
    | None | Some EmptyString => Status400 "Missing required field: assetAddress"
    | Some address => Status200 (Reference.hashAsset poseidon address)
    end.
Proof.
  unfold postHashAsset. destruct assetAddress as [[|c address]|]; [done| |done].
  cbn [OrdersRoute.missing default]. unfold Prover.hashAsset.
  rewrite BigInt_bytesToHex. done.
Qed.

End Routes.

End CommitmentRouteFacts.

(** * The heartbeat left alone *)

Section HeartbeatSilence.

Import WebSocketServer.

(** X24. Two firings of the heartbeat timer with no event in between
    leave the server without a single socket: every socket that was
    connected is terminated at the first or at the second firing,
    according to its flag, and none of its subscriptions is left. *)
Theorem two_silent_firings (server : Server) :
  let after := run server [Tick; Tick] in
  clients after.1 = ∅ ∧
  (∀ c, is_Some (clients server !! c) → Did (Terminate c) ∈ after.2) ∧
  (∀ c channel, (c, channel) ∈ subscriptionManager after.1 ↔
                (c, channel) ∈ subscriptionManager server ∧ clients server !! c = None).
Proof.
  cbv zeta. cbn [run handle].
  destruct (heartbeat server) as [server1 actions1] eqn:H1.
  destruct (heartbeat server1) as [server2 actions2] eqn:H2.
  cbn [fst snd].
  destruct (heartbeat_spec server) as (_ & Hclients1 & Hsubs1).
  destruct (heartbeat_spec server1) as (_ & Hclients2 & Hsubs2).
  pose proof (heartbeat_actions server) as Hacts1.
  pose proof (heartbeat_actions server1) as Hacts2.
  rewrite H1 in Hclients1, Hsubs1, Hacts1. rewrite H2 in Hclients2, Hsubs2, Hacts2.
  cbn [fst snd] in *.
  split.
  { apply map_eq. intros c. rewrite lookup_empty, Hclients2, Hclients1.
    by destruct (clients server !! c) as [[]|]. }
  split.
  { intros c [alive Hc]. apply elem_of_cons. right.
    rewrite elem_of_app. destruct alive.
    - right. apply elem_of_cons. right. rewrite app_nil_r.
      apply list_elem_of_fmap. exists (Terminate c). split; [done|].
      apply Hacts2. by rewrite Hclients1, Hc.
    - left. apply list_elem_of_fmap. exists (Terminate c). split; [done|].
      by apply Hacts1. }
  intros c channel. rewrite Hsubs2, Hsubs1, Hclients1.
  destruct (clients server !! c) as [[]|]; intuition congruence.
Qed.

End HeartbeatSilence.

(** * The reply of the submission route *)

Section ReplyFacts.

Import Engine EngineSettlement OrdersReply.

(** X25. What [getOrderBookState] reports for an asset: the two counts
    are the lengths of the resting lists, the four string arrays run
    parallel to them, and each string reads back, as [BigInt] reads it,
    as the quantity or the price of the order at its position, whatever
    its sign. For an asset the engine has never seen all is empty. *)
Theorem orderBookState_faithful (assetAddress : string) (e : DarkPoolMatchingEngine) :
  let state := getOrderBookState assetAddress e in
  buys state = length (restingBuys assetAddress e) ∧
  sells state = length (restingSells assetAddress e) ∧
  mapM JS.BigInt (buyQuantities state) = Some (map quantity (restingBuys assetAddress e)) ∧
  mapM JS.BigInt (buyPrices state) = Some (map price (restingBuys assetAddress e)) ∧
  mapM JS.BigInt (sellQuantities state) = Some (map quantity (restingSells assetAddress e)) ∧
  mapM JS.BigInt (sellPrices state) = Some (map price (restingSells assetAddress e)).
Proof.
  assert (Hread : ∀ (f : PrivateOrder → Z) (l : list PrivateOrder),
            mapM JS.BigInt (map (λ o, JS.toString 10 (f o)) l) = Some (map f l)).
  { intros f l. apply mapM_Some. induction l as [|o l IH]; simpl; constructor; [|done].
    apply BigInt_toString_Z. }
  unfold getOrderBookState, restingBuys, restingSells. cbv zeta.
  cbn [buys sells buyQuantities buyPrices sellQuantities sellPrices].
  rewrite !Hread. done.
Qed.

Section Reply.
Variable generateMatchId : nat → string.
Variable Date_now : nat → Z.
Variable poseidon : list Z → Z.
Variable fullProve : ProverLib.Input.t → option (Prover.Groth16Proof * list string).
Variable whitelistRoot : string.
Variable whitelistProofs : gmap nat Prover.MerkleProof.

(** The books after any steps rest no pair. *)
Lemma runSteps_quiet (steps : list Step) asset b s :
  let e := (runSteps generateMatchId Date_now poseidon fullProve whitelistRoot
              whitelistProofs steps).1 in
  b ∈ restingBuys asset e → s ∈ restingSells asset e →
  price b < price s ∨ quantity b ≠ quantity s.
Proof.
  cbv zeta. unfold restingBuys, restingSells.
  destruct (runSteps_books generateMatchId Date_now poseidon fullProve whitelistRoot
              whitelistProofs steps) as (-> & -> & _).
  apply (submitAll_quiet generateMatchId Date_now (submitted steps) asset b s).
Qed.

(** X26. What the submission route answers about matching, on an engine
    in use (any interleaving of earlier submissions and settlement
    turns). [pendingMatches] counts the matches still queued from
    earlier together with the at most one match this order made, so
    [matched] is true exactly when a match was still pending or this
    order was matched. A [noMatchReason] is given only when nothing is
    pending and this order made no match: then the order rests, the
    other side of its asset is not empty, and every order resting there
    is priced across it or differs from it in quantity. *)
Theorem submit_reply_meaning (steps : list Step) (order : PrivateOrder) :
  let e := (runSteps generateMatchId Date_now poseidon fullProve whitelistRoot
              whitelistProofs steps).1 in
  let e' := submitOrder generateMatchId Date_now order e in
  let asset := assetAddress order in
  let reply := submitReply (side order) asset e' in
  (matched reply = true ↔
   matchQueue e ≠ [] ∨ ∃ m, completedMatches e' = completedMatches e ++ [m]) ∧
  (pendingMatches reply = getPendingMatchesCount e ∨
   pendingMatches reply = S (getPendingMatchesCount e)) ∧
  (noMatchReason reply = true →
   completedMatches e' = completedMatches e ∧ matchQueue e' = [] ∧
   if side order =? OrderSide_Buy
   then order ∈ restingBuys asset e' ∧ restingSells asset e' ≠ [] ∧
        ∀ s, s ∈ restingSells asset e' →
             price order < price s ∨ quantity order ≠ quantity s
   else order ∈ restingSells asset e' ∧ restingBuys asset e' ≠ [] ∧
        ∀ b, b ∈ restingBuys asset e' →
             price b < price order ∨ quantity b ≠ quantity order).
Proof.
  intros e e' asset reply.
  destruct (submitOrder_once_quiet generateMatchId Date_now e order)
    as (new & Hc & Hq & Hnew & Hbooks).
  { intros a b s. apply runSteps_quiet. }
  destruct (submitOrder_pass generateMatchId Date_now order e) as (_ & _ & _ & _ & _ & _ & _ & Hquiet).
  fold e' asset in Hc, Hq, Hnew, Hbooks, Hquiet.
  unfold reply, submitReply, getPendingMatchesCount.
  cbn [matched pendingMatches noMatchReason].
  rewrite Hq, length_app.
  split; [|split].
  - rewrite Nat.ltb_lt. split.
    + intros Hpos. destruct (matchQueue e) as [|m0 queue]; [|by left]. right.
      destruct Hnew as [->|(m & -> & _)]; [simpl in Hpos; lia|].
      exists m. done.
    + intros [Hne|(m & Hm)].
      * destruct (matchQueue e); [done|simpl; lia].
      * rewrite Hc in Hm. apply app_inv_head in Hm as ->. simpl. lia.
  - destruct Hnew as [->|(m & -> & _)]; simpl; [left|right]; lia.
  - intros Hreason. apply andb_true_iff in Hreason as [Hzero Hother].
    apply Nat.eqb_eq in Hzero.
    assert (Hqe : matchQueue e = []) by (destruct (matchQueue e); [done|simpl in Hzero; lia]).
    assert (Hnil : new = []).
    { destruct Hnew as [->|(m & -> & _)]; [done|]. simpl in Hzero. lia. }
    subst new. rewrite app_nil_r in Hc, Hq.
    split; [exact Hc|]. split; [by rewrite Hqe|].
    unfold getOrderBookState in Hother. cbn [buys sells] in Hother.
    fold (restingBuys asset e') in Hother. fold (restingSells asset e') in Hother.
    change (side order =? 0) with (side order =? OrderSide_Buy) in Hother.
    destruct (side order =? OrderSide_Buy); destruct Hbooks as [Hb Hs]; simpl in Hb, Hs.
    + assert (Hin : order ∈ restingBuys asset e').
      { rewrite <- Hb. apply elem_of_app. right. apply list_elem_of_here. }
      split; [done|]. split.
      { apply Nat.ltb_lt in Hother. intros Hnil. rewrite Hnil in Hother. simpl in Hother. lia. }
      intros s Hsin. by apply Hquiet.
    + assert (Hin : order ∈ restingSells asset e').
      { rewrite <- Hs. apply elem_of_app. right. apply list_elem_of_here. }
      split; [done|]. split.
      { apply Nat.ltb_lt in Hother. intros Hnil. rewrite Hnil in Hother. simpl in Hother. lia. }
      intros b Hbin. by apply Hquiet.
Qed.

End Reply.

End ReplyFacts.

(** * The engine on sample orders *)

Section BookSamples.

Import Engine EngineSettlement Examples Samples.

Lemma no_pair_rests_witness :
  order 0 100 50 1 ∈ restingBuys "CUSD" (submitAll ids clock [order 0 100 50 1; order 1 90 48 2]) ∧
  order 1 90 48 2 ∈ restingSells "CUSD" (submitAll ids clock [order 0 100 50 1; order 1 90 48 2]) ∧
  (price (order 0 100 50 1) < price (order 1 90 48 2) ∨
   quantity (order 0 100 50 1) ≠ quantity (order 1 90 48 2)).
Proof.
  assert (Hb : order 0 100 50 1
               ∈ restingBuys "CUSD" (submitAll ids clock [order 0 100 50 1; order 1 90 48 2])).
  { vm_compute. apply list_elem_of_here. }
  assert (Hs : order 1 90 48 2
               ∈ restingSells "CUSD" (submitAll ids clock [order 0 100 50 1; order 1 90 48 2])).
  { vm_compute. apply list_elem_of_here. }
  split; [exact Hb|]. split; [exact Hs|].
  exact (no_pair_rests ids clock _ _ _ _ Hb Hs).
Defined.

Lemma books_by_side_and_asset_witness :
  order 2 90 48 2 ∈ restingSells "CUSD" (submitAll ids clock [order 0 100 50 1; order 2 90 48 2]) ∧
  side (order 2 90 48 2) ≠ OrderSide_Buy ∧ assetAddress (order 2 90 48 2) = "CUSD"%string.
Proof.
  assert (Hs : order 2 90 48 2
               ∈ restingSells "CUSD" (submitAll ids clock [order 0 100 50 1; order 2 90 48 2])).
  { vm_compute. apply list_elem_of_here. }
  split; [exact Hs|].
  exact (proj2 (books_by_side_and_asset ids clock _ _ _) Hs).
Defined.

Lemma matches_within_asset_witness :
  crossing ∈ completedMatches (submitAll ids clock [order 0 100 52 1; order 1 100 48 2]) ∧
  assetAddress (buyOrder crossing) = assetAddress (sellOrder crossing).
Proof.
  assert (Hin : crossing ∈ completedMatches
                  (submitAll ids clock [order 0 100 52 1; order 1 100 48 2])).
  { vm_compute. apply list_elem_of_here. }
  split; [exact Hin|].
  exact (proj2 (proj2 (matches_within_asset ids clock _ _ Hin))).
Defined.

Lemma incoming_sell_takes_best_buy_witness :
  completedMatches (submitOrder ids clock (order 1 100 48 3)
                      (submitAll ids clock [order 0 100 50 1; order 0 100 55 2]))
  = completedMatches (submitAll ids clock [order 0 100 50 1; order 0 100 55 2]) ++ [bestBuy] ∧
  buyOrder bestBuy ∈ restingBuys "CUSD" (submitAll ids clock [order 0 100 50 1; order 0 100 55 2]) ∧
  price (order 0 100 50 1) ≤ price (buyOrder bestBuy).
Proof.
  assert (Hlog : completedMatches (submitOrder ids clock (order 1 100 48 3)
                      (submitAll ids clock [order 0 100 50 1; order 0 100 55 2]))
    = completedMatches (submitAll ids clock [order 0 100 50 1; order 0 100 55 2])
      ++ [bestBuy]).
  { vm_compute. reflexivity. }
  split; [exact Hlog|].
  assert (Hside : side (order 1 100 48 3) ≠ OrderSide_Buy) by (vm_compute; discriminate).
  destruct (incoming_sell_takes_best_buy ids clock _ _ _ Hside Hlog)
    as (_ & Hrested & _ & _ & Hbest).
  split; [exact Hrested|].
  refine (proj1 (Hbest (order 0 100 50 1) _ _ _)).
  - vm_compute. apply list_elem_of_here.
  - vm_compute. discriminate.
  - reflexivity.
Defined.

Lemma settlement_warnings_witness :
  crossing ∈ completedMatches (submitAll ids clock [order 0 100 52 1; order 1 100 48 2]) ∧
  PriceMismatch ∈ settleMatchWarnings mix noProver "0" oneProof crossing.
Proof.
  assert (Hin : crossing ∈ completedMatches
                  (submitAll ids clock [order 0 100 52 1; order 1 100 48 2])).
  { vm_compute. apply list_elem_of_here. }
  split; [exact Hin|].
  apply (proj2 (settlement_warnings ids clock mix noProver "0" oneProof _ _ Hin)).
  split; [by eexists|]. split; [by eexists|].
  split; [discriminate|]. vm_compute. discriminate.
Defined.

Lemma getMatchById_finds_witness :
  crossing ∈ completedMatches (submitAll ids clock [order 0 100 52 1; order 1 100 48 2]) ∧
  getMatchById (matchId crossing)
    (submitAll ids clock [order 0 100 52 1; order 1 100 48 2]) = Some crossing.
Proof.
  assert (Hin : crossing ∈ completedMatches
                  (submitAll ids clock [order 0 100 52 1; order 1 100 48 2])).
  { vm_compute. apply list_elem_of_here. }
  split; [exact Hin|].
  apply (proj2 (getMatchById_finds ids clock _ _ Hin)).
  intros j k Hj Hk _.
  change (length (completedMatches
            (submitAll ids clock [order 0 100 52 1; order 1 100 48 2]))) with 1%nat in Hj, Hk.
  lia.
Defined.

Lemma matching_reads_terms_only_witness :
  Relabel.keepsTerms anonymous ∧
  submitAll ids clock (map anonymous [order 0 100 52 1; order 1 100 48 2])
  = Relabel.mapEngine anonymous (submitAll ids clock [order 0 100 52 1; order 1 100 48 2]).
Proof.
  assert (Hkeeps : Relabel.keepsTerms anonymous).
  { intros o. repeat split. }
  split; [exact Hkeeps|].
  exact (matching_reads_terms_only ids clock anonymous _ Hkeeps).
Defined.

Lemma submit_reply_meaning_witness :
  OrdersReply.noMatchReason
    (OrdersReply.submitReply (side (order 0 100 50 2)) (assetAddress (order 0 100 50 2))
       (submitOrder ids clock (order 0 100 50 2)
          (runSteps ids clock mix noProver "0" ∅ [Submitted (order 1 90 48 1)]).1)) = true ∧
  order 0 100 50 2
  ∈ restingBuys "CUSD"
      (submitOrder ids clock (order 0 100 50 2)
         (runSteps ids clock mix noProver "0" ∅ [Submitted (order 1 90 48 1)]).1).
Proof.
  assert (Hreason : OrdersReply.noMatchReason
    (OrdersReply.submitReply (side (order 0 100 50 2)) (assetAddress (order 0 100 50 2))
       (submitOrder ids clock (order 0 100 50 2)
          (runSteps ids clock mix noProver "0" ∅ [Submitted (order 1 90 48 1)]).1)) = true).
  { vm_compute. reflexivity. }
  split; [exact Hreason|].
  exact (proj1 (proj2 (proj2 (proj2 (proj2
    (submit_reply_meaning ids clock mix noProver "0" ∅
       [Submitted (order 1 90 48 1)] (order 0 100 50 2))) Hreason)))).
Defined.

Lemma tie_goes_to_first_in_book_witness :
  completedMatches (submitOrder ids clock (order 0 100 52 3)
                      (submitAll ids clock [outsider 1 100 48 2; order 1 100 48 2]))
  = completedMatches (submitAll ids clock [outsider 1 100 48 2; order 1 100 48 2])
    ++ [firstOfTie] ∧
  head (filter (λ s, quantity s = quantity (order 0 100 52 3) ∧
                     price s = price (sellOrder firstOfTie) ∧
                     timestamp s = timestamp (sellOrder firstOfTie))
          (restingSells (assetAddress (order 0 100 52 3))
             (submitAll ids clock [outsider 1 100 48 2; order 1 100 48 2])))
  = Some (sellOrder firstOfTie).
Proof.
  assert (Hlog : completedMatches (submitOrder ids clock (order 0 100 52 3)
                      (submitAll ids clock [outsider 1 100 48 2; order 1 100 48 2]))
    = completedMatches (submitAll ids clock [outsider 1 100 48 2; order 1 100 48 2])
      ++ [firstOfTie]).
  { vm_compute. reflexivity. }
  split; [exact Hlog|].
  exact (tie_goes_to_first_in_book ids clock _ _ _ Hlog).
Defined.

End BookSamples.

(** * The prover on a sample whitelist *)

Section ProverSamples.

Import Encoding Prover ProverLib Examples Samples.

Lemma members_fit : (length members ≤ 2 ^ TREE_DEPTH)%nat.
Proof.
  change (length members) with (2 ^ 1 + 1)%nat.
  etrans; [|apply (Nat.pow_le_mono_r 2 2); [lia|unfold TREE_DEPTH; lia]]. simpl. lia.
Qed.

Lemma members_tree :
  ∃ root proofs proof0 proof1,
    buildWhitelistTree mix members = Some (root, proofs) ∧
    proofs !! 0%nat = Some proof0 ∧ proofs !! 1%nat = Some proof1.
Proof.
  destruct (leafHashes_spec mix members) as [leaves Hleaves].
  { repeat constructor; by eexists. }
  destruct (buildWhitelistTree_spec mix mix_canonical _ _ members_fit Hleaves)
    as (root & proofs & Hrun & Hok).
  destruct (Hok 0%nat) as (proof0 & H0 & _); [simpl; lia|].
  destruct (Hok 1%nat) as (proof1 & H1 & _); [simpl; lia|].
  exists root, proofs, proof0, proof1.
  split; [exact Hrun|]. split; [exact H0|exact H1].
Defined.

Lemma pathIndices_are_index_bits_witness :
  ∃ root proofs proof,
    buildWhitelistTree mix members = Some (root, proofs) ∧
    proofs !! 1%nat = Some proof ∧
    pathIndices proof = getPathIndices 1 TREE_DEPTH.
Proof.
  destruct members_tree as (root & proofs & proof0 & proof1 & Hrun & H0 & H1).
  exists root, proofs, proof1. split; [exact Hrun|]. split; [exact H1|].
  exact (pathIndices_are_index_bits mix members root proofs 1 proof1 members_fit Hrun H1).
Defined.

Lemma proofs_keys_and_leaves_witness :
  ∃ root proofs,
    buildWhitelistTree mix members = Some (root, proofs) ∧
    (is_Some (proofs !! 3%nat) ↔ (3 < length members)%nat).
Proof.
  destruct members_tree as (root & proofs & proof0 & proof1 & Hrun & H0 & H1).
  exists root, proofs. split; [exact Hrun|].
  exact (proj1 (proofs_keys_and_leaves mix members root proofs Hrun 3%nat)).
Defined.

Lemma buildWhitelistTree_rejects_witness :
  "x"%string ∈ ["1"; "x"]%string ∧ JS.BigInt "x" = None ∧
  buildWhitelistTree mix ["1"; "x"]%string = None.
Proof.
  assert (Hin : "x"%string ∈ ["1"; "x"]%string).
  { apply list_elem_of_further, list_elem_of_here. }
  assert (Hbad : JS.BigInt "x" = None) by reflexivity.
  split; [exact Hin|]. split; [exact Hbad|].
  exact (buildWhitelistTree_rejects mix _ _ Hin Hbad).
Defined.

Lemma honest_settlement_accepted_witness :
  ∃ root proofs buyerProof sellerProof buy sell nullifier,
    buildWhitelistTree mix members = Some (root, proofs) ∧
    proofs !! 0%nat = Some buyerProof ∧ proofs !! 1%nat = Some sellerProof ∧
    generateOrderCommitment mix allOnes
      {| Prover.assetHash := 7; side := 0; quantity := 100; price := 50 |} = Some buy ∧
    generateOrderCommitment mix allOnes
      {| Prover.assetHash := 7; side := 1; quantity := 100; price := 50 |} = Some sell ∧
    SettlementCircuit.witness mix
      {| TradeParams.buyerIdHash := idHash buyerProof;
         TradeParams.buyerMerkleProof := buyerProof;
         TradeParams.sellerIdHash := idHash sellerProof;
         TradeParams.sellerMerkleProof := sellerProof;
         TradeParams.buyOrderSecret := secret buy;
         TradeParams.buyOrderNonce := nonce buy;
         TradeParams.sellOrderSecret := secret sell;
         TradeParams.sellOrderNonce := nonce sell;
         TradeParams.buyCommitment := commitment buy;
         TradeParams.sellCommitment := commitment sell;
         TradeParams.assetHash := "7";
         TradeParams.matchedQuantity := 100;
         TradeParams.executionPrice := 50;
         TradeParams.whitelistRoot := root |} = Some nullifier.
Proof.
  destruct members_tree as (root & proofs & proof0 & proof1 & Hrun & H0 & H1).
  destruct (generateOrderCommitment_total mix allOnes
              {| Prover.assetHash := 7; side := 0; quantity := 100; price := 50 |})
    as (buy & Hbuy & _).
  destruct (generateOrderCommitment_total mix allOnes
              {| Prover.assetHash := 7; side := 1; quantity := 100; price := 50 |})
    as (sell & Hsell & _).
  destruct (honest_settlement_accepted mix mix_canonical members root proofs 0 1
              proof0 proof1 allOnes allOnes "7" 7 100 50 buy sell
              members_fit Hrun H0 H1 eq_refl Hbuy Hsell) as (nullifier & Hwitness & _).
  exists root, proofs, proof0, proof1, buy, sell, nullifier.
  split; [exact Hrun|]. split; [exact H0|]. split; [exact H1|].
  split; [exact Hbuy|]. split; [exact Hsell|exact Hwitness].
Defined.

Lemma settleMatch_outside_whitelist_witness :
  ∃ root proofs,
    buildWhitelistTree mix members = Some (root, proofs) ∧
    EngineSettlement.SettlementResult.success
      (EngineSettlement.settleMatch mix noProver root proofs outsiderMatch) = false.
Proof.
  destruct members_tree as (root & proofs & proof0 & proof1 & Hrun & H0 & H1).
  exists root, proofs. split; [exact Hrun|].
  rewrite (settleMatch_outside_whitelist mix noProver members root proofs outsiderMatch Hrun).
  - reflexivity.
  - left. vm_compute. intros [_ H]. discriminate H.
Defined.

Lemma generated_commitment_opens_witness :
  ∃ response,
    CommitmentRoute.postGenerate mix allOnes buyCommand = CommitmentRoute.Status200 response ∧
    JS.BigInt (CommitmentRoute.secret response) = Some (beValue (map allOnes (seq 0 32))).
Proof.
  destruct (CommitmentRoute.postGenerate mix allOnes buyCommand) as [error| |response] eqn:Hpost;
    [vm_compute in Hpost; discriminate Hpost..|].
  exists response. split; [reflexivity|].
  destruct (generated_commitment_opens mix mix_canonical allOnes buyCommand response Hpost)
    as (side & quantity & price & a & c & _ & _ & _ & _ & Hsecret & _).
  exact Hsecret.
Defined.

End ProverSamples.
